(** * A streaming OCR service: the server pipeline, verified against its source

    The development embeds the server side of the repository:

    - [CString]: the [std::string] operations the adapter uses
      ([find], [find_first_not_of], [erase], [replace], ...);
    - [Adapter]: [OCRProcessor::postProcessText] and
      [OCRProcessor::processImage], in the two variants the repository holds;
    - [RoundRobin]: the processor selection [m_nextProcessorIndex++ % size];
    - [ThreadPool]: [ThreadPool::enqueue] and the worker loop;
    - [Session]: [OCRServiceImpl::ProcessImages], the reader loop, the
      global byte counter and the tasks it hands to the pool;
    - [Serializer]: the writes to the stream under [m_streamMutex];
    - [Cli]: the argument loop of [main].

    Strings that the code edits by position are lists of characters;
    [std::string::npos] is [None]. *)

From Stdlib Require Import ZArith String Ascii Bool Arith Lia List Permutation.
Import ListNotations.

Set Implicit Arguments.

(* ===================================================================== *)
(** ** std::string, as far as the adapter uses it *)
(* ===================================================================== *)

Module CString.

Definition cstring := list ascii.

(** A literal of the source, as a character list. *)
Definition lit (s : string) : cstring := list_ascii_of_string s.

(** [set.find(c) != npos] for a one-character search in a literal set. *)
Fixpoint mem (c : ascii) (set : cstring) : bool :=
  match set with
  | [] => false
  | d :: set' => if Ascii.eqb c d then true else mem c set'
  end.

(** [s.find_first_not_of(set)]; [None] is [npos]. *)
Fixpoint find_first_not_of (set s : cstring) : option nat :=
  match s with
  | [] => None
  | c :: r =>
      if mem c set then option_map S (find_first_not_of set r) else Some 0
  end.

(** [s.find_last_not_of(set)]; [None] is [npos]. *)
Fixpoint find_last_not_of (set s : cstring) : option nat :=
  match s with
  | [] => None
  | c :: r =>
      match find_last_not_of set r with
      | Some i => Some (S i)
      | None => if mem c set then None else Some 0
      end
  end.

(** [pat] occurs in [s] at position 0. *)
Fixpoint starts_with (pat s : cstring) : bool :=
  match pat, s with
  | [], _ => true
  | _ :: _, [] => false
  | p :: pat', c :: s' => Ascii.eqb p c && starts_with pat' s'
  end.

(** First occurrence of [pat] in [s], counted from the head of [s]. *)
Fixpoint find0 (pat s : cstring) : option nat :=
  if starts_with pat s then Some 0
  else match s with
       | [] => None
       | _ :: r => option_map S (find0 pat r)
       end.

(** [s.find(pat, pos)]: the first occurrence at or after [pos];
    [npos] when [pos] is past the end. *)
Definition find (pat s : cstring) (pos : nat) : option nat :=
  if length s <? pos then None
  else option_map (Nat.add pos) (find0 pat (skipn pos s)).

(** [s.erase(pos, n)]; [n] is clipped at the end of the string. *)
Definition erase (s : cstring) (pos n : nat) : cstring :=
  firstn pos s ++ skipn (pos + n) s.

(** [s.erase(pos)]: everything from [pos] on. *)
Definition erase_from (s : cstring) (pos : nat) : cstring := firstn pos s.

(** [s.replace(pos, n, t)]. *)
Definition replace (s : cstring) (pos n : nat) (t : cstring) : cstring :=
  firstn pos s ++ t ++ skipn (pos + n) s.

(** [s.substr(pos, n)]. *)
Definition substr (s : cstring) (pos n : nat) : cstring :=
  firstn n (skipn pos s).

(** [s.back()] on a non-empty string. *)
Definition back (s : cstring) : option ascii :=
  match s with
  | [] => None
  | c :: r => Some (last r c)
  end.

(** [s.pop_back()]. *)
Definition pop_back (s : cstring) : cstring := removelast s.

Definition is_empty (s : cstring) : bool :=
  match s with [] => true | _ :: _ => false end.

End CString.

(* ===================================================================== *)
(** ** The OCR engine adapter *)
(* ===================================================================== *)

Module Adapter.
Import CString.

(** The set of [find_first_not_of] and [find_last_not_of]: space, tab,
    newline, carriage return, form feed, vertical tab. *)
Definition whitespace : cstring :=
  [" "%char; "009"%char; "010"%char; "013"%char; "012"%char; "011"%char].

(** The [punctuation] literal: . , ! ? * - | ` ' and the double quote. *)
Definition punctuation : cstring :=
  lit ".,!?*-|`'" ++ ["034"%char].

Definition two_spaces : cstring := lit "  ".
Definition one_space : cstring := lit " ".

(** *** src/src/OCRProcessor.cpp *)

(** The table of [replacements], in the order of the source. *)
Definition replacements : list (cstring * cstring) :=
  [ (lit "|", lit "l"); (lit "[", lit "l"); (lit "]", lit "l");
    (lit "`", lit "'"); (lit "''", ["034"%char]);
    (lit " - ", lit "-"); (lit " ,", lit ","); (lit " .", lit ".");
    (["092"%char], lit "l"); (lit "//", lit "l");
    (lit "0", lit "o"); (lit "1", lit "l"); (lit "5", lit "s") ].

(** The inner [while] of the replacement pass:
    [while ((pos = result.find(from, pos)) != npos)
       { result.replace(pos, from.length(), to); pos += to.length(); }] *)
Fixpoint replace_loop (fuel : nat) (from to result : cstring) (pos : nat)
  : cstring :=
  match fuel with
  | O => result
  | S fuel' =>
      match find from result pos with
      | None => result
      | Some p =>
          replace_loop fuel' from to
            (replace result p (length from) to) (p + length to)
      end
  end.

(** One entry of the table applied to [result], from [pos = 0]. Every turn
    of the loop moves [pos] past one more occurrence, so [length result + 1]
    turns are never used up (lemma [replace_loop_fuel]). *)
Definition apply_replacement (result : cstring) (r : cstring * cstring)
  : cstring :=
  replace_loop (S (length result)) (fst r) (snd r) result 0.

(** [for (const auto& replacement : replacements) ...] *)
Definition apply_replacements (result : cstring) : cstring :=
  fold_left apply_replacement replacements result.

(** [while (!result.empty() && punctuation.find(result[0]) != npos)
       result.erase(0, 1);] *)
Fixpoint trim_front (result : cstring) : cstring :=
  match result with
  | [] => []
  | c :: r => if mem c punctuation then trim_front r else result
  end.

(** [while (!result.empty() && punctuation.find(result.back()) != npos)
       result.pop_back();] *)
Fixpoint trim_back_loop (fuel : nat) (result : cstring) : cstring :=
  match fuel with
  | O => result
  | S fuel' =>
      match back result with
      | None => result
      | Some c =>
          if mem c punctuation then trim_back_loop fuel' (pop_back result)
          else result
      end
  end.

(** Each turn removes a character: [length result] turns are enough
    (lemma [trim_back_loop_spec]). *)
Definition trim_back (result : cstring) : cstring :=
  trim_back_loop (length result) result.

(** [size_t pos = 0;
     while ((pos = result.find(two_spaces, pos)) != npos)
       result.replace(pos, 2, one_space);] *)
Fixpoint collapse_loop (fuel : nat) (result : cstring) (pos : nat) : cstring :=
  match fuel with
  | O => result
  | S fuel' =>
      match find two_spaces result pos with
      | None => result
      | Some p => collapse_loop fuel' (replace result p 2 one_space) p
      end
  end.

(** Each turn shortens the string by one: [length result] turns are enough
    (lemma [collapse_loop_spec]). *)
Definition collapse_spaces (result : cstring) : cstring :=
  collapse_loop (length result) result 0.

(** [result.erase(0, result.find_first_not_of(ws));
     result.erase(result.find_last_not_of(ws) + 1);]
    With [npos] as the count the first call erases the whole string; in the
    second [npos + 1] wraps to 0. *)
Definition strip_erase (text : cstring) : cstring :=
  let result :=
    match find_first_not_of whitespace text with
    | None => erase text 0 (length text)
    | Some n => erase text 0 n
    end in
  match find_last_not_of whitespace result with
  | None => erase_from result 0
  | Some e => erase_from result (e + 1)
  end.

(** [OCRProcessor::postProcessText] of src/src/OCRProcessor.cpp. *)
Definition postProcessText (text : cstring) : cstring :=
  if is_empty text then []
  else
    let result := strip_erase text in
    if is_empty result then []
    else
      let result := apply_replacements result in
      let result :=
        if negb (is_empty result) then trim_back (trim_front result)
        else result in
      collapse_spaces result.

(** *** The second variant (the adapter with [ClearAdaptiveClassifier]) *)

Module V2.

(** [while ((pos = result.find(two_spaces, pos)) != npos)
       { result.replace(pos, 2, one_space); pos += 1; }] *)
Fixpoint collapse_loop (fuel : nat) (result : cstring) (pos : nat) : cstring :=
  match fuel with
  | O => result
  | S fuel' =>
      match find two_spaces result pos with
      | None => result
      | Some p => collapse_loop fuel' (replace result p 2 one_space) (p + 1)
      end
  end.

(** Enough turns again (lemma [V2_collapse_loop_fuel]). *)
Definition collapse_spaces (result : cstring) : cstring :=
  collapse_loop (length result) result 0.

(** [OCRProcessor::postProcessText] of the second variant:
    [start = find_first_not_of(ws); if (start == npos) return empty;
     end = find_last_not_of(ws); result = result.substr(start, end - start + 1);]
    Were [end] to be [npos], the count would wrap to a value past the end of
    the string and [substr] would keep everything from [start]. *)
Definition postProcessText (text : cstring) : cstring :=
  if is_empty text then []
  else
    match find_first_not_of whitespace text with
    | None => []
    | Some start =>
        let count :=
          match find_last_not_of whitespace text with
          | Some e => e - start + 1
          | None => length text
          end in
        collapse_spaces (substr text start count)
    end.

(** The same pass over the string itself: a pair of adjacent spaces becomes
    one space and the scan resumes after the pair. *)
Fixpoint shorten_runs (s : cstring) : cstring :=
  match s with
  | [] => []
  | c :: r =>
      match r with
      | d :: r' =>
          if starts_with two_spaces s then c :: shorten_runs r'
          else c :: shorten_runs r
      | [] => [c]
      end
  end.

End V2.

(** *** The image library and the recognizer

    Leptonica and Tesseract are outside the repository; the adapter reaches
    them through these calls. A null pointer is [None]. *)

Inductive recognized :=
| Threw                      (* a std::exception escapes the call *)
| NullText                   (* GetUTF8Text returns a null pointer *)
| Text (t : cstring).

Record Engine := {
  Pix : Type;
  pixReadMem : cstring -> option Pix;
  pixGetDepth : Pix -> Z;
  pixConvertTo8 : Pix -> option Pix;
  pixMedianFilter : Pix -> option Pix;
  pixThresholdToBinary : Pix -> option Pix;
  GetUTF8Text : Pix -> recognized
}.

Section Recognition.

Variable E : Engine.

(** [OCRProcessor::cleanImage]: null only when the bytes do not decode. *)
Definition cleanImage (imageData : cstring) : option (Pix E) :=
  match pixReadMem E imageData with
  | None => None
  | Some pix =>
      let processed :=
        if (pixGetDepth E pix =? 8)%Z then pix
        else match pixConvertTo8 E pix with
             | Some temp => temp
             | None => pix
             end in
      let processed :=
        match pixMedianFilter E processed with
        | Some denoised => denoised
        | None => processed
        end in
      let processed :=
        match pixThresholdToBinary E processed with
        | Some binary => binary
        | None => processed
        end in
      Some processed
  end.

(** [OCRProcessor::processImage]; every failure is the empty string. *)
Definition processImage (m_initialized : bool) (imageData : cstring)
  : cstring :=
  if negb m_initialized then []
  else if is_empty imageData then []
  else
    match cleanImage imageData with
    | None => []
    | Some cleanedImage =>
        match GetUTF8Text E cleanedImage with
        | Threw => []
        | NullText => postProcessText []
        | Text outText => postProcessText outText
        end
    end.

End Recognition.

(** *** The post-processing in the words of the specification

    These definitions follow the text of the specification, not the code;
    the properties below compare the two. *)

Module Spec.

(** Remove the leading characters that belong to [set]. *)
Fixpoint drop_leading (set s : cstring) : cstring :=
  match s with
  | [] => []
  | c :: r => if mem c set then drop_leading set r else s
  end.

(** Remove the trailing characters that belong to [set]. *)
Fixpoint drop_trailing (set s : cstring) : cstring :=
  match s with
  | [] => []
  | c :: r =>
      match drop_trailing set r with
      | [] => if mem c set then [] else [c]
      | r' => c :: r'
      end
  end.

(** Step 1: strip leading and trailing whitespace. *)
Definition strip (s : cstring) : cstring :=
  drop_trailing whitespace (drop_leading whitespace s).

Definition is_space (c : ascii) : bool := Ascii.eqb " "%char c.

(** Step 2: collapse every run of two or more spaces to a single space. *)
Fixpoint collapse (s : cstring) : cstring :=
  match s with
  | [] => []
  | c :: r =>
      match r with
      | d :: _ => if is_space c && is_space d then collapse r
                  else c :: collapse r
      | [] => [c]
      end
  end.

(** Step 3: trim leading and trailing characters of the punctuation set. *)
Definition trim (s : cstring) : cstring :=
  drop_trailing punctuation (drop_leading punctuation s).

(** Steps 1 to 4 of the specification, in its order. *)
Definition postprocess (s : cstring) : cstring :=
  trim (collapse (strip s)).

(** Replace the occurrences of [from] by [to], scanning from the left and
    resuming after each occurrence replaced; [skip] counts the characters of
    the current occurrence still to pass. *)
Fixpoint substitute_from (from to : cstring) (skip : nat) (s : cstring)
  : cstring :=
  match s with
  | [] => []
  | c :: r =>
      match skip with
      | S k => substitute_from from to k r
      | O =>
          if starts_with from s
          then to ++ substitute_from from to (length from - 1) r
          else c :: substitute_from from to 0 r
      end
  end.

Definition substitute (from to s : cstring) : cstring :=
  substitute_from from to 0 s.

(** The table of the code, one entry after the other. *)
Definition substitute_table (s : cstring) : cstring :=
  fold_left (fun acc r => substitute (fst r) (snd r) acc) replacements s.

(** What src/src/OCRProcessor.cpp computes, stage by stage. *)
Definition postprocess_with_table (s : cstring) : cstring :=
  collapse (trim (substitute_table (strip s))).

End Spec.

End Adapter.

(* ===================================================================== *)
(** ** Machine integers *)
(* ===================================================================== *)

Module MachineInt.
Open Scope Z_scope.

(** A value stored in an [int] (and the arithmetic of [std::atomic<int>]):
    two's complement on 32 bits. *)
Definition int_wrap (z : Z) : Z := (z + 2 ^ 31) mod 2 ^ 32 - 2 ^ 31.

(** A value stored in a [size_t]: 64 bits, unsigned. *)
Definition size_t_wrap (z : Z) : Z := z mod 2 ^ 64.

Definition INT_MAX : Z := 2 ^ 31 - 1.
Definition INT_MIN : Z := - 2 ^ 31.

End MachineInt.

(* ===================================================================== *)
(** ** Round-robin selection of a processor *)
(* ===================================================================== *)

Module RoundRobin.
Import MachineInt.
Open Scope Z_scope.

(** [m_nextProcessorIndex++] on a [std::atomic<int>]: the old value is the
    result, the stored value is the old one plus 1, wrapped. *)
Definition fetch_inc (counter : Z) : Z * Z := (counter, int_wrap (counter + 1)).

(** [int processorIndex = old % m_processors.size();]
    The left operand is converted to [size_t], the remainder is taken there
    and the result is converted back to [int]. *)
Definition processorIndex (old size : Z) : Z :=
  int_wrap (size_t_wrap old mod size).

(** The counter after [n] requests were dispatched. *)
Definition counter_after (n : nat) : Z :=
  Nat.iter n (fun c => snd (fetch_inc c)) 0.

(** [m_processors[processorIndex]]: the subscript is a [size_t]; outside the
    vector the behaviour is undefined ([None]). *)
Definition subscript (A : Type) (v : list A) (i : Z) : option A :=
  let u := size_t_wrap i in
  if u <? Z.of_nat (length v) then nth_error v (Z.to_nat u) else None.

End RoundRobin.

(* ===================================================================== *)
(** ** The thread pool *)
(* ===================================================================== *)

Module ThreadPool.
Import MachineInt.
Open Scope Z_scope.

Section Pool.

Variable T : Type.

(** [m_tasks] is a [std::queue]: it has no capacity. *)
Record Pool := {
  m_tasks : list T;
  m_activeTasks : Z
}.

Definition create : Pool := {| m_tasks := []; m_activeTasks := 0 |}.

(** [ThreadPool::enqueue]: push and count, then notify a worker. The call
    never waits. *)
Definition enqueue (task : T) (p : Pool) : Pool :=
  {| m_tasks := m_tasks p ++ [task];
     m_activeTasks := int_wrap (m_activeTasks p + 1) |}.

(** The worker takes [m_tasks.front()] once the queue is not empty. *)
Definition take (p : Pool) : option (T * Pool) :=
  match m_tasks p with
  | [] => None
  | task :: rest =>
      Some (task, {| m_tasks := rest; m_activeTasks := m_activeTasks p |})
  end.

(** After [task()] the worker decrements [m_activeTasks]. *)
Definition complete (p : Pool) : Pool :=
  {| m_tasks := m_tasks p; m_activeTasks := int_wrap (m_activeTasks p - 1) |}.

(** The predicate [waitAll] waits for. *)
Definition idle (p : Pool) : bool :=
  match m_tasks p with
  | [] => m_activeTasks p =? 0
  | _ :: _ => false
  end.

(** Clients only ever enqueue: the pool after a sequence of submissions
    during which no worker ran. *)
Definition submit_all (tasks : list T) : Pool :=
  fold_left (fun p task => enqueue task p) tasks create.

End Pool.

End ThreadPool.

(* ===================================================================== *)
(** ** The wire messages *)
(* ===================================================================== *)

Module ImageRequest.
Record t := {
  image_id : string;
  filename : string;
  image_data : CString.cstring
}.
End ImageRequest.

Module OCRResult.
Record t := {
  image_id : string;
  extracted_text : CString.cstring;
  success : bool;
  error_message : string
}.

(** A freshly constructed message: every field at its protobuf default. *)
Definition fresh : t :=
  {| image_id := ""; extracted_text := []; success := false;
     error_message := "" |}.

Definition set_image_id (v : string) (r : t) : t :=
  {| image_id := v; extracted_text := extracted_text r;
     success := success r; error_message := error_message r |}.

Definition set_extracted_text (v : CString.cstring) (r : t) : t :=
  {| image_id := image_id r; extracted_text := v;
     success := success r; error_message := error_message r |}.

Definition set_success (v : bool) (r : t) : t :=
  {| image_id := image_id r; extracted_text := extracted_text r;
     success := v; error_message := error_message r |}.

Definition set_error_message (v : string) (r : t) : t :=
  {| image_id := image_id r; extracted_text := extracted_text r;
     success := success r; error_message := v |}.
End OCRResult.

(* ===================================================================== *)
(** ** One session: OCRServiceImpl::ProcessImages *)
(* ===================================================================== *)

Module Session.
Import MachineInt CString.
Open Scope Z_scope.

(** One call of [ProcessImages] and the tasks it hands to the pool, as a
    transition system: the reader thread moves through the loop body, the
    workers take, process and write tasks in any order. These are the steps
    of one call as the code writes them, and no more: the byte counter, the
    round-robin counter and the pool belong to the whole server, other calls
    move them too, a task reaches its processor through a raw pointer, and
    the thread of [memoryCleanupTask] replaces the processors every 30
    seconds. The module [Live] below puts the calls of a server, its workers
    and that thread together, each call moving by the [step] of this
    module; what is said of the service is proved there. *)

(** [const size_t MAX_MEMORY_USAGE = 500 * 1024 * 1024;] *)
Definition MAX_MEMORY_USAGE : Z := 500 * 1024 * 1024.

(** [const int MAX_CONCURRENT_TASKS = 4;] *)
Definition MAX_CONCURRENT_TASKS : Z := 4.

(** [imageData.size()] *)
Definition size (r : ImageRequest.t) : Z :=
  Z.of_nat (length (ImageRequest.image_data r)).

(** An [OCRProcessor] of [m_processors]. *)
Record OCRProcessor := { m_initialized : bool }.

(** What the service was constructed with. *)
Record Config := {
  engine : Adapter.Engine;
  numThreads : nat;                       (* workers of [m_threadPool] *)
  m_processors : list OCRProcessor
}.

(** The closure handed to [m_threadPool.enqueue]: it captures the request
    fields and the processor pointer. *)
Record Task := {
  request : ImageRequest.t;
  processor : OCRProcessor
}.

(** Where the thread that runs [ProcessImages] stands. *)
Inductive reader_pc :=
| AtRead                              (* about to call [stream->Read] *)
| Throttled (r : ImageRequest.t)      (* past the memory check, in the
                                         [activeTasks] wait loop *)
| Draining                            (* in [m_threadPool.waitAll()] *)
| Returned.                           (* [return grpc::Status::OK] *)

Record State := {
  stream_in : list ImageRequest.t;        (* requests the client still sends *)
  stream_out : list (OCRResult.t * bool); (* every [stream->Write] call, in
                                             order, with what it returned *)
  reader : reader_pc;
  g_activeImageSize : Z;                  (* std::atomic<size_t> *)
  activeTasks : Z;                        (* std::atomic<int> *)
  m_nextProcessorIndex : Z;               (* std::atomic<int> *)
  m_threadPool : ThreadPool.Pool Task;
  processing : list Task;                 (* taken by a worker, inside
                                             [processImage] *)
  finishing : list OCRResult.t            (* counters released, result built,
                                             not yet written *)
}.

Definition initial (requests : list ImageRequest.t) : State :=
  {| stream_in := requests; stream_out := []; reader := AtRead;
     g_activeImageSize := 0; activeTasks := 0; m_nextProcessorIndex := 0;
     m_threadPool := ThreadPool.create Task;
     processing := []; finishing := [] |}.

(** The three results the code builds. *)

Definition memory_rejection (r : ImageRequest.t) : OCRResult.t :=
  OCRResult.set_error_message "Server memory limit exceeded"
    (OCRResult.set_success false
       (OCRResult.set_image_id (ImageRequest.image_id r) OCRResult.fresh)).

Definition empty_rejection (r : ImageRequest.t) : OCRResult.t :=
  OCRResult.set_error_message "Empty image data"
    (OCRResult.set_success false
       (OCRResult.set_image_id (ImageRequest.image_id r) OCRResult.fresh)).

(** The result a task builds from the text of [processImage]. *)
Definition task_result (imageId : string) (extractedText : cstring)
  : OCRResult.t :=
  let result :=
    OCRResult.set_success (negb (is_empty extractedText))
      (OCRResult.set_extracted_text extractedText
         (OCRResult.set_image_id imageId OCRResult.fresh)) in
  if is_empty extractedText
  then OCRResult.set_error_message "OCR failed to extract text" result
  else result.

(** The body of the task up to the write. *)
Definition run_task (E : Adapter.Engine) (t : Task) : OCRResult.t :=
  task_result (ImageRequest.image_id (request t))
    (Adapter.processImage E (m_initialized (processor t))
       (ImageRequest.image_data (request t))).

(** The [k]-th element of a list and the others. *)
Fixpoint pick (A : Type) (k : nat) (l : list A) : option (A * list A) :=
  match l, k with
  | [], _ => None
  | x :: l', O => Some (x, l')
  | x :: l', S k' =>
      match pick k' l' with
      | Some (y, rest) => Some (y, x :: rest)
      | None => None
      end
  end.

(** What can happen next. [Write] returns [false] once the transport is
    dead; the flag of an action is that return value. *)
Inductive action :=
| Read (write_ok : bool)     (* [stream->Read] and the memory check *)
| Hangup                     (* [stream->Read] fails: the client is gone *)
| Pass (write_ok : bool)     (* leave the wait loop: empty check, dispatch *)
| Take                       (* an idle worker pops the queue *)
| Process (k : nat)          (* [processImage] returns, counters released *)
| Emit (k : nat) (write_ok : bool)  (* the write under [m_streamMutex] *)
| Finish.                    (* [waitAll] returns *)

Section Steps.

Variable C : Config.

Definition with_reader (pc : reader_pc) (s : State) : State :=
  {| stream_in := stream_in s; stream_out := stream_out s; reader := pc;
     g_activeImageSize := g_activeImageSize s; activeTasks := activeTasks s;
     m_nextProcessorIndex := m_nextProcessorIndex s;
     m_threadPool := m_threadPool s;
     processing := processing s; finishing := finishing s |}.

(** [std::lock_guard lock(m_streamMutex); stream->Write(result);] *)
Definition write (result : OCRResult.t) (ok : bool) (s : State) : State :=
  {| stream_in := stream_in s;
     stream_out := stream_out s ++ [(result, ok)]; reader := reader s;
     g_activeImageSize := g_activeImageSize s; activeTasks := activeTasks s;
     m_nextProcessorIndex := m_nextProcessorIndex s;
     m_threadPool := m_threadPool s;
     processing := processing s; finishing := finishing s |}.

(** The head of the loop: [stream->Read(&request)], then
    [currentMemory = g_activeImageSize.load() + imageData.size()] and the
    comparison with [MAX_MEMORY_USAGE]. *)
Definition do_read (ok : bool) (s : State) : State :=
  match stream_in s with
  | [] => with_reader Draining s
  | r :: rest =>
      let s' :=
        {| stream_in := rest; stream_out := stream_out s; reader := AtRead;
           g_activeImageSize := g_activeImageSize s;
           activeTasks := activeTasks s;
           m_nextProcessorIndex := m_nextProcessorIndex s;
           m_threadPool := m_threadPool s;
           processing := processing s; finishing := finishing s |} in
      let currentMemory := size_t_wrap (g_activeImageSize s + size r) in
      if currentMemory >? MAX_MEMORY_USAGE
      then write (memory_rejection r) ok s'
      else with_reader (Throttled r) s'
  end.

(** The rest of the loop body, once [activeTasks < MAX_CONCURRENT_TASKS]:
    the empty check, the processor selection, the two increments and
    [enqueue]. *)
Definition do_pass (ok : bool) (r : ImageRequest.t) (s : State)
  : option State :=
  if activeTasks s >=? MAX_CONCURRENT_TASKS then None
  else if is_empty (ImageRequest.image_data r)
  then Some (write (empty_rejection r) ok (with_reader AtRead s))
  else
    let '(old, next) := RoundRobin.fetch_inc (m_nextProcessorIndex s) in
    let processorIndex :=
      RoundRobin.processorIndex old (Z.of_nat (length (m_processors C))) in
    match RoundRobin.subscript (m_processors C) processorIndex with
    | None => None
    | Some p =>
        Some {| stream_in := stream_in s; stream_out := stream_out s;
                reader := AtRead;
                g_activeImageSize :=
                  size_t_wrap (g_activeImageSize s + size r);
                activeTasks := int_wrap (activeTasks s + 1);
                m_nextProcessorIndex := next;
                m_threadPool :=
                  ThreadPool.enqueue {| request := r; processor := p |}
                    (m_threadPool s);
                processing := processing s; finishing := finishing s |}
    end.

(** A worker that is not running a task takes the front of the queue. *)
Definition do_take (s : State) : option State :=
  if (length (processing s) + length (finishing s) <? numThreads C)%nat
  then
    match ThreadPool.take (m_threadPool s) with
    | None => None
    | Some (t, pool') =>
        Some {| stream_in := stream_in s; stream_out := stream_out s;
                reader := reader s;
                g_activeImageSize := g_activeImageSize s;
                activeTasks := activeTasks s;
                m_nextProcessorIndex := m_nextProcessorIndex s;
                m_threadPool := pool';
                processing := processing s ++ [t];
                finishing := finishing s |}
    end
  else None.

(** [processImage] returned (or threw and was caught):
    [g_activeImageSize -= imageData.size(); activeTasks--;] and the result is
    built. *)
Definition do_process (k : nat) (s : State) : option State :=
  match pick k (processing s) with
  | None => None
  | Some (t, rest) =>
      Some {| stream_in := stream_in s; stream_out := stream_out s;
              reader := reader s;
              g_activeImageSize :=
                size_t_wrap (g_activeImageSize s - size (request t));
              activeTasks := int_wrap (activeTasks s - 1);
              m_nextProcessorIndex := m_nextProcessorIndex s;
              m_threadPool := m_threadPool s;
              processing := rest;
              finishing := finishing s ++ [run_task (engine C) t] |}
  end.

(** The write of a finished task; the worker then returns to the pool. *)
Definition do_emit (k : nat) (ok : bool) (s : State) : option State :=
  match pick k (finishing s) with
  | None => None
  | Some (result, rest) =>
      Some {| stream_in := stream_in s;
              stream_out := stream_out s ++ [(result, ok)];
              reader := reader s;
              g_activeImageSize := g_activeImageSize s;
              activeTasks := activeTasks s;
              m_nextProcessorIndex := m_nextProcessorIndex s;
              m_threadPool := ThreadPool.complete (m_threadPool s);
              processing := processing s; finishing := rest |}
  end.

Definition step (a : action) (s : State) : option State :=
  match a, reader s with
  | Read ok, AtRead => Some (do_read ok s)
  | Hangup, AtRead => Some (with_reader Draining s)
  | Pass ok, Throttled r => do_pass ok r s
  | Take, _ => do_take s
  | Process k, _ => do_process k s
  | Emit k ok, _ => do_emit k ok s
  | Finish, Draining =>
      if ThreadPool.idle (m_threadPool s)
      then Some (with_reader Returned s) else None
  | _, _ => None
  end.

(** A schedule is any sequence of enabled actions. *)
Fixpoint exec (sched : list action) (s : State) : option State :=
  match sched with
  | [] => Some s
  | a :: sched' =>
      match step a s with
      | Some s' => exec sched' s'
      | None => None
      end
  end.

Definition reachable (requests : list ImageRequest.t) (s : State) : Prop :=
  exists sched, exec sched (initial requests) = Some s.

End Steps.

(** *** What a session owes its client *)

(** How the reader loop disposed of a request it read. *)
Inductive handling :=
| MemoryRejected                         (* over [MAX_MEMORY_USAGE] *)
| EmptyRejected                          (* [imageData.empty()] *)
| Dispatched (p : OCRProcessor).         (* enqueued, bound to [p] *)

(** The one result that answers a request handled that way. *)
Definition respond (E : Adapter.Engine) (h : ImageRequest.t * handling)
  : OCRResult.t :=
  match snd h with
  | MemoryRejected => memory_rejection (fst h)
  | EmptyRejected => empty_rejection (fst h)
  | Dispatched p => run_task E {| request := fst h; processor := p |}
  end.

Definition rejected (h : handling) : bool :=
  match h with
  | Dispatched _ => false
  | _ => true
  end.

(** The request the reader holds between the memory check and the
    dispatch. *)
Definition held (pc : reader_pc) : list ImageRequest.t :=
  match pc with
  | Throttled r => [r]
  | _ => []
  end.

Definition held_bytes (pc : reader_pc) : Z :=
  match pc with
  | Throttled r => size r
  | _ => 0
  end.

(** The payload bytes of a list of tasks. *)
Definition payload (ts : list Task) : Z :=
  fold_right (fun t acc => size (request t) + acc) 0 ts.

(** A payload whose length a [size_t] sum with the counter cannot wrap. *)
Definition fits (r : ImageRequest.t) : Prop := size r < 2 ^ 63.

(** The constructor keeps the processors that initialised, at most one per
    worker, and throws when there is none; thread and processor counts are
    [int]-sized. *)
Definition well_formed (C : Config) : Prop :=
  m_processors C <> [] /\
  (length (m_processors C) <= numThreads C)%nat /\
  Z.of_nat (numThreads C) <= INT_MAX - MAX_CONCURRENT_TASKS.

(** The reader does not move while the workers run. *)
Definition reader_rests (s s' : State) : Prop :=
  reader s' = reader s /\ stream_in s' = stream_in s.

(** How far the reader is from the end of [ProcessImages]. *)
Definition distance (s : State) : nat :=
  match reader s with
  | AtRead => 2 * length (stream_in s) + 2
  | Throttled _ => 2 * length (stream_in s) + 3
  | Draining => 1
  | Returned => 0
  end.

(** What stays unread when the session returns: nothing, unless the reader
    had already stopped reading. *)
Definition unread_at_end (s : State) : list ImageRequest.t :=
  match reader s with
  | AtRead | Throttled _ => []
  | _ => stream_in s
  end.

(** The tasks of the session that are queued or inside [processImage]. *)
Definition unreleased (s : State) : list Task :=
  ThreadPool.m_tasks (m_threadPool s) ++ processing s.

(** What holds in every state a session can be in. *)
Record invariant (C : Config) (requests : list ImageRequest.t) (s : State)
  : Prop := {
  inv_active :
    activeTasks s = Z.of_nat (length (unreleased s));
  inv_throttle :
    activeTasks s <= MAX_CONCURRENT_TASKS;
  inv_pool :
    ThreadPool.m_activeTasks (m_threadPool s) =
    Z.of_nat (length (unreleased s) + length (finishing s));
  inv_workers :
    (length (processing s) + length (finishing s) <= numThreads C)%nat;
  inv_bytes :
    g_activeImageSize s = payload (unreleased s);
  inv_ceiling :
    g_activeImageSize s + held_bytes (reader s) <= MAX_MEMORY_USAGE;
  inv_fits :
    Forall fits (held (reader s) ++ stream_in s);
  inv_returned :
    reader s = Returned -> unreleased s = [] /\ finishing s = [];
  inv_history :
    exists served : list (ImageRequest.t * handling),
      requests = map fst served ++ held (reader s) ++ stream_in s /\
      Permutation
        (map fst (stream_out s) ++ finishing s ++
         map (run_task (engine C)) (unreleased s))
        (map (respond (engine C)) served)
}.

End Session.

(* ===================================================================== *)
(** ** Writes to the stream under m_streamMutex *)
(* ===================================================================== *)

Module Serializer.
Import CString.

(** The writes of the newer copy of OCRService.cpp, the one with the memory
    monitoring: every [stream->Write] of a session sits in a block that
    first constructs [std::lock_guard<std::mutex> lock(m_streamMutex)], the
    two rejections of the reader loop and the result of a task. A writer is
    the reader thread or a worker; the transport puts a message on the wire
    byte by byte. The older copy of the file writes with no lock; it is the
    module [Unlocked] below. *)

Inductive writer :=
| Outside (todo : list OCRResult.t)
    (* not in a write block; [todo] are the results it will still write *)
| Inside (unsent : cstring) (todo : list OCRResult.t).
    (* owns the lock, inside [Write]; [unsent] is the rest of the frame *)

Record State := {
  m_streamMutex : option nat;      (* the thread that owns the mutex *)
  writers : list writer;
  wire : cstring;                  (* the bytes sent so far *)
  started : list OCRResult.t       (* the messages whose write began, in
                                      the order the lock was taken *)
}.

Inductive action :=
| Lock (t : nat)        (* the lock_guard constructor returns *)
| Put (t : nat)         (* one more byte of the frame goes out *)
| Unlock (t : nat).     (* [Write] is over, the lock_guard is destroyed *)

Section Wire.

(** The framing of a message on the wire. *)
Variable encode : OCRResult.t -> cstring.

(** [writers[t] = w] *)
Fixpoint update (t : nat) (w : writer) (ws : list writer) : list writer :=
  match ws, t with
  | [], _ => []
  | _ :: ws', O => w :: ws'
  | w0 :: ws', S t' => w0 :: update t' w ws'
  end.

Definition step (a : action) (s : State) : option State :=
  match a with
  | Lock t =>
      match m_streamMutex s, nth_error (writers s) t with
      | None, Some (Outside (r :: todo)) =>
          Some {| m_streamMutex := Some t;
                  writers := update t (Inside (encode r) todo) (writers s);
                  wire := wire s; started := started s ++ [r] |}
      | _, _ => None
      end
  | Put t =>
      match nth_error (writers s) t with
      | Some (Inside (b :: unsent) todo) =>
          Some {| m_streamMutex := m_streamMutex s;
                  writers := update t (Inside unsent todo) (writers s);
                  wire := wire s ++ [b]; started := started s |}
      | _ => None
      end
  | Unlock t =>
      match nth_error (writers s) t with
      | Some (Inside [] todo) =>
          Some {| m_streamMutex := None;
                  writers := update t (Outside todo) (writers s);
                  wire := wire s; started := started s |}
      | _ => None
      end
  end.

Fixpoint exec (sched : list action) (s : State) : option State :=
  match sched with
  | [] => Some s
  | a :: sched' =>
      match step a s with
      | Some s' => exec sched' s'
      | None => None
      end
  end.

(** Each thread starts outside, with the results it is going to write. *)
Definition initial (todo : list (list OCRResult.t)) : State :=
  {| m_streamMutex := None; writers := map Outside todo; wire := [];
     started := [] |}.

(** The threads that are inside [Write]. *)
Fixpoint inside (ws : list writer) : nat :=
  match ws with
  | [] => 0
  | Outside _ :: ws' => inside ws'
  | Inside _ _ :: ws' => S (inside ws')
  end.

(** The unsent part of the frame that is on its way, if any. *)
Fixpoint in_flight (ws : list writer) : cstring :=
  match ws with
  | [] => []
  | Outside _ :: ws' => in_flight ws'
  | Inside unsent _ :: ws' => unsent ++ in_flight ws'
  end.

(** The wire holds whole frames, in the order their writers took the lock,
    followed by the part already sent of at most one more frame. *)
Definition framed (s : State) : Prop :=
  (m_streamMutex s = None -> inside (writers s) = 0) /\
  ((inside (writers s) = 0 /\ in_flight (writers s) = [] /\
    wire s = concat (map encode (started s))) \/
   (inside (writers s) = 1 /\
    exists done cur pre,
      started s = done ++ [cur] /\
      wire s = concat (map encode done) ++ pre /\
      pre ++ in_flight (writers s) = encode cur)).

End Wire.

End Serializer.

(* ===================================================================== *)
(** ** The command line of the server *)
(* ===================================================================== *)

Module Cli.
Open Scope string_scope.

Inductive outcome :=
| Serve (address : string) (numThreads : Z)
    (* [OCRServer server(address, numThreads); server.run();] *)
| Usage                      (* [--help]: the usage text, [return 0] *)
| Threw.                     (* [std::stoul] throws, nothing catches it *)

Section Main.

(** [std::stoul]; [None] when it throws. *)
Variable stoul : string -> option Z.

(** The [--port] branch: keep what is before the first colon. *)
Definition set_port (address port : string) : string :=
  match index 0 ":" address with
  | Some colonPos => substring 0 colonPos address ++ ":" ++ port
  | None => "0.0.0.0:" ++ port
  end.

(** The [for] loop over [argv[1..argc-1]]; a flag that takes a value consumes
    the next argument, and is skipped when it is the last one. *)
Fixpoint parse (args : list string) (address : string) (numThreads : Z)
  : outcome :=
  match args with
  | [] => Serve address numThreads
  | arg :: rest =>
      match rest with
      | value :: rest' =>
          if arg =? "--address" then
            parse rest' (value ++ ":50051") numThreads
          else if arg =? "--port" then
            parse rest' (set_port address value) numThreads
          else if arg =? "--threads" then
            match stoul value with
            | Some n => parse rest' address n
            | None => Threw
            end
          else if arg =? "--help" then Usage
          else parse rest address numThreads
      | [] =>
          if arg =? "--help" then Usage else Serve address numThreads
      end
  end.

(** [main], given [argv] without the program name. *)
Definition main (args : list string) : outcome :=
  parse args "0.0.0.0:50051" 4.

End Main.

End Cli.

(* ===================================================================== *)
(** ** Sample inputs *)
(* ===================================================================== *)

Module Samples.
Import CString Adapter Session.

(** A stand-in for the image library: an image is the bytes after the magic
    [PNG], and the recognizer reads them back as text. *)
Definition toy_engine : Engine :=
  {| Pix := cstring;
     pixReadMem := fun data =>
       if starts_with (lit "PNG") data then Some (skipn 3 data) else None;
     pixGetDepth := fun _ => 8%Z;
     pixConvertTo8 := fun pix => Some pix;
     pixMedianFilter := fun pix => Some pix;
     pixThresholdToBinary := fun pix => Some pix;
     GetUTF8Text := fun pix => Text pix |}.

Definition two_workers : Config :=
  {| engine := toy_engine; numThreads := 2;
     m_processors := [ {| m_initialized := true |};
                       {| m_initialized := true |} ] |}.

Definition hello : ImageRequest.t :=
  {| ImageRequest.image_id := "a"; ImageRequest.filename := "hello.png";
     ImageRequest.image_data := lit "PNGHello" |}.

Definition blank : ImageRequest.t :=
  {| ImageRequest.image_id := "b"; ImageRequest.filename := "blank.png";
     ImageRequest.image_data := [] |}.

Definition noise : ImageRequest.t :=
  {| ImageRequest.image_id := "c"; ImageRequest.filename := "noise.bin";
     ImageRequest.image_data := lit "not an image" |}.

Definition silent : ImageRequest.t :=
  {| ImageRequest.image_id := "d"; ImageRequest.filename := "white.png";
     ImageRequest.image_data := lit "PNG" |}.

Definition first_processor : OCRProcessor := {| m_initialized := true |}.

(** A state in which other sessions already hold more than the ceiling. *)
Definition crowded (requests : list ImageRequest.t) : State :=
  {| stream_in := requests; stream_out := []; reader := AtRead;
     g_activeImageSize := MAX_MEMORY_USAGE + 1; activeTasks := 0;
     m_nextProcessorIndex := 0;
     m_threadPool := ThreadPool.create Task;
     processing := []; finishing := [] |}.

(** A framing for the wire: the id of the result and a terminator. *)
Definition frame (r : OCRResult.t) : cstring :=
  lit (OCRResult.image_id r) ++ lit ";".

Definition result_a : OCRResult.t := task_result "a" (lit "Hello").
Definition result_b : OCRResult.t := empty_rejection blank.
Definition result_c : OCRResult.t := task_result "c" (lit "World").

End Samples.

(* ===================================================================== *)
(** ** Characters of the post-processing *)
(* ===================================================================== *)

Module Glyphs.
Import CString Adapter.

(** The one-character patterns of [replacements]: the vertical bar, the two
    brackets, the backquote, the backslash and the digits 0, 1 and 5. *)
Definition replaced : cstring :=
  lit "|[]`" ++ ["092"%char] ++ lit "015".

(** A character outside the whitespace set of the strip. *)
Definition visible (c : ascii) : bool := negb (mem c whitespace).

(** A list of entries applied one after the other, as the table is. *)
Definition substitute_entries (rs : list (cstring * cstring)) (s : cstring)
  : cstring :=
  fold_left (fun acc r => Spec.substitute (fst r) (snd r) acc) rs s.

(** Each entry of the table puts at most as many characters as it takes. *)
Definition shrinking (r : cstring * cstring) : Prop :=
  fst r <> [] /\ (length (snd r) <= length (fst r))%nat.

End Glyphs.

(* ===================================================================== *)
(** ** Construction of the service and the periodic clean-up *)
(* ===================================================================== *)

Module Service.
Import MachineInt Session.
Open Scope Z_scope.

(** [OCRProcessor::OCRProcessor() : m_initialized(false)] *)
Definition new_processor : OCRProcessor := {| m_initialized := false |}.

(** [OCRProcessor::initialize]: [Init] is what [TessBaseAPI::Init] returns,
    non-zero on failure; the result is the return value and the processor
    afterwards. *)
Definition initialize (Init : Z) (p : OCRProcessor) : bool * OCRProcessor :=
  if Init =? 0 then (true, {| m_initialized := true |}) else (false, p).

(** The loop of the constructor: a processor is kept when its [initialize]
    returns true. *)
Fixpoint create_processors (inits : list Z) : list OCRProcessor :=
  match inits with
  | [] => []
  | Init :: rest =>
      let (ok, processor) := initialize Init new_processor in
      if ok then processor :: create_processors rest
      else create_processors rest
  end.

(** [OCRServiceImpl::OCRServiceImpl(numThreads)]; [Init i] is the outcome of
    Tesseract's [Init] for the processor created at turn [i]. [None]: the
    constructor throws [Failed to initialize any OCR processors]. *)
Definition construct (E : Adapter.Engine) (numThreads : nat) (Init : nat -> Z)
  : option Config :=
  match create_processors (map Init (seq 0 numThreads)) with
  | [] => None
  | processors =>
      Some {| engine := E; numThreads := numThreads;
              m_processors := processors |}
  end.

(** One round of [memoryCleanupTask]: every slot of [m_processors] gets a
    new processor, whose [initialize] result is not looked at. *)
Definition memoryCleanup (Init : nat -> Z) (processors : list OCRProcessor)
  : list OCRProcessor :=
  map (fun i => snd (initialize (Init i) new_processor))
      (seq 0 (length processors)).

Definition after_cleanup (Init : nat -> Z) (C : Config) : Config :=
  {| engine := engine C; numThreads := numThreads C;
     m_processors := memoryCleanup Init (m_processors C) |}.

End Service.

(* ===================================================================== *)
(** ** The thread pool at work *)
(* ===================================================================== *)

Module PoolRun.
Import MachineInt.

(** The pool with its worker threads, as a transition system. A worker
    waits until [m_stop] is set or [m_tasks] is not empty; it returns when
    [m_stop] is set and the queue is empty, and otherwise takes the front of
    the queue, runs it and decrements [m_activeTasks]. The destructor sets
    [m_stop] and joins the workers; [enqueue] does not look at [m_stop]. *)

Section Run.

Variable T : Type.

Record State := {
  pool : ThreadPool.Pool T;
  m_stop : bool;
  inside : list T;        (* the tasks being run, one per busy worker *)
  workers : nat;          (* the worker threads that have not returned *)
  enqueued : list T;      (* history: every task given to [enqueue] *)
  started : list T;       (* history: every task taken by a worker *)
  finished : list T;      (* history: every task whose [task()] returned *)
  late : list T           (* history: the tasks enqueued after [m_stop] *)
}.

Inductive action :=
| Enqueue (task : T)
| Take                    (* an idle worker pops the queue *)
| Done (k : nat)          (* [task()] returns, [m_activeTasks--] *)
| Stop                    (* the destructor sets [m_stop] *)
| Exit.                   (* an idle worker sees [m_stop] and an empty queue *)

Definition initial (numThreads : nat) : State :=
  {| pool := ThreadPool.create T; m_stop := false; inside := [];
     workers := numThreads; enqueued := []; started := []; finished := [];
     late := [] |}.

Definition step (a : action) (s : State) : option State :=
  match a with
  | Enqueue task =>
      Some {| pool := ThreadPool.enqueue task (pool s); m_stop := m_stop s;
              inside := inside s; workers := workers s;
              enqueued := enqueued s ++ [task]; started := started s;
              finished := finished s;
              late := if m_stop s then late s ++ [task] else late s |}
  | Take =>
      if (length (inside s) <? workers s)%nat then
        match ThreadPool.take (pool s) with
        | Some (task, pool') =>
            Some {| pool := pool'; m_stop := m_stop s;
                    inside := inside s ++ [task]; workers := workers s;
                    enqueued := enqueued s; started := started s ++ [task];
                    finished := finished s; late := late s |}
        | None => None
        end
      else None
  | Done k =>
      match Session.pick k (inside s) with
      | Some (task, rest) =>
          Some {| pool := ThreadPool.complete (pool s); m_stop := m_stop s;
                  inside := rest; workers := workers s;
                  enqueued := enqueued s; started := started s;
                  finished := finished s ++ [task]; late := late s |}
      | None => None
      end
  | Stop =>
      Some {| pool := pool s; m_stop := true; inside := inside s;
              workers := workers s; enqueued := enqueued s;
              started := started s; finished := finished s;
              late := late s |}
  | Exit =>
      if m_stop s && (length (inside s) <? workers s)%nat then
        match ThreadPool.m_tasks (pool s) with
        | [] =>
            Some {| pool := pool s; m_stop := m_stop s; inside := inside s;
                    workers := pred (workers s); enqueued := enqueued s;
                    started := started s; finished := finished s;
                    late := late s |}
        | _ :: _ => None
        end
      else None
  end.

Fixpoint exec (sched : list action) (s : State) : option State :=
  match sched with
  | [] => Some s
  | a :: sched' =>
      match step a s with
      | Some s' => exec sched' s'
      | None => None
      end
  end.

(** What every state of a pool of [numThreads] workers satisfies. *)
Record invariant (numThreads : nat) (s : State) : Prop := {
  inv_fifo : started s ++ ThreadPool.m_tasks (pool s) = enqueued s;
  inv_started : Permutation (finished s ++ inside s) (started s);
  inv_busy : (length (inside s) <= workers s <= numThreads)%nat;
  inv_count :
    ThreadPool.m_activeTasks (pool s) =
    int_wrap (Z.of_nat (length (ThreadPool.m_tasks (pool s))
                        + length (inside s)));
  inv_stop : (workers s < numThreads)%nat -> m_stop s = true;
  inv_late : m_stop s = false -> late s = [];
  inv_left :
    (workers s < numThreads)%nat ->
    exists before, late s = before ++ ThreadPool.m_tasks (pool s)
}.

End Run.

End PoolRun.

(* ===================================================================== *)
(** ** The shape of a listening address *)
(* ===================================================================== *)

Module Address.
Open Scope string_scope.

(** What [address.find(':')] finds: a first colon, after a host that has
    none. *)
Definition has_colon (address : string) : Prop :=
  exists host tail,
    address = host ++ String ":" tail /\ index 0 ":" host = None.

End Address.

(* ===================================================================== *)
(** ** The results of the batch tool and their CSV file *)
(* ===================================================================== *)

Module Batch.
Import CString Adapter MachineInt.
Open Scope Z_scope.

Record OCRResult := {
  id : Z;
  filename : cstring;
  extractedText : cstring;
  processingTimeMs : Z
}.

(** [ResultsManager]: [results] and the atomic [nextId], 1 at first. *)
Record ResultsManager := {
  results : list OCRResult;
  nextId : Z
}.

Definition create : ResultsManager := {| results := []; nextId := 1 |}.

(** [ResultsManager::addResult], under the mutex: [result.id = nextId++]. *)
Definition addResult (name text : cstring) (timeMs : Z) (m : ResultsManager)
  : ResultsManager :=
  {| results := results m ++
                [ {| id := nextId m; filename := name; extractedText := text;
                     processingTimeMs := timeMs |} ];
     nextId := int_wrap (nextId m + 1) |}.

Definition quote : cstring := ["034"%char].
Definition two_quotes : cstring := ["034"%char; "034"%char].
Definition newline : cstring := ["010"%char].

(** The two loops of [saveToCSV] over [escapedText]: every quote is
    replaced by two and [pos] moves by 2, then every newline is replaced by
    a space and [pos] moves by 1. They are the loop of the replacement pass
    of [postProcessText], [pos] moving by the length of what was put in. *)
Definition escape (extractedText : cstring) : cstring :=
  let escapedText := apply_replacement extractedText (quote, two_quotes) in
  apply_replacement escapedText (newline, one_space).

Section Save.

(** What [operator<<] prints for an [int] or a [long long]. *)
Variable to_chars : Z -> cstring.

Definition header : cstring :=
  lit "ID,Filename,Extracted Text,Processing Time (ms)" ++ newline.

(** The body of the loop over [results]: one row of the file. *)
Definition row (result : OCRResult) : cstring :=
  to_chars (id result) ++ lit "," ++
  quote ++ filename result ++ quote ++ lit "," ++
  quote ++ escape (extractedText result) ++ quote ++ lit "," ++
  to_chars (processingTimeMs result) ++ newline.

(** [saveToCSV]: the contents of the file, or [None] when it cannot be
    opened and nothing is written. *)
Definition saveToCSV (is_open : bool) (m : ResultsManager) : option cstring :=
  if is_open then Some (header ++ flat_map row (results m)) else None.

End Save.

(** The manager after the workers have added [entries], in that order. *)
Definition add_all (entries : list (cstring * cstring * Z)) : ResultsManager :=
  fold_left (fun m e => addResult (fst (fst e)) (snd (fst e)) (snd e) m)
            entries create.

End Batch.

(* ===================================================================== *)
(** ** The send queue of the client *)
(* ===================================================================== *)

Module Client.

(** [sendImage] and [stop] are called from the GUI thread, one after the
    other; the writer thread ([processSendQueue]) runs beside them. The
    writer reads [m_running] at the head of its loop, outside the lock of the
    queue, and looks at the queue afterwards under the lock: these are two
    steps, and [stop] can fall between them. *)

(** Where the writer thread is. *)
Inductive writer_pc :=
| AtLoop                               (* at [while (m_running)] *)
| AtPop                                (* in the loop, before the queue lock *)
| Holding (request : ImageRequest.t)   (* popped, before [Write] *)
| Ended.                               (* out of the loop *)

Record State := {
  m_running : bool;
  m_connected : bool;
  m_sendQueue : list ImageRequest.t;
  writer : writer_pc;
  wire : list ImageRequest.t;       (* what [m_stream->Write] has sent *)
  accepted : list ImageRequest.t;   (* history: what [sendImage] queued *)
  lost : list ImageRequest.t        (* history: the request of a failed write *)
}.

(** The client after a [start] that got its stream. *)
Definition started : State :=
  {| m_running := true; m_connected := true; m_sendQueue := [];
     writer := AtLoop; wire := []; accepted := []; lost := [] |}.

Inductive action :=
| SendImage (request : ImageRequest.t)
| Stop                    (* [stop] clears [m_running] *)
| Test                    (* the writer evaluates [while (m_running)] *)
| Pop                     (* the writer looks at the queue, under the lock *)
| Write (success : bool). (* [m_stream->Write(request)] returns *)

Definition holding (s : State) : list ImageRequest.t :=
  match writer s with
  | Holding request => [request]
  | _ => []
  end.

Definition with_writer (pc : writer_pc) (s : State) : State :=
  {| m_running := m_running s; m_connected := m_connected s;
     m_sendQueue := m_sendQueue s; writer := pc; wire := wire s;
     accepted := accepted s; lost := lost s |}.

Definition step (a : action) (s : State) : option State :=
  match a with
  | SendImage request =>
      if m_running s then
        Some {| m_running := m_running s; m_connected := m_connected s;
                m_sendQueue := m_sendQueue s ++ [request];
                writer := writer s; wire := wire s;
                accepted := accepted s ++ [request]; lost := lost s |}
      else Some s
  | Stop =>
      Some {| m_running := false; m_connected := m_connected s;
              m_sendQueue := m_sendQueue s; writer := writer s;
              wire := wire s; accepted := accepted s; lost := lost s |}
  | Test =>
      match writer s with
      | AtLoop =>
          if m_running s then Some (with_writer AtPop s)
          else Some (with_writer Ended s)
      | _ => None
      end
  | Pop =>
      match writer s with
      | AtPop =>
          match m_sendQueue s with
          | [] => Some (with_writer AtLoop s)   (* nothing to send: sleep *)
          | request :: rest =>
              Some {| m_running := m_running s;
                      m_connected := m_connected s;
                      m_sendQueue := rest; writer := Holding request;
                      wire := wire s; accepted := accepted s;
                      lost := lost s |}
          end
      | _ => None
      end
  | Write success =>
      match writer s with
      | Holding request =>
          if success then
            Some {| m_running := m_running s; m_connected := m_connected s;
                    m_sendQueue := m_sendQueue s; writer := AtLoop;
                    wire := wire s ++ [request]; accepted := accepted s;
                    lost := lost s |}
          else
            Some {| m_running := m_running s; m_connected := false;
                    m_sendQueue := m_sendQueue s; writer := Ended;
                    wire := wire s; accepted := accepted s;
                    lost := lost s ++ [request] |}
      | _ => None
      end
  end.

Fixpoint exec (sched : list action) (s : State) : option State :=
  match sched with
  | [] => Some s
  | a :: sched' =>
      match step a s with
      | Some s' => exec sched' s'
      | None => None
      end
  end.

(** What every state of a started client satisfies. *)
Record invariant (s : State) : Prop := {
  inv_order : wire s ++ lost s ++ holding s ++ m_sendQueue s = accepted s;
  inv_lost : lost s <> [] -> writer s = Ended /\ m_connected s = false;
  inv_one : (length (lost s) <= 1)%nat
}.

(** What the writer may still send once [m_running] is cleared: the request
    it holds, or, when it is past the loop test, the head of the queue. *)
Definition committed (s : State) : list ImageRequest.t :=
  match writer s with
  | Holding request => [request]
  | AtPop => firstn 1 (m_sendQueue s)
  | _ => []
  end.

End Client.

(* ===================================================================== *)
(** ** The garbage test of the third variant *)
(* ===================================================================== *)

Module Garbage.
Import CString MachineInt.
Open Scope Z_scope.

Section Classes.

(** [std::isalpha], [std::isdigit] and [std::isspace] of the C locale. *)
Variables isalpha isdigit isspace : ascii -> bool.

Record Counts := {
  letterCount : Z;
  digitCount : Z;
  symbolCount : Z;
  consecutiveSymbols : Z;
  maxConsecutiveSymbols : Z
}.

Definition zero : Counts :=
  {| letterCount := 0; digitCount := 0; symbolCount := 0;
     consecutiveSymbols := 0; maxConsecutiveSymbols := 0 |}.

(** The body of [for (char c : text)]; the counters are [int]s. *)
Definition count_char (k : Counts) (c : ascii) : Counts :=
  if isalpha c then
    {| letterCount := int_wrap (letterCount k + 1);
       digitCount := digitCount k; symbolCount := symbolCount k;
       consecutiveSymbols := 0;
       maxConsecutiveSymbols := maxConsecutiveSymbols k |}
  else if isdigit c then
    {| letterCount := letterCount k;
       digitCount := int_wrap (digitCount k + 1);
       symbolCount := symbolCount k;
       consecutiveSymbols := 0;
       maxConsecutiveSymbols := maxConsecutiveSymbols k |}
  else if negb (isspace c) then
    let consecutive := int_wrap (consecutiveSymbols k + 1) in
    {| letterCount := letterCount k; digitCount := digitCount k;
       symbolCount := int_wrap (symbolCount k + 1);
       consecutiveSymbols := consecutive;
       maxConsecutiveSymbols := Z.max (maxConsecutiveSymbols k) consecutive |}
  else
    {| letterCount := letterCount k; digitCount := digitCount k;
       symbolCount := symbolCount k;
       consecutiveSymbols := 0;
       maxConsecutiveSymbols := maxConsecutiveSymbols k |}.

Definition count (text : cstring) : Counts :=
  fold_left count_char text zero.

(** [OCRProcessor::isLikelyGarbage] *)
Definition isLikelyGarbage (text : cstring) : bool :=
  if is_empty text || (100 <? Z.of_nat (length text)) then false
  else
    let k := count text in
    if symbolCount k >? int_wrap (letterCount k + digitCount k) then true
    else if maxConsecutiveSymbols k >=? 3 then true
    else if (Z.of_nat (length text) <? 5) && (symbolCount k >=? 2) then true
    else false.

(** Neither a letter, nor a digit, nor a space. *)
Definition symbol (c : ascii) : bool :=
  negb (isalpha c) && negb (isdigit c) && negb (isspace c).

(** The counters after at most [n] characters. *)
Record bounded (n : Z) (k : Counts) : Prop := {
  bounded_letters : 0 <= letterCount k;
  bounded_digits : 0 <= digitCount k;
  bounded_symbols : 0 <= symbolCount k;
  bounded_sum : letterCount k + digitCount k + symbolCount k <= n;
  bounded_run : 0 <= consecutiveSymbols k <= maxConsecutiveSymbols k;
  bounded_max : maxConsecutiveSymbols k <= n
}.

End Classes.

End Garbage.

(* ===================================================================== *)
(** ** The restart loop of the server *)
(* ===================================================================== *)

Module Server.
Import MachineInt Session.
Open Scope Z_scope.

Definition MAX_RESTARTS : Z := 3.

Inductive outcome :=
| Served (attempt : nat) (C : Config)
    (* the server was up at this attempt, until the signal *)
| GaveUp (attempts : nat).
    (* [Maximum restart attempts reached] *)

Section Run.

Variable E : Adapter.Engine.
Variable numThreads : nat.

(** What the environment does at each pass through the [try] block:
    Tesseract's [Init] for each processor, and whether [BuildAndStart]
    returns a server. *)
Variable Init : nat -> nat -> Z.
Variable built : nat -> bool.

(** The [try] block up to the wait for the signal; [None]: the constructor
    of the service threw, or [m_server] was null and [run] threw. *)
Definition start (attempt : nat) : option Config :=
  match Service.construct E numThreads (Init attempt) with
  | None => None
  | Some C => if built attempt then Some C else None
  end.

(** [while (restartCount < MAX_RESTARTS)]: [attempt] counts the passes. A
    pass that gets the server up waits for the signal, shuts down and leaves
    the loop; a pass that throws counts one restart. *)
Fixpoint run_loop (fuel : nat) (restartCount : Z) (attempt : nat)
  : option outcome :=
  match fuel with
  | O => None
  | S fuel' =>
      if restartCount <? MAX_RESTARTS then
        match start attempt with
        | Some C => Some (Served attempt C)
        | None =>
            let restartCount' := int_wrap (restartCount + 1) in
            if restartCount' <? MAX_RESTARTS
            then run_loop fuel' restartCount' (S attempt)
            else Some (GaveUp (S attempt))
        end
      else Some (GaveUp attempt)
  end.

(** [OCRServer::run]; three turns of the loop are enough. *)
Definition run : option outcome := run_loop 3 0 0.

End Run.

End Server.

(* ===================================================================== *)
(** ** Writes to the stream without the mutex *)
(* ===================================================================== *)

Module Unlocked.
Import CString.

(** The [ProcessImages] of the older copy of OCRService.cpp: its task calls
    [stream->Write(result)] with no lock around it, and its reader loop
    writes nothing. A worker enters [Write] whenever it has a result; the
    transport puts the bytes of a message on the wire one by one, as in
    [Serializer]. *)

Record State := {
  writers : list Serializer.writer;
  wire : cstring;                  (* the bytes sent so far *)
  started : list OCRResult.t       (* the messages whose write began *)
}.

Inductive action :=
| Enter (t : nat)       (* [stream->Write(result)] is called *)
| Put (t : nat)         (* one more byte of the frame goes out *)
| Leave (t : nat).      (* [Write] returns *)

Section Wire.

Variable encode : OCRResult.t -> cstring.

Definition step (a : action) (s : State) : option State :=
  match a with
  | Enter t =>
      match nth_error (writers s) t with
      | Some (Serializer.Outside (r :: todo)) =>
          Some {| writers :=
                    Serializer.update t (Serializer.Inside (encode r) todo)
                      (writers s);
                  wire := wire s; started := started s ++ [r] |}
      | _ => None
      end
  | Put t =>
      match nth_error (writers s) t with
      | Some (Serializer.Inside (b :: unsent) todo) =>
          Some {| writers :=
                    Serializer.update t (Serializer.Inside unsent todo)
                      (writers s);
                  wire := wire s ++ [b]; started := started s |}
      | _ => None
      end
  | Leave t =>
      match nth_error (writers s) t with
      | Some (Serializer.Inside [] todo) =>
          Some {| writers :=
                    Serializer.update t (Serializer.Outside todo) (writers s);
                  wire := wire s; started := started s |}
      | _ => None
      end
  end.

Fixpoint exec (sched : list action) (s : State) : option State :=
  match sched with
  | [] => Some s
  | a :: sched' =>
      match step a s with
      | Some s' => exec sched' s'
      | None => None
      end
  end.

Definition initial (todo : list (list OCRResult.t)) : State :=
  {| writers := map Serializer.Outside todo; wire := []; started := [] |}.

End Wire.

End Unlocked.

(* ===================================================================== *)
(** ** The service with all its threads *)
(* ===================================================================== *)

Module Live.
Import MachineInt CString.
Open Scope Z_scope.

(** The service as it runs: any number of calls of [ProcessImages], each
    on its own thread, the workers of the one pool, and the thread of
    [memoryCleanupTask]. A call is a [Session.State] and moves by
    [Session.step]; what the calls share, the byte counter (a file-scope
    global) and the round-robin counter (a member of the service), is kept
    once and put into the state of a call before each of its steps. The
    vector [m_processors] changes when a clean-up round replaces its
    elements; a task holds a raw pointer to the element it was given. *)

(** The object a task's [processor] points to: the slot of [m_processors]
    and the clean-up round that made it (0: the constructor). *)
Record Pointer := { slot : nat; made : nat }.

Definition same (p q : Pointer) : bool :=
  (slot p =? slot q)%nat && (made p =? made q)%nat.

Record Call := {
  view : Session.State;
  queued_at : list Pointer;    (* for the tasks of the call in the queue *)
  running_at : list Pointer    (* for its tasks inside [processImage] *)
}.

Record State := {
  g_activeImageSize : Z;                    (* std::atomic<size_t>, global *)
  m_nextProcessorIndex : Z;                 (* std::atomic<int> *)
  m_processors : list Session.OCRProcessor;
  rounds : nat;                             (* clean-up rounds so far *)
  calls : list Call;
  fifo : list nat     (* the call of each task in [m_tasks], oldest first;
                         each call keeps its own tasks, in that order, and
                         its share of [m_activeTasks] *)
}.

(** Where C++ gives the program no meaning. *)
Inductive fault :=
| UseAfterFree      (* [processor->processImage] on a deleted processor *)
| DeletedInUse      (* a processor is deleted while [processImage] runs on it *)
| SharedProcessor.  (* two workers inside [processImage] of one processor *)

Inductive result :=
| Next (G : State)
| Disabled
| Undefined (f : fault).

Inductive action :=
| Act (i : nat) (a : Session.action)   (* a step of call [i] or of a worker
                                          on one of its tasks *)
| Cleanup (Init : nat -> Z).           (* one round of [memoryCleanupTask];
                                          [Init] is Tesseract's answer *)

Fixpoint update (A : Type) (i : nat) (x : A) (l : list A) : list A :=
  match l, i with
  | [], _ => []
  | _ :: l', O => x :: l'
  | y :: l', S i' => y :: update i' x l'
  end.

Section Steps.

Variable E : Adapter.Engine.
Variable numThreads : nat.

Definition config (G : State) : Session.Config :=
  {| Session.engine := E; Session.numThreads := numThreads;
     Session.m_processors := m_processors G |}.

(** The state of a call with the shared counters as they are now. *)
Definition install (G : State) (s : Session.State) : Session.State :=
  {| Session.stream_in := Session.stream_in s;
     Session.stream_out := Session.stream_out s;
     Session.reader := Session.reader s;
     Session.g_activeImageSize := g_activeImageSize G;
     Session.activeTasks := Session.activeTasks s;
     Session.m_nextProcessorIndex := m_nextProcessorIndex G;
     Session.m_threadPool := Session.m_threadPool s;
     Session.processing := Session.processing s;
     Session.finishing := Session.finishing s |}.

(** The service after call [i] has moved to [c]. *)
Definition put (i : nat) (c : Call) (queue : list nat) (G : State) : State :=
  {| g_activeImageSize := Session.g_activeImageSize (view c);
     m_nextProcessorIndex := Session.m_nextProcessorIndex (view c);
     m_processors := m_processors G; rounds := rounds G;
     calls := update i c (calls G); fifo := queue |}.

(** The workers that are not waiting for a task. *)
Definition busy (G : State) : nat :=
  fold_right
    (fun c n => (length (Session.processing (view c))
                 + length (Session.finishing (view c)) + n)%nat)
    0%nat (calls G).

(** A worker is inside [processImage] of the object [p]. *)
Definition in_use (p : Pointer) (G : State) : bool :=
  existsb (fun c => existsb (same p) (running_at c)) (calls G).

Definition someone_running (G : State) : bool :=
  existsb (fun c => match running_at c with [] => false | _ => true end)
          (calls G).

(** The predicate of [waitAll]: the one queue is empty and no task of any
    call is unfinished. *)
Definition all_idle (G : State) : bool :=
  forallb (fun c => ThreadPool.idle (Session.m_threadPool (view c)))
          (calls G).

(** [m_processors[processorIndex].get()] at the next dispatch. *)
Definition selected (G : State) : Pointer :=
  {| slot :=
       Z.to_nat (RoundRobin.processorIndex (m_nextProcessorIndex G)
                   (Z.of_nat (length (m_processors G))));
     made := rounds G |}.

Definition queued (s : Session.State) : nat :=
  length (ThreadPool.m_tasks (Session.m_threadPool s)).

Definition act (i : nat) (a : Session.action) (G : State) : result :=
  match nth_error (calls G) i with
  | None => Disabled
  | Some c =>
      let s := install G (view c) in
      match a with
      | Session.Take =>
          (* an idle worker pops the one queue and calls the task, which
             begins with [processor->processImage] *)
          match fifo G, queued_at c with
          | j :: later, p :: ps =>
              if negb (j =? i)%nat then Disabled
              else if negb (busy G <? numThreads)%nat then Disabled
              else if (made p <? rounds G)%nat then Undefined UseAfterFree
              else if in_use p G then Undefined SharedProcessor
              else
                match Session.step (config G) Session.Take s with
                | Some s' =>
                    Next (put i {| view := s'; queued_at := ps;
                                   running_at := running_at c ++ [p] |}
                              later G)
                | None => Disabled
                end
          | _, _ => Disabled
          end
      | Session.Process k =>
          match Session.step (config G) (Session.Process k) s,
                Session.pick k (running_at c) with
          | Some s', Some (_, ps) =>
              Next (put i {| view := s'; queued_at := queued_at c;
                             running_at := ps |} (fifo G) G)
          | _, _ => Disabled
          end
      | Session.Pass ok =>
          match Session.step (config G) (Session.Pass ok) s with
          | Some s' =>
              if (queued s <? queued s')%nat
              then (* a task was enqueued: it captured [selected G] *)
                Next (put i {| view := s';
                               queued_at := queued_at c ++ [selected G];
                               running_at := running_at c |}
                          (fifo G ++ [i]) G)
              else
                Next (put i {| view := s'; queued_at := queued_at c;
                               running_at := running_at c |} (fifo G) G)
          | None => Disabled
          end
      | Session.Finish =>
          if all_idle G then
            match Session.step (config G) Session.Finish s with
            | Some s' =>
                Next (put i {| view := s'; queued_at := queued_at c;
                               running_at := running_at c |} (fifo G) G)
            | None => Disabled
            end
          else Disabled
      | _ =>
          match Session.step (config G) a s with
          | Some s' =>
              Next (put i {| view := s'; queued_at := queued_at c;
                             running_at := running_at c |} (fifo G) G)
          | None => Disabled
          end
      end
  end.

(** One round of [memoryCleanupTask]: every element of [m_processors] is
    assigned a new processor, which deletes the old one. Nothing holds the
    round back, no lock and no look at the tasks; it has no meaning when a
    worker is inside [processImage] of a processor it deletes. A round is
    one step here: that its writes to the elements can also fall into the
    read of an element by a dispatch is not looked at. *)
Definition cleanup (Init : nat -> Z) (G : State) : result :=
  if someone_running G then Undefined DeletedInUse
  else
    Next {| g_activeImageSize := g_activeImageSize G;
            m_nextProcessorIndex := m_nextProcessorIndex G;
            m_processors := Service.memoryCleanup Init (m_processors G);
            rounds := S (rounds G);
            calls := calls G; fifo := fifo G |}.

Definition step (a : action) (G : State) : result :=
  match a with
  | Act i a' => act i a' G
  | Cleanup Init => cleanup Init G
  end.

(** A run stops at the first step that is not enabled or has no meaning. *)
Fixpoint exec (sched : list action) (G : State) : result :=
  match sched with
  | [] => Next G
  | a :: sched' =>
      match step a G with
      | Next G' => exec sched' G'
      | r => r
      end
  end.

End Steps.

(** The service after its constructor, with the calls that clients will
    make; a call that has not moved yet is one that has not begun. *)
Definition initial (processors : list Session.OCRProcessor)
    (requests : list (list ImageRequest.t)) : State :=
  {| g_activeImageSize := 0; m_nextProcessorIndex := 0;
     m_processors := processors; rounds := 0%nat;
     calls := map (fun rs => {| view := Session.initial rs; queued_at := [];
                                running_at := [] |}) requests;
     fifo := [] |}.

(** The bytes of the dispatched tasks, of all calls, that have not released
    them yet. *)
Definition in_flight (G : State) : Z :=
  fold_right
    (fun c n => Session.payload (Session.unreleased (view c)) + n)
    0 (calls G).

(** What a call keeps true whatever the other threads do. *)
Record call_invariant (E : Adapter.Engine) (numThreads : nat)
    (requests : list ImageRequest.t) (s : Session.State) : Prop := {
  inv_active :
    Session.activeTasks s = Z.of_nat (length (Session.unreleased s));
  inv_throttle :
    Session.activeTasks s <= Session.MAX_CONCURRENT_TASKS;
  inv_pool :
    ThreadPool.m_activeTasks (Session.m_threadPool s) =
    Z.of_nat (length (Session.unreleased s)
              + length (Session.finishing s));
  inv_workers :
    (length (Session.processing s) + length (Session.finishing s)
     <= numThreads)%nat;
  inv_returned :
    Session.reader s = Session.Returned ->
    Session.unreleased s = [] /\ Session.finishing s = [];
  inv_history :
    exists served : list (ImageRequest.t * Session.handling),
      requests = map fst served ++ Session.held (Session.reader s)
                 ++ Session.stream_in s /\
      Permutation
        (map fst (Session.stream_out s) ++ Session.finishing s ++
         map (Session.run_task E) (Session.unreleased s))
        (map (Session.respond E) served)
}.

(** What holds in every state the service reaches without a fault. *)
Record invariant (E : Adapter.Engine) (numThreads : nat)
    (requests : list (list ImageRequest.t)) (G : State) : Prop := {
  inv_calls :
    Forall2 (fun rs c => call_invariant E numThreads rs (view c))
            requests (calls G);
  inv_counter : g_activeImageSize G = size_t_wrap (in_flight G);
  inv_vector :
    m_processors G <> [] /\
    (length (m_processors G) <= numThreads)%nat
}.

(** A call between two requests, with none of its tasks in the pool. *)
Definition resting (requests : list ImageRequest.t)
    (written : list (OCRResult.t * bool)) (g idx : Z) : Session.State :=
  {| Session.stream_in := requests; Session.stream_out := written;
     Session.reader := Session.AtRead; Session.g_activeImageSize := g;
     Session.activeTasks := 0; Session.m_nextProcessorIndex := idx;
     Session.m_threadPool := ThreadPool.create Session.Task;
     Session.processing := []; Session.finishing := [] |}.

(** The service with one call. *)
Definition single (processors : list Session.OCRProcessor) (k : nat)
    (g idx : Z) (s : Session.State) (qa ra : list Pointer) (queue : list nat)
  : State :=
  {| g_activeImageSize := g; m_nextProcessorIndex := idx;
     m_processors := processors; rounds := k;
     calls := [ {| view := s; queued_at := qa; running_at := ra |} ];
     fifo := queue |}.

(** The service with one call and nothing in flight. *)
Definition lone (processors : list Session.OCRProcessor) (k : nat) (idx : Z)
    (s : Session.State) : State :=
  single processors k 0 idx s [] [] [].

(** The schedule that serves one request of a call that is alone, start to
    end, before the next is read. *)
Definition serve_one (r : ImageRequest.t) : list Session.action :=
  if Session.size r >? Session.MAX_MEMORY_USAGE
  then [Session.Read true]
  else if is_empty (ImageRequest.image_data r)
  then [Session.Read true; Session.Pass true]
  else [Session.Read true; Session.Pass true; Session.Take;
        Session.Process 0; Session.Emit 0 true].

Definition serve (requests : list ImageRequest.t) : list action :=
  map (Act 0)
      (flat_map serve_one requests ++ [Session.Read true; Session.Finish]).

End Live.

(* ===================================================================== *)
(** * Runs of the service used below *)
(* ===================================================================== *)

Module Runs.
Import CString.
Open Scope Z_scope.

(** The service of [Samples.two_workers], two workers and two processors,
    with the calls of the given clients. *)
Definition service (requests : list (list ImageRequest.t)) : Live.State :=
  Live.initial (Session.m_processors Samples.two_workers) requests.

Definition run (sched : list Live.action)
    (requests : list (list ImageRequest.t)) : Live.result :=
  Live.exec Samples.toy_engine 2 sched (service requests).

(** A round of clean-up in which Tesseract initialises. *)
Definition round : Live.action := Live.Cleanup (fun _ => 0).

(** One image is read and dispatched. *)
Definition dispatched : list Live.action :=
  [ Live.Act 0 (Session.Read true); Live.Act 0 (Session.Pass true) ].

(** One image is dispatched; the clean-up round comes while its task waits
    in the queue; a worker then takes the task. *)
Definition stale_pointer : list Live.action :=
  [ Live.Act 0 (Session.Read true); Live.Act 0 (Session.Pass true);
    round; Live.Act 0 Session.Take ].

(** One image is dispatched and a worker is inside [processImage] when the
    clean-up round comes. *)
Definition deleted_in_use : list Live.action :=
  [ Live.Act 0 (Session.Read true); Live.Act 0 (Session.Pass true);
    Live.Act 0 Session.Take; round ].

(** Three images of one client, bound to processors 0, 1 and 0. The two
    workers take the first two; the second is finished and written while the
    first is still inside [processImage]; its worker takes the third. *)
Definition shared_processor : list Live.action :=
  [ Live.Act 0 (Session.Read true); Live.Act 0 (Session.Pass true);
    Live.Act 0 (Session.Read true); Live.Act 0 (Session.Pass true);
    Live.Act 0 (Session.Read true); Live.Act 0 (Session.Pass true);
    Live.Act 0 Session.Take; Live.Act 0 Session.Take;
    Live.Act 0 (Session.Process 1); Live.Act 0 (Session.Emit 0 true);
    Live.Act 0 Session.Take ].

(** Two clients with one image each. The first is served to the end and its
    call has read the end of its stream; the second has been dispatched. *)
Definition second_client_pending : list Live.action :=
  [ Live.Act 0 (Session.Read true); Live.Act 0 (Session.Pass true);
    Live.Act 0 Session.Take; Live.Act 0 (Session.Process 0);
    Live.Act 0 (Session.Emit 0 true); Live.Act 0 (Session.Read true);
    Live.Act 1 (Session.Read true); Live.Act 1 (Session.Pass true) ].

End Runs.

(* ===================================================================== *)
(** * Properties *)
(* ===================================================================== *)

(** ** Machine integers and the round-robin index *)

Section RoundRobinFacts.
Import MachineInt RoundRobin.
Open Scope Z_scope.

Lemma int_wrap_range z : INT_MIN <= int_wrap z <= INT_MAX.
Proof.
  unfold int_wrap, INT_MIN, INT_MAX.
  pose proof (Z.mod_pos_bound (z + 2 ^ 31) (2 ^ 32) ltac:(lia)). lia.
Qed.

Lemma int_wrap_id z : INT_MIN <= z <= INT_MAX -> int_wrap z = z.
Proof.
  unfold int_wrap, INT_MIN, INT_MAX. intros H.
  rewrite Z.mod_small by lia. lia.
Qed.

Lemma int_wrap_succ z : int_wrap (int_wrap z + 1) = int_wrap (z + 1).
Proof.
  unfold int_wrap.
  replace ((z + 2 ^ 31) mod 2 ^ 32 - 2 ^ 31 + 1 + 2 ^ 31)
    with ((z + 2 ^ 31) mod 2 ^ 32 + 1) by lia.
  replace (z + 1 + 2 ^ 31) with ((z + 2 ^ 31) + 1) by lia.
  rewrite Z.add_mod_idemp_l by lia. reflexivity.
Qed.

Lemma size_t_wrap_range z : 0 <= size_t_wrap z < 2 ^ 64.
Proof. unfold size_t_wrap. apply Z.mod_pos_bound. lia. Qed.

Lemma size_t_wrap_id z : 0 <= z < 2 ^ 64 -> size_t_wrap z = z.
Proof. unfold size_t_wrap. intros. apply Z.mod_small. lia. Qed.

(** The stored counter is the number of dispatches, wrapped to [int]. *)
Lemma counter_after_closed n : counter_after n = int_wrap (Z.of_nat n).
Proof.
  unfold counter_after. induction n as [|n IH].
  - reflexivity.
  - rewrite Nat2Z.inj_succ, Nat.iter_succ, IH. unfold fetch_inc, snd.
    apply int_wrap_succ.
Qed.

Lemma counter_after_range n : INT_MIN <= counter_after n <= INT_MAX.
Proof. rewrite counter_after_closed. apply int_wrap_range. Qed.

(** After 2^31 dispatches the counter is negative. *)
Lemma counter_after_overflow : counter_after (Z.to_nat (2 ^ 31)) = INT_MIN.
Proof.
  rewrite counter_after_closed, Z2Nat.id by lia. reflexivity.
Qed.

(** Whatever the counter holds, the index falls inside the vector. *)
Lemma processorIndex_range counter size :
  0 < size <= INT_MAX ->
  0 <= processorIndex counter size < size.
Proof.
  intros Hs. unfold processorIndex.
  pose proof (Z.mod_pos_bound (size_t_wrap counter) size ltac:(lia)) as Hm.
  rewrite int_wrap_id; [lia|]. unfold INT_MIN, INT_MAX in *. lia.
Qed.

Lemma subscript_in_bounds (A : Type) (v : list A) i :
  0 <= i < Z.of_nat (length v) -> exists x, subscript v i = Some x.
Proof.
  intros Hi. unfold subscript.
  assert (Hlen : Z.of_nat (length v) < 2 ^ 64 \/ 2 ^ 64 <= Z.of_nat (length v))
    by lia.
  destruct (Z_lt_ge_dec i (2 ^ 64)) as [Hlt|Hge].
  - rewrite size_t_wrap_id by lia.
    destruct (Z.ltb_spec i (Z.of_nat (length v))); [|lia].
    destruct (nth_error v (Z.to_nat i)) eqn:E; [eauto|].
    apply nth_error_None in E. lia.
  - pose proof (size_t_wrap_range i) as Hr.
    destruct (Z.ltb_spec (size_t_wrap i) (Z.of_nat (length v))); [|lia].
    destruct (nth_error v (Z.to_nat (size_t_wrap i))) eqn:E; [eauto|].
    apply nth_error_None in E. lia.
Qed.

(** C10. However many requests were dispatched before, the round-robin
    selection [m_nextProcessorIndex++ % m_processors.size()] yields an index
    in [0, number of processors), and [m_processors[processorIndex]] is an
    element of the vector; the wrap of the 32-bit counter does not change
    that. The vector is not empty (the constructor throws otherwise) and
    its size fits an [int]. *)
Theorem round_robin_index_in_bounds :
  forall (A : Type) (m_processors : list A) (dispatched : nat),
    m_processors <> [] ->
    Z.of_nat (length m_processors) <= INT_MAX ->
    let old := fst (fetch_inc (counter_after dispatched)) in
    let processorIndex := processorIndex old (Z.of_nat (length m_processors)) in
    0 <= processorIndex < Z.of_nat (length m_processors) /\
    exists p, subscript m_processors processorIndex = Some p.
Proof.
  intros A v n Hne Hmax. simpl.
  assert (Hpos : 0 < Z.of_nat (length v)).
  { destruct v; [congruence | simpl length; lia]. }
  pose proof (@processorIndex_range (counter_after n) (Z.of_nat (length v))
                ltac:(lia)) as Hr.
  split; [exact Hr | apply subscript_in_bounds; exact Hr].
Qed.

Lemma round_robin_index_in_bounds_witness :
  let v := [true; false; true] in
  let i := processorIndex (fst (fetch_inc (counter_after 5))) 3 in
  0 <= i < 3 /\ exists p, subscript v i = Some p.
Proof.
  apply (@round_robin_index_in_bounds bool [true; false; true] 5).
  - discriminate.
  - vm_compute. discriminate.
Defined.

End RoundRobinFacts.

(** ** The session *)

Section SessionFacts.
Import MachineInt CString Session.
Open Scope Z_scope.

Lemma size_nonneg r : 0 <= size r.
Proof. unfold size. lia. Qed.

Lemma payload_nonneg ts : 0 <= payload ts.
Proof.
  induction ts as [|t ts IH]; simpl; [lia|].
  pose proof (size_nonneg (request t)). lia.
Qed.

Lemma payload_app ts us : payload (ts ++ us) = payload ts + payload us.
Proof. induction ts as [|t ts IH]; simpl; lia. Qed.

Lemma pick_length (A : Type) k (l : list A) x rest :
  pick k l = Some (x, rest) -> length l = S (length rest).
Proof.
  revert k x rest. induction l as [|y l IH]; intros k x rest H.
  - destruct k; discriminate.
  - destruct k as [|k]; simpl in H.
    + inversion H; subst. reflexivity.
    + destruct (pick k l) as [[z r]|] eqn:E; [|discriminate].
      inversion H; subst. simpl. f_equal. eapply IH; eauto.
Qed.

Lemma pick_perm (A : Type) k (l : list A) x rest :
  pick k l = Some (x, rest) -> Permutation l (x :: rest).
Proof.
  revert k x rest. induction l as [|y l IH]; intros k x rest H.
  - destruct k; discriminate.
  - destruct k as [|k]; simpl in H.
    + inversion H; subst. reflexivity.
    + destruct (pick k l) as [[z r]|] eqn:E; [|discriminate].
      inversion H; subst. rewrite (IH _ _ _ E). apply perm_swap.
Qed.

Lemma pick_payload k ts t rest :
  pick k ts = Some (t, rest) -> payload ts = size (request t) + payload rest.
Proof.
  revert k t rest. induction ts as [|y l IH]; intros k x rest H.
  - destruct k; discriminate.
  - destruct k as [|k]; simpl in H.
    + inversion H; subst. reflexivity.
    + destruct (pick k l) as [[z r]|] eqn:E; [|discriminate].
      inversion H; subst. simpl. rewrite (IH _ _ _ E). lia.
Qed.

Lemma pick_head (A : Type) (x : A) l : pick 0 (x :: l) = Some (x, l).
Proof. reflexivity. Qed.

(** Moving one result from a later segment to the written ones, or adding
    the answer to a newly served request, keeps the bag of results. *)
Lemma perm_add_written (A : Type) (out rest hist : list A) x :
  Permutation (out ++ rest) hist ->
  Permutation ((out ++ [x]) ++ rest) (hist ++ [x]).
Proof.
  intros H. rewrite <- app_assoc. simpl.
  rewrite <- Permutation_middle. rewrite Permutation_cons_append.
  apply Permutation_app_tail. exact H.
Qed.

Lemma perm_served (E : Adapter.Engine) (out : list (OCRResult.t * bool)) ok x
    rest served h :
  respond E h = x ->
  Permutation (map fst out ++ rest) (map (respond E) served) ->
  Permutation (map fst (out ++ [(x, ok)]) ++ rest)
              (map (respond E) (served ++ [h])).
Proof.
  intros Hx H. rewrite !map_app. simpl map. rewrite Hx.
  apply perm_add_written. exact H.
Qed.

Lemma perm_dispatched (E : Adapter.Engine) (out fin : list OCRResult.t)
    queue proc t served h :
  respond E h = run_task E t ->
  Permutation (out ++ fin ++ map (run_task E) (queue ++ proc))
              (map (respond E) served) ->
  Permutation (out ++ fin ++ map (run_task E) ((queue ++ [t]) ++ proc))
              (map (respond E) (served ++ [h])).
Proof.
  intros Hh H. rewrite (map_app (respond E)).
  change (map (respond E) [h]) with [respond E h]. rewrite Hh.
  etransitivity; [|apply Permutation_app_tail; exact H].
  rewrite <- !app_assoc. do 2 apply Permutation_app_head.
  rewrite !map_app, <- app_assoc. apply Permutation_app_head.
  apply (Permutation_app_comm [run_task E t]).
Qed.

Section Preservation.

Variable C : Config.
Variable requests : list ImageRequest.t.
Hypothesis Hwf : well_formed C.

Lemma initial_invariant :
  Forall fits requests -> invariant C requests (initial requests).
Proof.
  intros Hf. constructor; simpl; try reflexivity; try (unfold MAX_MEMORY_USAGE, MAX_CONCURRENT_TASKS; lia).
  - exact Hf.
  - discriminate.
  - exists []. split; reflexivity.
Qed.

(** Open a state and its invariant into their components. *)
Ltac open_state s H :=
  destruct s as [sin sout pc g act idx [queue mact] proc fin];
  destruct H as [Ha Ht Hp Hw Hb Hc Hf Hr [served [Hreq Hperm]]];
  unfold unreleased in *; cbn [stream_in stream_out reader g_activeImageSize
    activeTasks m_nextProcessorIndex m_threadPool processing finishing
    ThreadPool.m_tasks ThreadPool.m_activeTasks] in *.

Ltac close_state :=
  constructor; unfold unreleased, MAX_MEMORY_USAGE, MAX_CONCURRENT_TASKS in *;
  cbn [stream_in stream_out reader g_activeImageSize
    activeTasks m_nextProcessorIndex m_threadPool processing finishing
    ThreadPool.m_tasks ThreadPool.m_activeTasks ThreadPool.enqueue
    ThreadPool.complete with_reader write held held_bytes].

Lemma read_invariant ok s :
  reader s = AtRead ->
  invariant C requests s -> invariant C requests (do_read ok s).
Proof.
  intros Hpc H. open_state s H. subst pc. unfold do_read.
  cbn [stream_in g_activeImageSize held held_bytes app] in *.
  destruct sin as [|r rest].
  - close_state; auto; try discriminate.
    exists served. split; assumption.
  - pose proof (payload_nonneg (queue ++ proc)) as Hnn.
    assert (Hfit : size r < 2 ^ 63) by (inversion Hf; assumption).
    pose proof (size_nonneg r) as Hsz.
    unfold MAX_MEMORY_USAGE in *.
    rewrite size_t_wrap_id by lia.
    destruct (Z.gtb_spec (g + size r) (500 * 1024 * 1024)).
    + close_state; auto; try discriminate.
      * inversion Hf; assumption.
      * exists (served ++ [(r, MemoryRejected)]). split.
        -- rewrite map_app. simpl. rewrite <- app_assoc. exact Hreq.
        -- apply perm_served; [reflexivity | exact Hperm].
    + close_state; auto; try discriminate; try lia.
      exists served. split; assumption.
Qed.

Lemma hangup_invariant s :
  reader s = AtRead ->
  invariant C requests s -> invariant C requests (with_reader Draining s).
Proof.
  intros Hpc H. open_state s H. subst pc.
  close_state; auto; try discriminate.
  exists served. split; assumption.
Qed.

Lemma pass_invariant ok r s s' :
  reader s = Throttled r ->
  do_pass C ok r s = Some s' ->
  invariant C requests s -> invariant C requests s'.
Proof.
  intros Hpc Hstep H. open_state s H. subst pc. unfold do_pass in Hstep.
  cbn [activeTasks m_nextProcessorIndex held held_bytes app
       g_activeImageSize] in *.
  unfold MAX_CONCURRENT_TASKS, MAX_MEMORY_USAGE in *.
  destruct (Z.geb_spec act 4) as [|Hlt]; [discriminate|].
  destruct (is_empty (ImageRequest.image_data r)) eqn:Hemp.
  - inversion Hstep; subst s'; clear Hstep.
    pose proof (size_nonneg r).
    close_state; cbn [app] in *; auto; try discriminate; try lia.
    + inversion Hf; assumption.
    + exists (served ++ [(r, EmptyRejected)]). split.
      * rewrite map_app. simpl. rewrite <- app_assoc. exact Hreq.
      * apply perm_served; [reflexivity | exact Hperm].
  - unfold RoundRobin.fetch_inc in Hstep.
    destruct (RoundRobin.subscript (m_processors C) _) as [p|];
      [|discriminate].
    inversion Hstep; subst s'; clear Hstep.
    pose proof (size_nonneg r) as Hsz.
    pose proof (payload_nonneg (queue ++ proc)) as Hnn.
    destruct Hwf as (_ & _ & Hnt). unfold INT_MAX, MAX_CONCURRENT_TASKS in Hnt.
    rewrite length_app in *.
    close_state; rewrite ?length_app; cbn [length];
      rewrite ?int_wrap_id by (unfold INT_MIN, INT_MAX; lia);
      rewrite ?size_t_wrap_id by lia; try lia.
    + rewrite !payload_app in *. simpl. lia.
    + inversion Hf; assumption.
    + discriminate.
    + exists (served ++ [(r, Dispatched p)]). split.
      * rewrite map_app. simpl. rewrite <- app_assoc. exact Hreq.
      * apply perm_dispatched; [reflexivity | exact Hperm].
Qed.

Lemma take_invariant s s' :
  do_take C s = Some s' ->
  invariant C requests s -> invariant C requests s'.
Proof.
  intros Hstep H. open_state s H. unfold do_take, ThreadPool.take in Hstep.
  cbn [processing finishing m_threadPool ThreadPool.m_tasks] in Hstep.
  destruct (Nat.ltb_spec (length proc + length fin) (numThreads C));
    [|discriminate].
  destruct queue as [|t queue]; [discriminate|].
  inversion Hstep; subst s'; clear Hstep.
  assert (Hq : Permutation (queue ++ proc ++ [t]) ((t :: queue) ++ proc)).
  { simpl. rewrite app_assoc. symmetry. apply Permutation_cons_append. }
  close_state; rewrite ?length_app in *; cbn [length] in *; try lia;
    try assumption.
  - rewrite Hb. rewrite !payload_app. simpl. lia.
  - intros Hret. destruct (Hr Hret) as [Hnil _]. discriminate.
  - exists served. split; [exact Hreq|].
    rewrite <- Hperm. do 2 apply Permutation_app_head.
    apply Permutation_map. exact Hq.
Qed.

Lemma process_invariant k s s' :
  do_process C k s = Some s' ->
  invariant C requests s -> invariant C requests s'.
Proof.
  intros Hstep H. open_state s H. unfold do_process in Hstep.
  cbn [processing] in Hstep.
  destruct (pick k proc) as [[t rest]|] eqn:Hpick; [|discriminate].
  inversion Hstep; subst s'; clear Hstep.
  pose proof (pick_length _ _ Hpick) as Hlen.
  pose proof (pick_payload _ _ Hpick) as Hpay.
  pose proof (pick_perm _ _ Hpick) as Hpp.
  pose proof (size_nonneg (request t)) as Hsz.
  pose proof (payload_nonneg rest) as Hnr.
  pose proof (payload_nonneg queue) as Hnq.
  assert (Hnh : 0 <= held_bytes pc).
  { destruct pc; simpl; try lia. apply size_nonneg. }
  rewrite payload_app in *.
  close_state; rewrite ?length_app in *; cbn [length] in *;
    rewrite ?int_wrap_id by (unfold INT_MIN, INT_MAX; lia);
    rewrite ?size_t_wrap_id by lia; try lia; try assumption.
  - rewrite payload_app. lia.
  - intros Hret. destruct (Hr Hret) as [Hnil _].
    apply app_eq_nil in Hnil. destruct Hnil as [_ Hnil]. subst proc.
    discriminate.
  - exists served. split; [exact Hreq|].
    rewrite <- Hperm. apply Permutation_app_head.
    rewrite <- app_assoc. apply Permutation_app_head.
    change ([run_task (engine C) t] ++
            map (run_task (engine C)) (queue ++ rest))
      with (map (run_task (engine C)) (t :: queue ++ rest)).
    apply Permutation_map. rewrite Hpp. apply Permutation_middle.
Qed.

Lemma emit_invariant k ok s s' :
  do_emit k ok s = Some s' ->
  invariant C requests s -> invariant C requests s'.
Proof.
  intros Hstep H. open_state s H. unfold do_emit in Hstep.
  cbn [finishing] in Hstep.
  destruct (pick k fin) as [[res rest]|] eqn:Hpick; [|discriminate].
  inversion Hstep; subst s'; clear Hstep.
  pose proof (pick_length _ _ Hpick) as Hlen.
  pose proof (pick_perm _ _ Hpick) as Hpp.
  destruct Hwf as (_ & _ & Hnt). unfold INT_MAX, MAX_CONCURRENT_TASKS in Hnt.
  close_state; rewrite ?length_app in *; cbn [length] in *;
    rewrite ?int_wrap_id by (unfold INT_MIN, INT_MAX; lia); try lia;
    try assumption.
  - intros Hret. destruct (Hr Hret) as [_ Hnil]. subst fin. discriminate.
  - exists served. split; [exact Hreq|].
    rewrite <- Hperm. rewrite map_app. simpl map. rewrite <- app_assoc.
    apply Permutation_app_head. simpl.
    rewrite (Permutation_app_tail _ Hpp). reflexivity.
Qed.

Lemma finish_invariant s :
  reader s = Draining ->
  ThreadPool.idle (m_threadPool s) = true ->
  invariant C requests s -> invariant C requests (with_reader Returned s).
Proof.
  intros Hpc Hidle H. open_state s H. subst pc.
  unfold ThreadPool.idle in Hidle. cbn in Hidle.
  destruct queue; [|discriminate]. apply Z.eqb_eq in Hidle. subst mact.
  cbn [app length] in *.
  assert (proc = [] /\ fin = []) as [-> ->].
  { destruct proc, fin; simpl in *; try lia. split; reflexivity. }
  close_state; auto.
  exists served. split; assumption.
Qed.

Theorem step_invariant a s s' :
  step C a s = Some s' ->
  invariant C requests s -> invariant C requests s'.
Proof.
  intros Hstep H. unfold step in Hstep.
  destruct a; destruct (reader s) eqn:Hpc; try discriminate;
    try (eapply take_invariant; eassumption);
    try (eapply process_invariant; eassumption);
    try (eapply emit_invariant; eassumption).
  - inversion Hstep; subst. apply read_invariant; assumption.
  - inversion Hstep; subst. apply hangup_invariant; assumption.
  - eapply pass_invariant; eauto.
  - destruct (ThreadPool.idle (m_threadPool s)) eqn:Hidle; [|discriminate].
    inversion Hstep; subst. apply finish_invariant; assumption.
Qed.

Lemma exec_invariant sched s s' :
  exec C sched s = Some s' ->
  invariant C requests s -> invariant C requests s'.
Proof.
  revert s. induction sched as [|a sched IH]; intros s Hexec H.
  - inversion Hexec; subst. exact H.
  - simpl in Hexec. destruct (step C a s) as [s1|] eqn:Hs; [|discriminate].
    eapply IH; [exact Hexec|]. eapply step_invariant; eauto.
Qed.

Lemma reachable_invariant s :
  Forall fits requests ->
  reachable C requests s -> invariant C requests s.
Proof.
  intros Hf [sched Hexec].
  eapply exec_invariant; [exact Hexec|]. apply initial_invariant. exact Hf.
Qed.

End Preservation.

(** *** Every session can run to its end *)

Section Progress.

Variable C : Config.

Lemma exec_app sched1 sched2 s s1 :
  exec C sched1 s = Some s1 ->
  exec C (sched1 ++ sched2) s = exec C sched2 s1.
Proof.
  revert s. induction sched1 as [|a sched1 IH]; intros s H; simpl in *.
  - inversion H; subst. reflexivity.
  - destruct (step C a s) as [s2|]; [|discriminate]. apply IH. exact H.
Qed.

Lemma step_take s : step C Take s = do_take C s.
Proof. unfold step. destruct (reader s); reflexivity. Qed.

Lemma step_process k s : step C (Process k) s = do_process C k s.
Proof. unfold step. destruct (reader s); reflexivity. Qed.

Lemma step_emit k ok s : step C (Emit k ok) s = do_emit k ok s.
Proof. unfold step. destruct (reader s); reflexivity. Qed.

Lemma write_out_finished n s :
  length (finishing s) = n ->
  exists sched s',
    exec C sched s = Some s' /\ finishing s' = [] /\
    processing s' = processing s /\
    ThreadPool.m_tasks (m_threadPool s') = ThreadPool.m_tasks (m_threadPool s) /\
    reader_rests s s'.
Proof.
  revert s. induction n as [|n IH]; intros s Hn.
  - exists [], s. simpl. destruct (finishing s); [|discriminate].
    repeat split; reflexivity.
  - destruct (finishing s) as [|r rest] eqn:Hfin; [discriminate|].
    destruct (do_emit 0 true s) as [s1|] eqn:Hs1;
      [|unfold do_emit in Hs1; rewrite Hfin in Hs1; discriminate].
    assert (Hs1' := Hs1). unfold do_emit in Hs1'. rewrite Hfin in Hs1'.
    simpl in Hs1'. inversion Hs1' as [Heq]; clear Hs1'.
    destruct (IH s1) as (sched & s' & Hex & Hf & Hp & Hq & Hr & Hi).
    { rewrite <- Heq. simpl. simpl in Hn. lia. }
    exists (Emit 0 true :: sched), s'. cbn [exec]. rewrite step_emit, Hs1.
    split; [exact Hex|]. rewrite <- Heq in Hp, Hq, Hr, Hi. simpl in *.
    repeat split; assumption.
Qed.

Lemma finish_processing n s :
  length (processing s) = n ->
  exists sched s',
    exec C sched s = Some s' /\ processing s' = [] /\
    ThreadPool.m_tasks (m_threadPool s') = ThreadPool.m_tasks (m_threadPool s) /\
    reader_rests s s'.
Proof.
  revert s. induction n as [|n IH]; intros s Hn.
  - exists [], s. simpl. destruct (processing s); [|discriminate].
    repeat split; reflexivity.
  - destruct (processing s) as [|t rest] eqn:Hproc; [discriminate|].
    destruct (do_process C 0 s) as [s1|] eqn:Hs1;
      [|unfold do_process in Hs1; rewrite Hproc in Hs1; discriminate].
    assert (Hs1' := Hs1). unfold do_process in Hs1'. rewrite Hproc in Hs1'.
    simpl in Hs1'. inversion Hs1' as [Heq]; clear Hs1'.
    destruct (IH s1) as (sched & s' & Hex & Hp & Hq & Hr & Hi).
    { rewrite <- Heq. simpl. simpl in Hn. lia. }
    exists (Process 0 :: sched), s'. cbn [exec]. rewrite step_process, Hs1.
    split; [exact Hex|]. rewrite <- Heq in Hq, Hr, Hi. simpl in *.
    repeat split; assumption.
Qed.

Lemma empty_queue n s :
  (0 < numThreads C)%nat ->
  length (ThreadPool.m_tasks (m_threadPool s)) = n ->
  processing s = [] -> finishing s = [] ->
  exists sched s',
    exec C sched s = Some s' /\ unreleased s' = [] /\ finishing s' = [] /\
    reader_rests s s'.
Proof.
  intros Hnt. revert s. induction n as [|n IH]; intros s Hn Hproc Hfin.
  - exists [], s. simpl. unfold unreleased. rewrite Hproc.
    destruct (ThreadPool.m_tasks (m_threadPool s)); [|discriminate].
    repeat split; auto.
  - destruct s as [sin sout pc g act idx [queue mact] proc fin].
    simpl in *. subst proc fin.
    destruct queue as [|t queue]; [discriminate|].
    set (s1 :=
      {| stream_in := sin;
         stream_out := sout ++ [(run_task (engine C) t, true)];
         reader := pc;
         g_activeImageSize := size_t_wrap (g - size (request t));
         activeTasks := int_wrap (act - 1);
         m_nextProcessorIndex := idx;
         m_threadPool :=
           ThreadPool.complete
             {| ThreadPool.m_tasks := queue;
                ThreadPool.m_activeTasks := mact |};
         processing := []; finishing := [] |}).
    assert (H3 : exec C [Take; Process 0; Emit 0 true]
                   {| stream_in := sin; stream_out := sout; reader := pc;
                      g_activeImageSize := g; activeTasks := act;
                      m_nextProcessorIndex := idx;
                      m_threadPool :=
                        {| ThreadPool.m_tasks := t :: queue;
                           ThreadPool.m_activeTasks := mact |};
                      processing := []; finishing := [] |} = Some s1).
    { cbn [exec]. rewrite step_take. unfold do_take, ThreadPool.take.
      cbn [processing finishing length Nat.add m_threadPool
           ThreadPool.m_tasks].
      destruct (Nat.ltb_spec 0 (numThreads C)); [|lia].
      rewrite step_process. unfold do_process. cbn [processing app pick].
      rewrite step_emit. unfold do_emit. cbn [finishing app pick].
      reflexivity. }
    destruct (IH s1) as (sched & s' & Hex & Hu & Hf & Hr & Hi);
      [simpl in *; lia | reflexivity | reflexivity |].
    exists ([Take; Process 0; Emit 0 true] ++ sched), s'.
    rewrite (@exec_app _ sched _ _ H3). split; [exact Hex|].
    simpl in *. repeat split; assumption.
Qed.

Lemma drain s :
  (0 < numThreads C)%nat ->
  exists sched s',
    exec C sched s = Some s' /\ unreleased s' = [] /\ finishing s' = [] /\
    reader_rests s s'.
Proof.
  intros Hnt.
  destruct (@finish_processing _ s eq_refl)
    as (sc1 & s1 & He1 & Hp1 & Hq1 & Hr1 & Hi1).
  destruct (@write_out_finished _ s1 eq_refl)
    as (sc2 & s2 & He2 & Hf2 & Hp2 & Hq2 & Hr2 & Hi2).
  destruct (@empty_queue _ s2 Hnt eq_refl)
    as (sc3 & s3 & He3 & Hu3 & Hf3 & Hr3 & Hi3);
    [congruence | assumption |].
  exists (sc1 ++ sc2 ++ sc3), s3.
  rewrite (@exec_app _ _ _ _ He1), (@exec_app _ _ _ _ He2).
  split; [exact He3|]. unfold reader_rests.
  repeat split; try assumption; congruence.
Qed.

Hypothesis Hwf : well_formed C.

Lemma workers_exist : (0 < numThreads C)%nat.
Proof.
  destruct Hwf as (Hne & Hle & _).
  destruct (m_processors C); [congruence | simpl in Hle; lia].
Qed.

(** Once fewer than four tasks are active the reader leaves the wait loop;
    the processor it selects exists. *)
Lemma pass_enabled ok r s :
  activeTasks s < MAX_CONCURRENT_TASKS ->
  exists s2, do_pass C ok r s = Some s2 /\
             reader s2 = AtRead /\ stream_in s2 = stream_in s.
Proof.
  intros Hlt. unfold do_pass.
  destruct (Z.geb_spec (activeTasks s) MAX_CONCURRENT_TASKS); [lia|].
  destruct (is_empty (ImageRequest.image_data r)).
  - eexists. split; [reflexivity|]. split; reflexivity.
  - unfold RoundRobin.fetch_inc.
    destruct Hwf as (Hne & Hle & Hnt).
    assert (Hpos : 0 < Z.of_nat (length (m_processors C))).
    { destruct (m_processors C); [congruence | simpl length; lia]. }
    unfold MAX_CONCURRENT_TASKS in Hnt.
    destruct (@subscript_in_bounds _ (m_processors C)
                (RoundRobin.processorIndex (m_nextProcessorIndex s)
                   (Z.of_nat (length (m_processors C)))))
      as [p Hp].
    { apply processorIndex_range. lia. }
    rewrite Hp. eexists. split; [reflexivity|]. split; reflexivity.
Qed.

Lemma runs_to_return requests n s :
  invariant C requests s ->
  (distance s <= n)%nat ->
  exists sched s',
    exec C sched s = Some s' /\ reader s' = Returned /\
    stream_in s' = unread_at_end s.
Proof.
  revert s. induction n as [|n IH]; intros s Hinv Hd.
  - unfold distance in Hd. destruct (reader s) eqn:Hpc; try lia.
    exists [], s. unfold unread_at_end. rewrite Hpc. auto.
  - destruct (reader s) eqn:Hpc.
    + (* AtRead *)
      pose proof (@read_invariant C requests true s Hpc Hinv) as Hinv1.
      destruct (IH (do_read true s) Hinv1) as (sched & s' & Hex & Hret & Hin).
      { unfold distance in *. rewrite Hpc in Hd. unfold do_read.
        destruct (stream_in s) as [|r rest]; simpl; [lia|].
        destruct (_ >? _); simpl in *; lia. }
      exists (Read true :: sched), s'. cbn [exec]. unfold step. rewrite Hpc.
      split; [exact Hex|]. split; [exact Hret|]. rewrite Hin.
      unfold unread_at_end. rewrite Hpc. unfold do_read.
      destruct (stream_in s) as [|r rest] eqn:Hsin; simpl; [exact Hsin|].
      destruct (_ >? _); reflexivity.
    + (* Throttled *)
      destruct (drain s workers_exist)
        as (sc1 & s1 & He1 & Hu1 & Hf1 & Hr1 & Hi1).
      pose proof (exec_invariant Hwf _ He1 Hinv) as Hinv1.
      rewrite Hpc in Hr1.
      destruct (@pass_enabled true r s1) as (s2 & Hp2 & Hr2 & Hi2).
      { rewrite (inv_active Hinv1), Hu1. unfold MAX_CONCURRENT_TASKS.
        simpl. lia. }
      pose proof (pass_invariant Hwf _ Hr1 Hp2 Hinv1) as Hinv2.
      destruct (IH s2 Hinv2) as (sched & s' & Hex & Hret & Hin).
      { unfold distance in *. rewrite Hpc in Hd. rewrite Hr2, Hi2, Hi1. lia. }
      exists (sc1 ++ Pass true :: sched), s'.
      rewrite (@exec_app _ _ _ _ He1). cbn [exec]. unfold step.
      rewrite Hr1, Hp2. split; [exact Hex|]. split; [exact Hret|].
      rewrite Hin. unfold unread_at_end. rewrite Hr2, Hpc. reflexivity.
    + (* Draining *)
      destruct (drain s workers_exist)
        as (sc1 & s1 & He1 & Hu1 & Hf1 & Hr1 & Hi1).
      pose proof (exec_invariant Hwf _ He1 Hinv) as Hinv1.
      rewrite Hpc in Hr1.
      assert (Hidle : ThreadPool.idle (m_threadPool s1) = true).
      { unfold ThreadPool.idle. pose proof (inv_pool Hinv1) as Hp.
        rewrite Hu1, Hf1 in Hp. unfold unreleased in Hu1.
        apply app_eq_nil in Hu1. destruct Hu1 as [Hq _]. rewrite Hq, Hp.
        reflexivity. }
      exists (sc1 ++ [Finish]), (with_reader Returned s1).
      rewrite (@exec_app _ _ _ _ He1). cbn [exec]. unfold step.
      rewrite Hr1, Hidle. split; [reflexivity|]. split; [reflexivity|].
      unfold unread_at_end. rewrite Hpc. simpl. exact Hi1.
    + exists [], s. unfold unread_at_end. rewrite Hpc. auto.
Qed.

End Progress.

(** *** One result for each request *)

Lemma task_result_echo imageId text :
  OCRResult.image_id (task_result imageId text) = imageId.
Proof. unfold task_result. destruct (is_empty text); reflexivity. Qed.

Lemma respond_echo E h :
  OCRResult.image_id (respond E h) = ImageRequest.image_id (fst h).
Proof.
  unfold respond. destruct (snd h); try reflexivity.
  unfold run_task. apply task_result_echo.
Qed.

Lemma respond_rejected E h :
  rejected (snd h) = true ->
  OCRResult.success (respond E h) = false /\
  OCRResult.error_message (respond E h) <> ""%string.
Proof.
  unfold respond. destruct (snd h); simpl; intros H;
    try discriminate; split; try reflexivity; discriminate.
Qed.

Lemma written_ids (E : Adapter.Engine) (out : list (OCRResult.t * bool))
    served :
  Permutation (map fst out) (map (respond E) served) ->
  Permutation (map (fun w => OCRResult.image_id (fst w)) out)
              (map ImageRequest.image_id (map fst served)).
Proof.
  intros H. apply (Permutation_map OCRResult.image_id) in H.
  rewrite !map_map in H. rewrite map_map.
  rewrite H. erewrite map_ext; [reflexivity|].
  intros h. apply respond_echo.
Qed.

(** A call that is alone on the server, with no clean-up round while it
    runs (the transition system [Session] by itself): when it returns it has
    called [Write] exactly once for each request it read, and from every
    state it reaches some interleaving leads to the return. The service as a
    whole is the subject of [Live]. *)
Lemma call_alone_answers_and_returns :
  forall (C : Config) (requests : list ImageRequest.t),
    well_formed C ->
    Forall fits requests ->
    (exists sched s,
        exec C sched (initial requests) = Some s /\
        reader s = Returned /\ stream_in s = []) /\
    (forall sched s,
        exec C sched (initial requests) = Some s ->
        exists sched' s',
          exec C sched' s = Some s' /\ reader s' = Returned) /\
    (forall sched s,
        exec C sched (initial requests) = Some s ->
        reader s = Returned ->
        exists served : list (ImageRequest.t * handling),
          requests = map fst served ++ stream_in s /\
          Permutation (map fst (stream_out s))
                      (map (respond (engine C)) served) /\
          (forall h, In h served ->
             OCRResult.image_id (respond (engine C) h)
               = ImageRequest.image_id (fst h) /\
             (rejected (snd h) = true ->
              OCRResult.success (respond (engine C) h) = false /\
              OCRResult.error_message (respond (engine C) h) <> ""%string)) /\
          (NoDup (map ImageRequest.image_id requests) ->
           forall r, In r (map fst served) ->
             count_occ string_dec
               (map (fun w => OCRResult.image_id (fst w)) (stream_out s))
               (ImageRequest.image_id r) = 1%nat)).
Proof.
  intros C requests Hwf Hfits. split; [|split].
  - destruct (@runs_to_return C Hwf requests _ (initial requests)
                (initial_invariant C Hfits) (Nat.le_refl _))
      as (sched & s & Hex & Hret & Hin).
    exists sched, s. repeat split; assumption.
  - intros sched s Hex.
    pose proof (exec_invariant Hwf _ Hex (initial_invariant C Hfits)) as Hinv.
    destruct (@runs_to_return C Hwf requests _ s Hinv (Nat.le_refl _))
      as (sched' & s' & Hex' & Hret & _).
    exists sched', s'. split; assumption.
  - intros sched s Hex Hret.
    pose proof (exec_invariant Hwf _ Hex (initial_invariant C Hfits)) as Hinv.
    destruct (inv_history Hinv) as (served & Hreq & Hperm).
    destruct (inv_returned Hinv Hret) as [Hu Hf].
    rewrite Hu, Hf, Hret in *. simpl in Hreq, Hperm.
    rewrite app_nil_r in Hperm.
    exists served. split; [exact Hreq|]. split; [exact Hperm|]. split.
    + intros h _. split; [apply respond_echo | apply respond_rejected].
    + intros Hnd r Hr.
      pose proof (@written_ids _ _ _ Hperm) as Hids.
      rewrite (proj1 (Permutation_count_occ string_dec _ _) Hids).
      rewrite Hreq, map_app in Hnd. apply NoDup_app_remove_r in Hnd.
      apply NoDup_count_occ'; [exact Hnd|]. apply in_map. exact Hr.
Qed.

(** *** The byte counter *)

(** The three places where [ProcessImages] touches [g_activeImageSize],
    step by step, for every value [c] of the counter and every size [n]
    whose sum a [size_t] holds: the memory check rejects when
    [c + n > MAX_MEMORY_USAGE], writes the rejection and leaves the counter
    at [c], and otherwise lets the request through, still without touching
    the counter; the dispatch adds [n] to the counter as it is then; a task
    subtracts its [n] when [processImage] is over, before its write and
    whatever that write returns. *)
Lemma counter_steps :
  forall C : Config,
    (forall s r rest ok,
        stream_in s = r :: rest ->
        0 <= g_activeImageSize s ->
        g_activeImageSize s + size r < 2 ^ 64 ->
        let c := g_activeImageSize s in
        let s' := do_read ok s in
        g_activeImageSize s' = c /\
        (c + size r > MAX_MEMORY_USAGE ->
         reader s' = AtRead /\
         stream_out s' = stream_out s ++ [(memory_rejection r, ok)] /\
         unreleased s' = unreleased s) /\
        (c + size r <= MAX_MEMORY_USAGE ->
         reader s' = Throttled r /\ stream_out s' = stream_out s)) /\
    (forall s r ok s',
        do_pass C ok r s = Some s' ->
        0 <= g_activeImageSize s ->
        g_activeImageSize s + size r < 2 ^ 64 ->
        g_activeImageSize s' = g_activeImageSize s + size r) /\
    (forall s k t rest,
        pick k (processing s) = Some (t, rest) ->
        size (request t) <= g_activeImageSize s < 2 ^ 64 ->
        exists s',
          do_process C k s = Some s' /\
          g_activeImageSize s' = g_activeImageSize s - size (request t) /\
          forall j ok s'', do_emit j ok s' = Some s'' ->
                           g_activeImageSize s'' = g_activeImageSize s').
Proof.
  intros C. split; [|split].
  - intros s r rest ok Hin Hg Hsum c s'. subst c s'. unfold do_read.
    rewrite Hin. pose proof (size_nonneg r) as Hsz.
    rewrite size_t_wrap_id by lia.
    destruct (Z.gtb_spec (g_activeImageSize s + size r) MAX_MEMORY_USAGE);
      simpl.
    + split; [reflexivity|]. split; [|lia]. intros _.
      repeat split; reflexivity.
    + split; [reflexivity|]. split; [lia|]. intros _.
      split; reflexivity.
  - intros s r ok s' Hpass Hg Hsum. pose proof (size_nonneg r) as Hsz.
    unfold do_pass in Hpass.
    destruct (_ >=? _); [discriminate|].
    destruct (is_empty (ImageRequest.image_data r)) eqn:Hemp.
    + inversion Hpass; subst s'. simpl.
      assert (size r = 0).
      { unfold size. destruct (ImageRequest.image_data r);
          [reflexivity | discriminate]. }
      lia.
    + unfold RoundRobin.fetch_inc in Hpass.
      destruct (RoundRobin.subscript _ _); [|discriminate].
      inversion Hpass; subst s'. simpl. apply size_t_wrap_id. lia.
  - intros s k t rest Hpick Hg. unfold do_process. rewrite Hpick.
    eexists. split; [reflexivity|]. simpl.
    pose proof (size_nonneg (request t)).
    rewrite size_t_wrap_id by lia. split; [reflexivity|].
    intros j ok s'' Hemit. unfold do_emit in Hemit. simpl in Hemit.
    destruct (pick j _) as [[res rest']|]; [|discriminate].
    inversion Hemit; subst s''. reflexivity.
Qed.

(** A call that is alone on the server (the transition system [Session] by
    itself): in every state it reaches the counter is the number of bytes of
    its tasks not yet released, it is within the ceiling, and no sum wraps
    (payloads are shorter than 2^63 bytes). With a second call none of this
    is the business of one call; see [Live]. *)
Lemma call_alone_counter :
  forall (C : Config) requests s,
    well_formed C ->
    Forall fits requests ->
    reachable C requests s ->
    g_activeImageSize s = payload (unreleased s) /\
    0 <= g_activeImageSize s <= MAX_MEMORY_USAGE /\
    (unreleased s = [] -> g_activeImageSize s = 0) /\
    (reader s = Returned -> g_activeImageSize s = 0) /\
    (forall r, In r (held (reader s) ++ stream_in s) ->
               g_activeImageSize s + size r < 2 ^ 64) /\
    (forall t, In t (processing s) ->
               size (request t) <= g_activeImageSize s).
Proof.
  intros C requests s Hwf Hfits Hreach.
  pose proof (reachable_invariant Hwf Hfits Hreach) as Hinv.
  pose proof (inv_bytes Hinv) as Hb.
  pose proof (payload_nonneg (unreleased s)) as Hnn.
  pose proof (inv_ceiling Hinv) as Hc.
  assert (Hheld : 0 <= held_bytes (reader s)).
  { destruct (reader s); simpl; try lia. apply size_nonneg. }
  unfold MAX_MEMORY_USAGE in *.
  split; [exact Hb|]. split; [lia|]. split; [|split; [|split]].
  + intros Hu. rewrite Hb, Hu. reflexivity.
  + intros Hret. destruct (inv_returned Hinv Hret) as [Hu _].
    rewrite Hb, Hu. reflexivity.
  + intros r Hr. pose proof (inv_fits Hinv) as Hf.
    rewrite Forall_forall in Hf. specialize (Hf r Hr). unfold fits in Hf.
    lia.
  + intros t Ht. rewrite Hb. unfold unreleased. rewrite payload_app.
    pose proof (payload_nonneg (ThreadPool.m_tasks (m_threadPool s))).
    apply in_split in Ht. destruct Ht as (l1 & l2 & ->).
    rewrite payload_app. simpl.
    pose proof (payload_nonneg l1). pose proof (payload_nonneg l2). lia.
Qed.

(** *** Empty payloads *)

(** C3, as the code has it. A request with zero-length [image_data] gets one
    result with [success = false] and leaves [g_activeImageSize] unchanged,
    whatever the counter holds; the memory check comes first in the loop, so
    the message is [Server memory limit exceeded] when the counter is already
    over the ceiling, and [Empty image data] otherwise, written once the
    reader is through the [activeTasks] wait. *)
Theorem empty_payload_result :
  forall (C : Config) (s : State) (r : ImageRequest.t)
         (rest : list ImageRequest.t) (ok : bool),
    reader s = AtRead ->
    stream_in s = r :: rest ->
    ImageRequest.image_data r = [] ->
    0 <= g_activeImageSize s < 2 ^ 64 ->
    let s1 := do_read ok s in
    g_activeImageSize s1 = g_activeImageSize s /\
    (g_activeImageSize s > MAX_MEMORY_USAGE ->
     reader s1 = AtRead /\
     stream_out s1 =
       stream_out s ++
       [({| OCRResult.image_id := ImageRequest.image_id r;
            OCRResult.extracted_text := [];
            OCRResult.success := false;
            OCRResult.error_message := "Server memory limit exceeded" |},
         ok)]) /\
    (g_activeImageSize s <= MAX_MEMORY_USAGE ->
     reader s1 = Throttled r /\ stream_out s1 = stream_out s /\
     forall s2 ok2,
       reader s2 = Throttled r ->
       activeTasks s2 < MAX_CONCURRENT_TASKS ->
       exists s3,
         step C (Pass ok2) s2 = Some s3 /\
         reader s3 = AtRead /\
         g_activeImageSize s3 = g_activeImageSize s2 /\
         unreleased s3 = unreleased s2 /\
         stream_out s3 =
           stream_out s2 ++
           [({| OCRResult.image_id := ImageRequest.image_id r;
                OCRResult.extracted_text := [];
                OCRResult.success := false;
                OCRResult.error_message := "Empty image data" |},
             ok2)]).
Proof.
  intros C s r rest ok Hpc Hin Hdata Hg s1. subst s1.
  unfold do_read. rewrite Hin.
  assert (Hsz : size r = 0) by (unfold size; rewrite Hdata; reflexivity).
  rewrite Hsz, Z.add_0_r, size_t_wrap_id by lia.
  destruct (Z.gtb_spec (g_activeImageSize s) MAX_MEMORY_USAGE); simpl.
  - split; [reflexivity|]. split; [|lia]. intros _. split; reflexivity.
  - split; [reflexivity|]. split; [lia|]. intros _.
    split; [reflexivity|]. split; [reflexivity|].
    intros s2 ok2 Hpc2 Hact. unfold step. rewrite Hpc2. unfold do_pass.
    destruct (Z.geb_spec (activeTasks s2) MAX_CONCURRENT_TASKS); [lia|].
    rewrite Hdata. simpl. eexists. split; [reflexivity|].
    repeat split; reflexivity.
Qed.

Lemma empty_payload_result_witness :
  let s := initial [Samples.blank] in
  let s1 := do_read true s in
  g_activeImageSize s1 = g_activeImageSize s.
Proof.
  intros s s1.
  refine (proj1 (@empty_payload_result Samples.two_workers s Samples.blank
                   [] true eq_refl eq_refl eq_refl _)).
  vm_compute. split; [discriminate | reflexivity].
Defined.

(** C3 as stated fails: the message of the code starts with a capital, and
    with the counter over the ceiling an empty request is answered by the
    memory rejection. *)
Lemma empty_payload_message_counterexample :
  (exists s res,
      exec Samples.two_workers [Read true; Pass true]
        (initial [Samples.blank]) = Some s /\
      stream_out s = [(res, true)] /\
      OCRResult.error_message res = "Empty image data"%string /\
      OCRResult.error_message res <> "empty image data"%string) /\
  (exists res,
      stream_out (do_read true (Samples.crowded [Samples.blank]))
        = [(res, true)] /\
      OCRResult.error_message res = "Server memory limit exceeded"%string).
Proof.
  split.
  - eexists. eexists. split; [reflexivity|]. split; [reflexivity|].
    split; [reflexivity | discriminate].
  - eexists. split; reflexivity.
Qed.

(** *** Back-pressure *)

(** C7, as the code has it. The bound on queued work is the session's own
    rate limit: while [activeTasks >= MAX_CONCURRENT_TASKS] (4) the reader
    stays in its wait loop and dispatches nothing, so in every state a session
    reaches at most 4 of its tasks are queued or being processed, and
    [m_tasks] holds at most 4. *)
Theorem session_rate_limit :
  forall (C : Config) (requests : list ImageRequest.t) (s : State),
    well_formed C ->
    Forall fits requests ->
    reachable C requests s ->
    Z.of_nat (length (ThreadPool.m_tasks (m_threadPool s)))
      <= MAX_CONCURRENT_TASKS /\
    Z.of_nat (length (unreleased s)) <= MAX_CONCURRENT_TASKS /\
    activeTasks s = Z.of_nat (length (unreleased s)) /\
    (forall ok, activeTasks s >= MAX_CONCURRENT_TASKS ->
                step C (Pass ok) s = None).
Proof.
  intros C requests s Hwf Hfits Hreach.
  pose proof (reachable_invariant Hwf Hfits Hreach) as Hinv.
  pose proof (inv_active Hinv) as Ha. pose proof (inv_throttle Hinv) as Ht.
  repeat split.
  - unfold unreleased in Ha. rewrite length_app in Ha. lia.
  - lia.
  - exact Ha.
  - intros ok Hge. unfold step. destruct (reader s); try reflexivity.
    unfold do_pass.
    destruct (Z.geb_spec (activeTasks s) MAX_CONCURRENT_TASKS);
      [reflexivity | lia].
Qed.

Lemma session_rate_limit_witness :
  exists s,
    exec Samples.two_workers [Read true; Pass true; Read true; Pass true]
      (initial [Samples.hello; Samples.blank; Samples.noise]) = Some s /\
    Z.of_nat (length (unreleased s)) <= MAX_CONCURRENT_TASKS.
Proof.
  assert (Hwf : well_formed Samples.two_workers).
  { unfold well_formed. split; [discriminate|].
    split; [simpl; lia | vm_compute; discriminate]. }
  assert (Hfits : Forall fits [Samples.hello; Samples.blank; Samples.noise])
    by (repeat constructor; vm_compute; reflexivity).
  eexists. split; [reflexivity|].
  match goal with |- Z.of_nat (length (unreleased ?s)) <= _ =>
    assert (Hreach : reachable Samples.two_workers
                       [Samples.hello; Samples.blank; Samples.noise] s)
      by (exists [Read true; Pass true; Read true; Pass true]; reflexivity)
  end.
  exact (proj1 (proj2 (session_rate_limit Hwf Hfits Hreach))).
Defined.

End SessionFacts.

(** ** The thread pool *)

Section ThreadPoolFacts.
Import ThreadPool.

Lemma submit_all_length (T : Type) (tasks : list T) (p : Pool T) :
  length (m_tasks (fold_left (fun p task => enqueue task p) tasks p))
  = (length (m_tasks p) + length tasks)%nat.
Proof.
  revert p. induction tasks as [|t tasks IH]; intros p; simpl.
  - lia.
  - rewrite IH. simpl. rewrite length_app. simpl. lia.
Qed.

(** C7 as stated fails: [enqueue] never waits and no capacity bounds
    [m_tasks]; whatever [Q] is, [Q + 1] submissions leave [Q + 1] tasks in
    the queue. *)
Lemma task_queue_unbounded_counterexample :
  ~ exists Q : nat,
      forall tasks : list unit, (length (m_tasks (submit_all tasks)) <= Q)%nat.
Proof.
  intros [Q H]. specialize (H (repeat tt (S Q))).
  unfold submit_all in H. rewrite submit_all_length in H.
  rewrite repeat_length in H. simpl in H. lia.
Qed.

End ThreadPoolFacts.

(** ** Undecodable images *)

Section DecodeFacts.
Import CString Adapter Session.

(** The result of a task whose [processImage] came back empty. *)
Lemma no_text_result imageId :
  task_result imageId [] =
  {| OCRResult.image_id := imageId; OCRResult.extracted_text := [];
     OCRResult.success := false;
     OCRResult.error_message := "OCR failed to extract text" |}.
Proof. reflexivity. Qed.

Lemma postProcessText_nil : postProcessText [] = [].
Proof. reflexivity. Qed.

(** C4, as the code has it. When the bytes of an admitted request do not
    decode, [processImage] returns the empty string and the result has
    [success = false] with the message [OCR failed to extract text]; that is
    the very result a task builds when decoding succeeds and the recognizer
    returns no text. *)
Theorem undecodable_image_result :
  forall (E : Engine) (t : Task),
    pixReadMem E (ImageRequest.image_data (request t)) = None ->
    run_task E t =
      {| OCRResult.image_id := ImageRequest.image_id (request t);
         OCRResult.extracted_text := [];
         OCRResult.success := false;
         OCRResult.error_message := "OCR failed to extract text" |} /\
    (forall (t' : Task) (pix : Pix E),
        ImageRequest.image_id (request t') = ImageRequest.image_id (request t) ->
        m_initialized (processor t') = true ->
        cleanImage E (ImageRequest.image_data (request t')) = Some pix ->
        GetUTF8Text E pix = Text [] \/ GetUTF8Text E pix = NullText ->
        run_task E t' = run_task E t).
Proof.
  intros E t Hdec.
  assert (Ht : run_task E t = task_result (ImageRequest.image_id (request t)) []).
  { unfold run_task, processImage, cleanImage. rewrite Hdec.
    destruct (negb _); [reflexivity|].
    destruct (is_empty _); reflexivity. }
  split; [rewrite Ht; apply no_text_result|].
  intros t' pix Hid Hinit Hclean Htext. rewrite Ht.
  unfold run_task, processImage. rewrite Hinit, Hclean, Hid. simpl negb.
  cbv iota.
  destruct (is_empty (ImageRequest.image_data (request t'))); [reflexivity|].
  destruct Htext as [-> | ->]; reflexivity.
Qed.

Lemma undecodable_image_result_witness :
  run_task Samples.toy_engine
    {| request := Samples.noise; processor := Samples.first_processor |} =
  {| OCRResult.image_id := "c"; OCRResult.extracted_text := [];
     OCRResult.success := false;
     OCRResult.error_message := "OCR failed to extract text" |}.
Proof.
  exact (proj1 (@undecodable_image_result Samples.toy_engine
                  {| request := Samples.noise;
                     processor := Samples.first_processor |} eq_refl)).
Defined.

(** C4 as stated fails: the message for undecodable bytes does not contain
    [decode failed], and it is the message of an image without text. *)
Lemma decode_failure_message_counterexample :
  let undecodable :=
    run_task Samples.toy_engine
      {| request := Samples.noise; processor := Samples.first_processor |} in
  let textless :=
    run_task Samples.toy_engine
      {| request := Samples.silent; processor := Samples.first_processor |} in
  pixReadMem Samples.toy_engine (ImageRequest.image_data Samples.noise) = None /\
  pixReadMem Samples.toy_engine (ImageRequest.image_data Samples.silent)
    = Some [] /\
  OCRResult.error_message undecodable = "OCR failed to extract text"%string /\
  index 0 "decode failed" (OCRResult.error_message undecodable) = None /\
  OCRResult.error_message undecodable = OCRResult.error_message textless.
Proof. repeat split. Qed.

End DecodeFacts.

(** ** The command line *)

Section CliFacts.
Import Cli.
Open Scope string_scope.

Variable stoul : string -> option Z.

Lemma main_defaults : main stoul [] = Serve "0.0.0.0:50051" 4.
Proof. reflexivity. Qed.

Lemma main_port_only port :
  main stoul ["--port"; port] = Serve ("0.0.0.0:" ++ port) 4.
Proof.
  unfold main. cbn [parse]. simpl String.eqb. cbv iota.
  reflexivity.
Qed.

Lemma main_address_only ip :
  main stoul ["--address"; ip] = Serve (ip ++ ":50051") 4.
Proof. reflexivity. Qed.

End CliFacts.

(** C6 fails for the order [--port] before [--address]: the [--address]
    branch rebuilds the string from the ip and the default port, dropping the
    port that was given. *)
Theorem address_flag_resets_port :
  Cli.main (fun _ => None)
    ["--port"; "8080"; "--address"; "192.168.1.100"]%string
    = Cli.Serve "192.168.1.100:50051" 4 /\
  Cli.main (fun _ => None)
    ["--address"; "192.168.1.100"; "--port"; "8080"]%string
    = Cli.Serve "192.168.1.100:8080" 4.
Proof. split; reflexivity. Qed.

(** ** Writes under the mutex *)

Section SerializerFacts.
Import CString Serializer.

Variable encode : OCRResult.t -> cstring.

Lemma inside_initial todo : inside (map Outside todo) = 0.
Proof. induction todo; simpl; auto. Qed.

Lemma in_flight_initial todo : in_flight (map Outside todo) = [].
Proof. induction todo; simpl; auto. Qed.

Lemma nobody_inside ws : inside ws = 0 -> in_flight ws = [].
Proof.
  induction ws as [|w ws IH]; simpl; intros H; [reflexivity|].
  destruct w; [auto | discriminate].
Qed.

(** A thread that was outside enters. *)
Lemma enter ws t todo0 unsent todo :
  nth_error ws t = Some (Outside todo0) ->
  inside ws = 0 ->
  inside (update t (Inside unsent todo) ws) = 1 /\
  in_flight (update t (Inside unsent todo) ws) = unsent.
Proof.
  revert t. induction ws as [|w ws IH]; intros t Hnth H0.
  - destruct t; discriminate.
  - destruct t as [|t]; simpl in *.
    + inversion Hnth; subst w. simpl in H0. rewrite H0.
      rewrite (@nobody_inside _ H0), app_nil_r. auto.
    + destruct w; [|discriminate]. simpl. apply IH; assumption.
Qed.

(** The only thread inside: what it still has to send is all that is in
    flight, and it may go on or leave. *)
Lemma sole_writer ws t unsent todo :
  nth_error ws t = Some (Inside unsent todo) ->
  inside ws = 1 ->
  in_flight ws = unsent /\
  (forall unsent' todo',
      inside (update t (Inside unsent' todo') ws) = 1 /\
      in_flight (update t (Inside unsent' todo') ws) = unsent') /\
  (forall todo',
      inside (update t (Outside todo') ws) = 0 /\
      in_flight (update t (Outside todo') ws) = []).
Proof.
  revert t. induction ws as [|w ws IH]; intros t Hnth H1.
  - destruct t; discriminate.
  - destruct t as [|t]; simpl in *.
    + inversion Hnth; subst w. simpl in H1.
      assert (H0 : inside ws = 0) by lia.
      rewrite (@nobody_inside _ H0), H0.
      repeat split; intros; rewrite ?app_nil_r; auto.
    + destruct w as [td|u td]; simpl in *.
      * apply IH; assumption.
      * assert (H0 : inside ws = 0) by lia. exfalso.
        clear IH H1. revert t Hnth.
        induction ws as [|w' ws IH']; intros t Hnth.
        -- destruct t; discriminate.
        -- simpl in H0. destruct w'; [|discriminate].
           destruct t; simpl in Hnth; [discriminate|]. eapply IH'; eauto.
Qed.

Lemma someone_inside ws t unsent todo :
  nth_error ws t = Some (Inside unsent todo) -> inside ws <> 0.
Proof.
  revert t. induction ws as [|w ws IH]; intros t Hnth.
  - destruct t; discriminate.
  - destruct t as [|t]; simpl in *.
    + inversion Hnth; subst. simpl. discriminate.
    + destruct w; [eapply IH; eauto | discriminate].
Qed.

Lemma initial_framed todo : framed encode (initial todo).
Proof.
  unfold framed, initial. simpl.
  rewrite inside_initial, in_flight_initial. split; [auto|].
  left. auto.
Qed.

Lemma step_framed a s s' :
  step encode a s = Some s' -> framed encode s -> framed encode s'.
Proof.
  intros Hstep [Hfree Hwire]. destruct a as [t|t|t]; simpl in Hstep.
  - (* Lock *)
    destruct (m_streamMutex s) eqn:Hm; [discriminate|].
    destruct (nth_error (writers s) t) as [[[|r todo]|]|] eqn:Hnth;
      try discriminate.
    inversion Hstep; subst s'; clear Hstep. unfold framed. simpl.
    specialize (Hfree eq_refl).
    destruct (@enter (writers s) t (r :: todo) (encode r) todo Hnth Hfree)
      as [Hi Hf].
    split; [discriminate|]. right. split; [exact Hi|].
    destruct Hwire as [(_ & _ & Hw) | (H1 & _)]; [|lia].
    exists (started s), r, []. rewrite Hf, app_nil_r. auto.
  - (* Put *)
    destruct (nth_error (writers s) t) as [[|[|b unsent] todo]|] eqn:Hnth;
      try discriminate.
    inversion Hstep; subst s'; clear Hstep. unfold framed. simpl.
    pose proof (@someone_inside _ _ _ _ Hnth) as Hne.
    destruct Hwire as [(H0 & _) | (H1 & done & cur & pre & Hs & Hw & He)];
      [contradiction|].
    destruct (@sole_writer _ _ _ _ Hnth H1) as (Hf & Hgo & _).
    destruct (Hgo unsent todo) as [Hi' Hf'].
    split; [intros Hm; specialize (Hfree Hm); lia|].
    right. split; [exact Hi'|].
    exists done, cur, (pre ++ [b]). rewrite Hf', Hw, <- !app_assoc.
    rewrite Hf in He. simpl. auto.
  - (* Unlock *)
    destruct (nth_error (writers s) t) as [[|[|b unsent] todo]|] eqn:Hnth;
      try discriminate.
    inversion Hstep; subst s'; clear Hstep. unfold framed. simpl.
    pose proof (@someone_inside _ _ _ _ Hnth) as Hne.
    destruct Hwire as [(H0 & _) | (H1 & done & cur & pre & Hs & Hw & He)];
      [contradiction|].
    destruct (@sole_writer _ _ _ _ Hnth H1) as (Hf & _ & Hout).
    destruct (Hout todo) as [Hi' Hf'].
    split; [auto|]. left. split; [exact Hi'|]. split; [exact Hf'|].
    rewrite Hf, app_nil_r in He. subst pre.
    rewrite Hs, Hw, map_app, concat_app. simpl. rewrite app_nil_r.
    reflexivity.
Qed.

Lemma exec_framed sched s s' :
  exec encode sched s = Some s' -> framed encode s -> framed encode s'.
Proof.
  revert s. induction sched as [|a sched IH]; intros s Hexec H.
  - inversion Hexec; subst. exact H.
  - simpl in Hexec.
    destruct (step encode a s) as [s1|] eqn:Hs; [|discriminate].
    eapply IH; [exact Hexec|]. eapply step_framed; eauto.
Qed.

End SerializerFacts.

(** Under [m_streamMutex]: whatever the interleaving of the reader thread
    and the workers, at most one of them is inside [stream->Write] at a time,
    and the bytes on the wire are whole frames, in the order the lock was
    taken, followed by the part already sent of the one frame whose writer is
    inside. *)
Lemma locked_writes_are_framed :
  forall (encode : OCRResult.t -> CString.cstring)
         (todo : list (list OCRResult.t))
         (sched : list Serializer.action) (s : Serializer.State),
    Serializer.exec encode sched (Serializer.initial todo) = Some s ->
    (Serializer.inside (Serializer.writers s) <= 1)%nat /\
    Serializer.wire s ++ Serializer.in_flight (Serializer.writers s)
      = concat (map encode (Serializer.started s)) /\
    (Serializer.inside (Serializer.writers s) = 0%nat ->
     Serializer.wire s = concat (map encode (Serializer.started s))) /\
    (Serializer.inside (Serializer.writers s) = 1%nat ->
     exists done cur pre,
       Serializer.started s = done ++ [cur] /\
       Serializer.wire s = concat (map encode done) ++ pre /\
       pre ++ Serializer.in_flight (Serializer.writers s) = encode cur).
Proof.
  intros encode todo sched s Hexec.
  pose proof (@exec_framed encode _ _ _ Hexec (initial_framed encode todo))
    as [_ Hw].
  destruct Hw as [(H0 & Hf & Hw) | (H1 & done & cur & pre & Hs & Hw & He)].
  - rewrite H0, Hf, app_nil_r. repeat split; auto. intros; discriminate.
  - rewrite H1. split; [lia|]. split.
    + rewrite Hs, Hw, map_app, concat_app, <- app_assoc, He. simpl.
      rewrite app_nil_r. reflexivity.
    + split; [intros; discriminate|]. intros _. exists done, cur, pre. auto.
Qed.

(** C8. With the lock of [m_streamMutex] around every [stream->Write] (the
    newer [ProcessImages]) at most one thread is inside [Write] at a time and
    the frames of two results never interleave, whatever the interleaving of
    the threads. The older [ProcessImages] calls [stream->Write] with no
    lock: two workers that finish together are both inside [Write], and the
    bytes of their two results can reach the wire mixed, which is the frames
    of the two results in neither order. *)
Theorem writes_interleave_without_the_lock :
  (forall (encode : OCRResult.t -> CString.cstring)
          (todo : list (list OCRResult.t))
          (sched : list Serializer.action) (s : Serializer.State),
      Serializer.exec encode sched (Serializer.initial todo) = Some s ->
      (Serializer.inside (Serializer.writers s) <= 1)%nat /\
      Serializer.wire s ++ Serializer.in_flight (Serializer.writers s)
        = concat (map encode (Serializer.started s)) /\
      (Serializer.inside (Serializer.writers s) = 0%nat ->
       Serializer.wire s = concat (map encode (Serializer.started s))) /\
      (Serializer.inside (Serializer.writers s) = 1%nat ->
       exists done cur pre,
         Serializer.started s = done ++ [cur] /\
         Serializer.wire s = concat (map encode done) ++ pre /\
         pre ++ Serializer.in_flight (Serializer.writers s) = encode cur)) /\
  (exists s,
      Unlocked.exec Samples.frame [Unlocked.Enter 0; Unlocked.Enter 1]
        (Unlocked.initial [[Samples.result_a]; [Samples.result_c]]) = Some s /\
      Serializer.inside (Unlocked.writers s) = 2%nat) /\
  (exists s,
      Unlocked.exec Samples.frame
        [Unlocked.Enter 0; Unlocked.Enter 1; Unlocked.Put 0; Unlocked.Put 1;
         Unlocked.Put 0; Unlocked.Put 1; Unlocked.Leave 0; Unlocked.Leave 1]
        (Unlocked.initial [[Samples.result_a]; [Samples.result_c]]) = Some s /\
      Serializer.inside (Unlocked.writers s) = 0%nat /\
      Unlocked.wire s = CString.lit "ac;;" /\
      Unlocked.wire s
        <> Samples.frame Samples.result_a ++ Samples.frame Samples.result_c /\
      Unlocked.wire s
        <> Samples.frame Samples.result_c ++ Samples.frame Samples.result_a).
Proof.
  split; [|split].
  - exact locked_writes_are_framed.
  - eexists. split; reflexivity.
  - eexists. split; [reflexivity|]. split; [reflexivity|].
    split; [reflexivity|]. split; discriminate.
Qed.

Lemma writes_interleave_without_the_lock_witness :
  exists s,
    Serializer.exec Samples.frame
      [Serializer.Lock 1; Serializer.Put 1; Serializer.Put 1;
       Serializer.Unlock 1; Serializer.Lock 0; Serializer.Put 0]
      (Serializer.initial [[Samples.result_a]; [Samples.result_b]]) = Some s /\
    (Serializer.inside (Serializer.writers s) <= 1)%nat /\
    Serializer.wire s = CString.lit "b;a".
Proof.
  eexists. split; [reflexivity|]. split; [|reflexivity].
  match goal with |- (Serializer.inside (Serializer.writers ?s) <= 1)%nat =>
    exact (proj1 (proj1 writes_interleave_without_the_lock Samples.frame
                    [[Samples.result_a]; [Samples.result_b]]
                    [Serializer.Lock 1; Serializer.Put 1; Serializer.Put 1;
                     Serializer.Unlock 1; Serializer.Lock 0; Serializer.Put 0]
                    s eq_refl))
  end.
Defined.

(** ** The post-processing of the adapter *)

Section AdapterFacts.
Import CString Adapter.

(** *** Searching *)

Lemma find0_cons pat c s :
  find0 pat (c :: s) =
  if starts_with pat (c :: s) then Some 0 else option_map S (find0 pat s).
Proof. reflexivity. Qed.

Lemma starts_with_split pat s :
  starts_with pat s = true -> s = pat ++ skipn (length pat) s.
Proof.
  revert s. induction pat as [|p pat IH]; intros s H; [reflexivity|].
  destruct s as [|c s]; simpl in H; [discriminate|].
  apply andb_true_iff in H. destruct H as [Hc Hs].
  apply Ascii.eqb_eq in Hc. subst c. simpl. f_equal. apply IH. exact Hs.
Qed.

Lemma starts_with_app pat s : starts_with pat (pat ++ s) = true.
Proof.
  induction pat as [|p pat IH]; simpl; [reflexivity|].
  rewrite Ascii.eqb_refl. exact IH.
Qed.

(** Where [find0] points there is an occurrence. *)
Lemma find0_split pat s k :
  find0 pat s = Some k ->
  s = firstn k s ++ pat ++ skipn (k + length pat) s /\ (k <= length s)%nat.
Proof.
  revert k. induction s as [|c s IH]; intros k H.
  - simpl in H. destruct (starts_with pat []) eqn:E; [|discriminate].
    inversion H; subst k. simpl. split; [|lia].
    apply (starts_with_split pat []). exact E.
  - simpl in H. destruct (starts_with pat (c :: s)) eqn:E.
    + inversion H; subst k. split; [|simpl; lia].
      apply (starts_with_split pat (c :: s)). exact E.
    + destruct (find0 pat s) as [j|] eqn:Ej; [|discriminate].
      inversion H; subst k. destruct (IH j eq_refl) as [Hs Hle].
      split; [|simpl; lia]. simpl. f_equal. exact Hs.
Qed.

Lemma find0_length pat s k :
  find0 pat s = Some k -> (k + length pat <= length s)%nat.
Proof.
  intros H. destruct (find0_split _ _ H) as [Hs Hk].
  apply (f_equal (@length ascii)) in Hs.
  rewrite !length_app, length_firstn in Hs.
  rewrite length_skipn in Hs. lia.
Qed.

(** [find] from the end of a prefix searches what follows the prefix. *)
Lemma find_after pat done todo :
  find pat (done ++ todo) (length done)
  = option_map (Nat.add (length done)) (find0 pat todo).
Proof.
  unfold find. rewrite length_app.
  destruct (Nat.ltb_spec (length done + length todo) (length done)); [lia|].
  rewrite skipn_app, skipn_all, Nat.sub_diag. reflexivity.
Qed.

Lemma replace_after (done todo : cstring) k n t :
  replace (done ++ todo) (length done + k) n t
  = (done ++ firstn k todo ++ t) ++ skipn (k + n) todo.
Proof.
  unfold replace.
  rewrite firstn_app, firstn_all2 by lia.
  replace (length done + k - length done)%nat with k by lia.
  rewrite skipn_app, skipn_all2 by lia.
  replace (length done + k + n - length done)%nat with (k + n)%nat by lia.
  rewrite <- !app_assoc. reflexivity.
Qed.

(** *** Collapsing spaces *)

Lemma starts_with_two_spaces c d r :
  starts_with two_spaces (c :: d :: r) = Spec.is_space c && Spec.is_space d.
Proof. simpl. rewrite andb_true_r. reflexivity. Qed.

Lemma collapse_cons c d r :
  Spec.collapse (c :: d :: r) =
  if starts_with two_spaces (c :: d :: r) then Spec.collapse (d :: r)
  else c :: Spec.collapse (d :: r).
Proof. rewrite starts_with_two_spaces. reflexivity. Qed.

Lemma find0_two_spaces_single c : find0 two_spaces [c] = None.
Proof. cbn. rewrite andb_false_r. reflexivity. Qed.

Lemma collapse_none s : find0 two_spaces s = None -> Spec.collapse s = s.
Proof.
  induction s as [|c r IH]; intros H; [reflexivity|].
  destruct r as [|d r]; [reflexivity|].
  rewrite collapse_cons. rewrite find0_cons in H.
  destruct (starts_with two_spaces (c :: d :: r)); [discriminate|].
  f_equal. apply IH.
  destruct (find0 two_spaces (d :: r)); [discriminate | reflexivity].
Qed.

Lemma collapse_some s k :
  find0 two_spaces s = Some k ->
  Spec.collapse s = firstn k s ++ Spec.collapse (skipn (k + 1) s) /\
  skipn (k + 1) s = " "%char :: skipn (k + 2) s.
Proof.
  revert k. induction s as [|c r IH]; intros k H; [discriminate|].
  destruct r as [|d r]; [rewrite find0_two_spaces_single in H; discriminate|].
  rewrite collapse_cons. rewrite find0_cons in H.
  destruct (starts_with two_spaces (c :: d :: r)) eqn:E.
  - inversion H; subst k. rewrite starts_with_two_spaces in E.
    apply andb_true_iff in E. destruct E as [_ Ed].
    unfold Spec.is_space in Ed. apply Ascii.eqb_eq in Ed. subst d.
    split; reflexivity.
  - destruct (find0 two_spaces (d :: r)) as [j|] eqn:Ej; [|discriminate].
    inversion H; subst k. destruct (IH j eq_refl) as [Hc Hs].
    split; [|exact Hs]. cbn [firstn app Nat.add skipn]. f_equal. exact Hc.
Qed.

(** The loop of src/src/OCRProcessor.cpp leaves what is before [pos]
    alone and collapses the rest. *)
Lemma collapse_loop_spec fuel done todo :
  (length todo <= fuel)%nat ->
  collapse_loop fuel (done ++ todo) (length done) = done ++ Spec.collapse todo.
Proof.
  revert done todo. induction fuel as [|fuel IH]; intros done todo Hlen.
  - destruct todo; [reflexivity | simpl in Hlen; lia].
  - cbn [collapse_loop]. rewrite find_after.
    destruct (find0 two_spaces todo) as [k|] eqn:Hk; cbn [option_map].
    + destruct (collapse_some _ Hk) as [Hc Hs].
      pose proof (find0_length _ _ Hk) as Hkl. simpl in Hkl.
      rewrite replace_after. unfold one_space, lit. simpl list_ascii_of_string.
      rewrite <- app_assoc.
      replace ((firstn k todo ++ [" "%char]) ++ skipn (k + 2) todo)
        with (firstn k todo ++ skipn (k + 1) todo)
        by (rewrite Hs, <- app_assoc; reflexivity).
      rewrite app_assoc.
      replace (length done + k)%nat with (length (done ++ firstn k todo))
        by (rewrite length_app, length_firstn; lia).
      rewrite IH by (rewrite length_skipn; lia).
      rewrite Hc, <- app_assoc. reflexivity.
    + rewrite (collapse_none _ Hk). reflexivity.
Qed.

Lemma collapse_spaces_spec result :
  collapse_spaces result = Spec.collapse result.
Proof.
  unfold collapse_spaces. apply (collapse_loop_spec [] result (Nat.le_refl _)).
Qed.

(** *** The table of replacements *)

Lemma substitute_from_skip from to k s :
  Spec.substitute_from from to k s = Spec.substitute from to (skipn k s).
Proof.
  revert k. induction s as [|c r IH]; intros k.
  - destruct k; reflexivity.
  - destruct k as [|k]; [reflexivity|]. simpl. apply IH.
Qed.

Lemma substitute_cons from to c r :
  Spec.substitute from to (c :: r) =
  if starts_with from (c :: r)
  then to ++ Spec.substitute from to (skipn (length from - 1) r)
  else c :: Spec.substitute from to r.
Proof.
  unfold Spec.substitute at 1. cbn [Spec.substitute_from].
  rewrite substitute_from_skip. reflexivity.
Qed.

Lemma substitute_none from to s :
  find0 from s = None -> Spec.substitute from to s = s.
Proof.
  induction s as [|c r IH]; intros H; [reflexivity|].
  rewrite substitute_cons. rewrite find0_cons in H.
  destruct (starts_with from (c :: r)); [discriminate|].
  f_equal. apply IH. destruct (find0 from r); [discriminate | reflexivity].
Qed.

Lemma substitute_some from to s k :
  from <> [] ->
  find0 from s = Some k ->
  Spec.substitute from to s =
  firstn k s ++ to ++ Spec.substitute from to (skipn (k + length from) s).
Proof.
  intros Hne. revert k. induction s as [|c r IH]; intros k H.
  - destruct from; [congruence | discriminate].
  - rewrite substitute_cons. rewrite find0_cons in H.
    destruct (starts_with from (c :: r)).
    + inversion H; subst k. cbn [firstn app Nat.add].
      destruct from as [|f from]; [congruence|]. simpl length.
      replace (S (length from) - 1)%nat with (length from) by lia.
      reflexivity.
    + destruct (find0 from r) as [j|] eqn:Ej; [|discriminate].
      inversion H; subst k. cbn [firstn app Nat.add skipn]. f_equal.
      apply IH. reflexivity.
Qed.

(** The loop leaves what is before [pos] alone and replaces in the rest. *)
Lemma replace_loop_spec fuel from to done todo :
  from <> [] ->
  (length todo < fuel)%nat ->
  replace_loop fuel from to (done ++ todo) (length done)
  = done ++ Spec.substitute from to todo.
Proof.
  intros Hne. revert done todo.
  induction fuel as [|fuel IH]; intros done todo Hlen; [lia|].
  cbn [replace_loop]. rewrite find_after.
  destruct (find0 from todo) as [k|] eqn:Hk; cbn [option_map].
  - pose proof (find0_length _ _ Hk) as Hkl.
    assert (Hfrom : (0 < length from)%nat).
    { destruct from; [congruence | simpl; lia]. }
    rewrite replace_after.
    replace (length done + k + length to)%nat
      with (length (done ++ firstn k todo ++ to))
      by (rewrite !length_app, length_firstn; lia).
    rewrite IH by (rewrite length_skipn; lia).
    rewrite (@substitute_some from to todo k Hne Hk), <- !app_assoc.
    reflexivity.
  - rewrite (@substitute_none from to todo Hk). reflexivity.
Qed.

(** The fuel of [apply_replacement] is enough. *)
Lemma replace_loop_fuel result r :
  fst r <> [] ->
  apply_replacement result r = Spec.substitute (fst r) (snd r) result.
Proof.
  intros Hne. unfold apply_replacement.
  apply (@replace_loop_spec _ (fst r) (snd r) [] result Hne). lia.
Qed.

Lemma apply_replacements_spec result :
  apply_replacements result = Spec.substitute_table result.
Proof.
  unfold apply_replacements, Spec.substitute_table.
  assert (Hall : Forall (fun r => fst r <> []) replacements)
    by (repeat constructor; discriminate).
  revert result. induction Hall as [|r rs Hr _ IH]; intros result.
  - reflexivity.
  - simpl. rewrite (@replace_loop_fuel result r Hr). apply IH.
Qed.

(** *** Stripping and trimming *)

Lemma drop_leading_none set s :
  find_first_not_of set s = None -> Spec.drop_leading set s = [].
Proof.
  induction s as [|c r IH]; intros H; [reflexivity|]. simpl in *.
  destruct (mem c set); [|discriminate].
  apply IH. destruct (find_first_not_of set r); [discriminate | reflexivity].
Qed.

Lemma drop_leading_some set s n :
  find_first_not_of set s = Some n -> skipn n s = Spec.drop_leading set s.
Proof.
  revert n. induction s as [|c r IH]; intros n H; [discriminate|].
  simpl in *. destruct (mem c set).
  - destruct (find_first_not_of set r) as [j|]; [|discriminate].
    inversion H; subst n. simpl. apply IH. reflexivity.
  - inversion H; subst n. reflexivity.
Qed.

Lemma drop_trailing_none set s :
  find_last_not_of set s = None -> Spec.drop_trailing set s = [].
Proof.
  induction s as [|c r IH]; intros H; [reflexivity|]. simpl in *.
  destruct (find_last_not_of set r); [discriminate|].
  rewrite IH by reflexivity. destruct (mem c set); [reflexivity|discriminate].
Qed.

Lemma drop_trailing_some set s e :
  find_last_not_of set s = Some e ->
  firstn (e + 1) s = Spec.drop_trailing set s.
Proof.
  revert e. induction s as [|c r IH]; intros e H; [discriminate|].
  simpl in H. destruct (find_last_not_of set r) as [i|] eqn:Ei.
  - inversion H; subst e. cbn [Nat.add firstn Spec.drop_trailing].
    rewrite <- (IH i eq_refl).
    destruct r as [|d r]; [discriminate|].
    replace (i + 1)%nat with (S i) by lia. reflexivity.
  - destruct (mem c set) eqn:Ec; [discriminate|].
    inversion H; subst e. cbn [Nat.add firstn Spec.drop_trailing].
    rewrite (drop_trailing_none _ _ Ei), Ec. reflexivity.
Qed.

Lemma strip_erase_spec text : strip_erase text = Spec.strip text.
Proof.
  unfold strip_erase, Spec.strip, erase, erase_from.
  destruct (find_first_not_of whitespace text) as [n|] eqn:En.
  - cbn [firstn app Nat.add]. rewrite (drop_leading_some _ _ En).
    destruct (find_last_not_of whitespace
                (Spec.drop_leading whitespace text)) as [e|] eqn:Ee.
    + apply drop_trailing_some. exact Ee.
    + rewrite (drop_trailing_none _ _ Ee). reflexivity.
  - rewrite (drop_leading_none _ _ En). cbn [firstn app Nat.add].
    rewrite skipn_all. reflexivity.
Qed.

Lemma trim_front_spec result :
  trim_front result = Spec.drop_leading punctuation result.
Proof.
  induction result as [|c r IH]; [reflexivity|].
  cbn [trim_front Spec.drop_leading].
  destruct (mem c punctuation); [exact IH | reflexivity].
Qed.

Lemma drop_trailing_snoc set s c :
  Spec.drop_trailing set (s ++ [c]) =
  if mem c set then Spec.drop_trailing set s else s ++ [c].
Proof.
  induction s as [|d s IH]; [simpl; destruct (mem c set); reflexivity|].
  cbn [app Spec.drop_trailing]. rewrite IH.
  destruct (mem c set); [reflexivity|].
  destruct (s ++ [c]) eqn:E; [|reflexivity].
  apply app_eq_nil in E. destruct E; discriminate.
Qed.

Lemma back_snoc (s : cstring) c : back (s ++ [c]) = Some c.
Proof.
  destruct s as [|d s]; [reflexivity|]. simpl. f_equal.
  apply last_last.
Qed.

Lemma snoc_cases (s : cstring) : s = [] \/ exists s' c, s = s' ++ [c].
Proof.
  destruct s as [|d s]; [left; reflexivity|]. right.
  destruct (@exists_last _ (d :: s)) as (s' & c & H); [discriminate|].
  exists s', c. exact H.
Qed.

Lemma trim_back_loop_spec fuel result :
  (length result <= fuel)%nat ->
  trim_back_loop fuel result = Spec.drop_trailing punctuation result.
Proof.
  revert result. induction fuel as [|fuel IH]; intros result Hlen.
  - destruct result; [reflexivity | simpl in Hlen; lia].
  - destruct (snoc_cases result) as [-> | (s' & c & ->)]; [reflexivity|].
    cbn [trim_back_loop]. rewrite back_snoc, drop_trailing_snoc.
    destruct (mem c punctuation); [|reflexivity].
    unfold pop_back. rewrite removelast_last. apply IH.
    rewrite length_app in Hlen. simpl in Hlen. lia.
Qed.

Lemma trim_back_spec result :
  trim_back result = Spec.drop_trailing punctuation result.
Proof. apply trim_back_loop_spec. apply Nat.le_refl. Qed.

(** The code of src/src/OCRProcessor.cpp, stage by stage. *)
Lemma postProcessText_stages text :
  postProcessText text = Spec.postprocess_with_table text.
Proof.
  unfold postProcessText, Spec.postprocess_with_table.
  destruct text as [|c text]; [reflexivity|]. cbn [is_empty].
  rewrite strip_erase_spec.
  destruct (Spec.strip (c :: text)) as [|d stripped] eqn:Es; [reflexivity|].
  cbn [is_empty]. rewrite apply_replacements_spec.
  destruct (Spec.substitute_table (d :: stripped)) as [|x table];
    [reflexivity|].
  cbn [is_empty negb]. rewrite trim_back_spec, trim_front_spec.
  apply collapse_spaces_spec.
Qed.

(** *** What one turn of a collapsing loop does *)

Lemma find_occurrence pat s pos p :
  find pat s pos = Some p ->
  exists x y, s = x ++ pat ++ y /\ length x = p.
Proof.
  unfold find. destruct (Nat.ltb_spec (length s) pos); [discriminate|].
  destruct (find0 pat (skipn pos s)) as [k|] eqn:Hk; [|discriminate].
  intros Hp. inversion Hp; subst p.
  destruct (find0_split _ _ Hk) as [Hs Hle].
  exists (firstn pos s ++ firstn k (skipn pos s)),
         (skipn (k + length pat) (skipn pos s)).
  split.
  - rewrite <- app_assoc, <- Hs. symmetry. apply firstn_skipn.
  - rewrite length_app, !length_firstn. rewrite length_skipn in *. lia.
Qed.

Lemma replace_occurrence (x pat y t : cstring) :
  replace (x ++ pat ++ y) (length x) (length pat) t = x ++ t ++ y.
Proof.
  rewrite <- (Nat.add_0_r (length x)). rewrite replace_after.
  cbn [firstn app Nat.add]. rewrite skipn_app, skipn_all, Nat.sub_diag.
  rewrite <- app_assoc. reflexivity.
Qed.

(** A turn replaces two adjacent spaces by one. *)
Lemma collapsing_turn result pos p :
  find two_spaces result pos = Some p ->
  exists x y,
    result = x ++ " "%char :: " "%char :: y /\ length x = p /\
    replace result p 2 one_space = x ++ " "%char :: y.
Proof.
  intros H. destruct (find_occurrence _ _ _ H) as (x & y & Hs & Hl).
  exists x, y. split; [exact Hs|]. split; [exact Hl|].
  subst p. rewrite Hs. apply (replace_occurrence x two_spaces y one_space).
Qed.

Lemma collapse_shorter_run x y :
  Spec.collapse (x ++ " "%char :: " "%char :: y)
  = Spec.collapse (x ++ " "%char :: y).
Proof.
  induction x as [|c x IH]; [reflexivity|].
  cbn [app]. destruct x as [|d x].
  - cbn [app] in *.
    rewrite (collapse_cons c " " (" "%char :: y)), (collapse_cons c " " y).
    rewrite !starts_with_two_spaces, IH. reflexivity.
  - cbn [app] in *.
    rewrite (collapse_cons c d (x ++ " "%char :: " "%char :: y)).
    rewrite (collapse_cons c d (x ++ " "%char :: y)).
    rewrite !starts_with_two_spaces, IH. reflexivity.
Qed.

Lemma head_shorter_run (x y : cstring) :
  hd_error (x ++ " "%char :: " "%char :: y) = hd_error (x ++ " "%char :: y).
Proof. destruct x; reflexivity. Qed.

Lemma last_cons (c : ascii) y d : last (c :: y) d = last y c.
Proof.
  revert c d. induction y as [|e y IH]; intros c d; [reflexivity|].
  change (last (c :: e :: y) d) with (last (e :: y) d).
  rewrite (IH e d), (IH e c). reflexivity.
Qed.

Lemma back_app (x : cstring) c y : back (x ++ c :: y) = Some (last y c).
Proof.
  destruct x as [|d x]; [reflexivity|]. cbn [app back]. f_equal.
  revert d. induction x as [|e x IH]; intros d.
  - apply last_cons.
  - cbn [app]. rewrite last_cons. apply IH.
Qed.

Lemma back_shorter_run (x y : cstring) :
  back (x ++ " "%char :: " "%char :: y) = back (x ++ " "%char :: y).
Proof.
  rewrite !back_app. f_equal. destruct y; reflexivity.
Qed.

Lemma shorten_runs_none s :
  find0 two_spaces s = None -> V2.shorten_runs s = s.
Proof.
  induction s as [|c r IH]; intros H; [reflexivity|].
  destruct r as [|d r]; [reflexivity|].
  rewrite find0_cons in H. cbn [V2.shorten_runs].
  destruct (starts_with two_spaces (c :: d :: r)); [discriminate|].
  f_equal. apply IH.
  destruct (find0 two_spaces (d :: r)); [discriminate | reflexivity].
Qed.

Lemma shorten_runs_some s k :
  find0 two_spaces s = Some k ->
  V2.shorten_runs s =
  firstn k s ++ " "%char :: V2.shorten_runs (skipn (k + 2) s).
Proof.
  revert k. induction s as [|c r IH]; intros k H; [discriminate|].
  destruct r as [|d r]; [rewrite find0_two_spaces_single in H; discriminate|].
  rewrite find0_cons in H. cbn [V2.shorten_runs].
  destruct (starts_with two_spaces (c :: d :: r)) eqn:E.
  - inversion H; subst k. rewrite starts_with_two_spaces in E.
    apply andb_true_iff in E. destruct E as [Ec _].
    unfold Spec.is_space in Ec. apply Ascii.eqb_eq in Ec. subst c.
    reflexivity.
  - destruct (find0 two_spaces (d :: r)) as [j|] eqn:Ej; [|discriminate].
    inversion H; subst k. cbn [firstn app Nat.add skipn]. f_equal.
    apply (IH j eq_refl).
Qed.

(** The fuel of the second variant's loop is enough: the loop is
    [shorten_runs] on what follows [pos]. *)
Lemma V2_collapse_loop_fuel fuel done todo :
  (length todo <= fuel)%nat ->
  V2.collapse_loop fuel (done ++ todo) (length done)
  = done ++ V2.shorten_runs todo.
Proof.
  revert done todo. induction fuel as [|fuel IH]; intros done todo Hlen.
  - destruct todo; [reflexivity | simpl in Hlen; lia].
  - cbn [V2.collapse_loop]. rewrite find_after.
    destruct (find0 two_spaces todo) as [k|] eqn:Hk; cbn [option_map].
    + pose proof (find0_length _ _ Hk) as Hkl. simpl in Hkl.
      rewrite replace_after.
      replace (length done + k + 1)%nat
        with (length (done ++ firstn k todo ++ one_space))
        by (rewrite !length_app, length_firstn; simpl; lia).
      rewrite IH by (rewrite length_skipn; lia).
      rewrite (shorten_runs_some _ Hk), <- !app_assoc. reflexivity.
    + rewrite (shorten_runs_none _ Hk). reflexivity.
Qed.

(** The loop of the second variant only shortens runs of spaces: the first
    and the last character stay, and so does the result of a full
    collapse. *)
Lemma V2_collapse_loop_keeps fuel result pos :
  let out := V2.collapse_loop fuel result pos in
  Spec.collapse out = Spec.collapse result /\
  hd_error out = hd_error result /\
  back out = back result.
Proof.
  revert result pos. induction fuel as [|fuel IH]; intros result pos.
  - simpl. auto.
  - cbn [V2.collapse_loop].
    destruct (find two_spaces result pos) as [p|] eqn:Hp; [|simpl; auto].
    destruct (collapsing_turn _ _ Hp) as (x & y & Hs & Hl & Hr).
    destruct (IH (replace result p 2 one_space) (p + 1)%nat)
      as (Hc & Hh & Hb).
    cbv zeta. rewrite Hc, Hh, Hb, Hr, Hs.
    rewrite collapse_shorter_run, head_shorter_run, back_shorter_run. auto.
Qed.

(** *** The second variant *)

Lemma find_last_after_first set text start :
  find_first_not_of set text = Some start ->
  exists e,
    find_last_not_of set (skipn start text) = Some e /\
    find_last_not_of set text = Some (start + e)%nat.
Proof.
  revert start. induction text as [|c r IH]; intros start H; [discriminate|].
  cbn [find_first_not_of] in H. destruct (mem c set) eqn:Ec.
  - destruct (find_first_not_of set r) as [j|] eqn:Ej; [|discriminate].
    inversion H; subst start. destruct (IH j eq_refl) as (e & He & Hr).
    exists e. split; [exact He|]. cbn [find_last_not_of]. rewrite Hr.
    reflexivity.
  - inversion H; subst start. cbn [skipn find_last_not_of Nat.add].
    destruct (find_last_not_of set r) as [i|]; rewrite ?Ec; eauto.
Qed.

Lemma V2_postProcessText_stages text :
  V2.postProcessText text = V2.collapse_spaces (Spec.strip text).
Proof.
  unfold V2.postProcessText, Spec.strip.
  destruct text as [|c text]; [reflexivity|]. cbn [is_empty].
  destruct (find_first_not_of whitespace (c :: text)) as [start|] eqn:Es.
  - destruct (find_last_after_first _ _ Es) as (e & He & Hr).
    rewrite Hr. unfold substr.
    replace (start + e - start + 1)%nat with (e + 1)%nat by lia.
    rewrite <- (drop_leading_some _ _ Es).
    rewrite (drop_trailing_some _ _ He). reflexivity.
  - rewrite (drop_leading_none _ _ Es). reflexivity.
Qed.

(** *** What the stages leave behind *)

Lemma collapse_head s : hd_error (Spec.collapse s) = hd_error s.
Proof.
  induction s as [|c r IH]; [reflexivity|].
  destruct r as [|d r]; [reflexivity|].
  rewrite collapse_cons, starts_with_two_spaces.
  destruct (Spec.is_space c && Spec.is_space d) eqn:E; [|reflexivity].
  rewrite IH. apply andb_true_iff in E. destruct E as [Hc Hd].
  unfold Spec.is_space in *. apply Ascii.eqb_eq in Hc, Hd. subst.
  reflexivity.
Qed.

Lemma back_cons2 (c d : ascii) r : back (c :: d :: r) = back (d :: r).
Proof. cbn [back]. f_equal. apply last_cons. Qed.

Lemma collapse_back s : back (Spec.collapse s) = back s.
Proof.
  induction s as [|c r IH]; [reflexivity|].
  destruct r as [|d r]; [reflexivity|].
  rewrite collapse_cons, starts_with_two_spaces, back_cons2.
  destruct (Spec.is_space c && Spec.is_space d); [exact IH|].
  rewrite <- IH. destruct (Spec.collapse (d :: r)) as [|x xs] eqn:E.
  - pose proof (collapse_head (d :: r)) as Hh. rewrite E in Hh.
    discriminate.
  - apply back_cons2.
Qed.

Lemma collapse_no_run s : find0 two_spaces (Spec.collapse s) = None.
Proof.
  induction s as [|c r IH]; [reflexivity|].
  destruct r as [|d r]; [apply find0_two_spaces_single|].
  rewrite collapse_cons, starts_with_two_spaces.
  destruct (Spec.is_space c && Spec.is_space d) eqn:E; [exact IH|].
  rewrite find0_cons, IH.
  pose proof (collapse_head (d :: r)) as Hh.
  destruct (Spec.collapse (d :: r)) as [|x xs]; [discriminate|].
  inversion Hh; subst x. rewrite starts_with_two_spaces, E. reflexivity.
Qed.

Lemma drop_leading_head set s c :
  hd_error (Spec.drop_leading set s) = Some c -> mem c set = false.
Proof.
  induction s as [|d r IH]; [discriminate|].
  cbn [Spec.drop_leading]. destruct (mem d set) eqn:Ed; [exact IH|].
  intros H. inversion H; subst. exact Ed.
Qed.

Lemma drop_trailing_head set s c :
  hd_error s = Some c -> mem c set = false ->
  hd_error (Spec.drop_trailing set s) = Some c.
Proof.
  destruct s as [|d r]; [discriminate|]. intros H Hc.
  inversion H; subst d. cbn [Spec.drop_trailing].
  destruct (Spec.drop_trailing set r); [rewrite Hc|]; reflexivity.
Qed.

Lemma drop_trailing_head_inv set s c :
  hd_error (Spec.drop_trailing set s) = Some c -> hd_error s = Some c.
Proof.
  destruct s as [|d r]; [discriminate|]. cbn [Spec.drop_trailing].
  destruct (Spec.drop_trailing set r).
  - destruct (mem d set); [discriminate | auto].
  - auto.
Qed.

Lemma drop_trailing_back set s c :
  back (Spec.drop_trailing set s) = Some c -> mem c set = false.
Proof.
  induction s as [|d r IH]; [discriminate|].
  cbn [Spec.drop_trailing].
  destruct (Spec.drop_trailing set r) as [|x xs] eqn:E.
  - destruct (mem d set) eqn:Ed; [discriminate|].
    intros H. inversion H; subst. exact Ed.
  - rewrite back_cons2. exact IH.
Qed.

(** After a strip or a trim, neither end is in the set. *)
Lemma both_ends_clear set s c :
  let out := Spec.drop_trailing set (Spec.drop_leading set s) in
  (hd_error out = Some c -> mem c set = false) /\
  (back out = Some c -> mem c set = false).
Proof.
  split.
  - intros H. apply drop_trailing_head_inv in H.
    eapply drop_leading_head; eauto.
  - apply drop_trailing_back.
Qed.

End AdapterFacts.

(** C5, as the code has it. The post-processing of src/src/OCRProcessor.cpp
    is: strip leading and trailing whitespace; apply the thirteen
    replacements of its table in order, each from left to right; trim leading
    and trailing characters of the punctuation set; then collapse every run
    of two or more spaces to a single space (the empty string is allowed). The
    second variant substitutes nothing and trims no punctuation: its result
    is the stripped text up to the length of its runs of spaces. *)
Theorem postProcessText_stage_by_stage :
  forall text : CString.cstring,
    Adapter.postProcessText text =
      Adapter.Spec.collapse
        (Adapter.Spec.trim
           (Adapter.Spec.substitute_table (Adapter.Spec.strip text))) /\
    Adapter.Spec.collapse (Adapter.V2.postProcessText text) =
      Adapter.Spec.collapse (Adapter.Spec.strip text).
Proof.
  intros text. split.
  - apply postProcessText_stages.
  - rewrite V2_postProcessText_stages. unfold Adapter.V2.collapse_spaces.
    apply V2_collapse_loop_keeps.
Qed.

(** C5 as stated fails: the first variant turns the digit 0 into the letter
    o, which steps 1 to 4 of the specification leave alone; the second
    variant keeps a leading full stop, which step 3 trims. *)
Lemma postprocess_spec_counterexample :
  Adapter.postProcessText (CString.lit "0") = CString.lit "o" /\
  Adapter.Spec.postprocess (CString.lit "0") = CString.lit "0" /\
  Adapter.postProcessText (CString.lit "0")
    <> Adapter.Spec.postprocess (CString.lit "0") /\
  Adapter.V2.postProcessText (CString.lit ".a") = CString.lit ".a" /\
  Adapter.Spec.postprocess (CString.lit ".a") = CString.lit "a" /\
  Adapter.V2.postProcessText (CString.lit ".a")
    <> Adapter.Spec.postprocess (CString.lit ".a").
Proof.
  repeat split; try reflexivity; vm_compute; discriminate.
Qed.

(** C9, as the code has it. One application of the post-processing of
    src/src/OCRProcessor.cpp leaves no two adjacent spaces and neither begins
    nor ends with a character of the punctuation set; one application of the
    second variant neither begins nor ends with whitespace. *)
Theorem postProcessText_output_shape :
  forall text : CString.cstring,
    let out := Adapter.postProcessText text in
    let out2 := Adapter.V2.postProcessText text in
    CString.find0 Adapter.two_spaces out = None /\
    (forall c, hd_error out = Some c ->
               CString.mem c Adapter.punctuation = false) /\
    (forall c, CString.back out = Some c ->
               CString.mem c Adapter.punctuation = false) /\
    (forall c, hd_error out2 = Some c ->
               CString.mem c Adapter.whitespace = false) /\
    (forall c, CString.back out2 = Some c ->
               CString.mem c Adapter.whitespace = false).
Proof.
  intros text out out2. subst out out2.
  rewrite postProcessText_stages, V2_postProcessText_stages.
  unfold Adapter.Spec.postprocess_with_table, Adapter.V2.collapse_spaces.
  destruct (V2_collapse_loop_keeps
              (length (Adapter.Spec.strip text)) (Adapter.Spec.strip text) 0)
    as (_ & Hh & Hb).
  cbv zeta in Hh, Hb. rewrite Hh, Hb, collapse_head, collapse_back.
  split; [apply collapse_no_run|].
  unfold Adapter.Spec.trim, Adapter.Spec.strip.
  split; [|split; [|split]]; intros c; apply both_ends_clear.
Qed.

Lemma postProcessText_output_shape_witness :
  CString.mem " "%char Adapter.punctuation = false.
Proof.
  exact (proj1 (proj2 (postProcessText_output_shape (CString.lit ". a")))
           " "%char eq_refl).
Defined.

(** C9 as stated fails: neither variant is idempotent. The first leaves the
    space that followed a trimmed full stop, and strips it when applied
    again; the second shortens a run of three spaces to two, and to one when
    applied again; it also keeps leading punctuation. *)
Lemma postProcessText_idempotence_counterexample :
  Adapter.postProcessText (CString.lit ". a") = CString.lit " a" /\
  Adapter.postProcessText (Adapter.postProcessText (CString.lit ". a"))
    = CString.lit "a" /\
  Adapter.postProcessText (Adapter.postProcessText (CString.lit ". a"))
    <> Adapter.postProcessText (CString.lit ". a") /\
  Adapter.V2.postProcessText (CString.lit "a   b") = CString.lit "a  b" /\
  Adapter.V2.postProcessText
    (Adapter.V2.postProcessText (CString.lit "a   b")) = CString.lit "a b" /\
  Adapter.V2.postProcessText
    (Adapter.V2.postProcessText (CString.lit "a   b"))
    <> Adapter.V2.postProcessText (CString.lit "a   b") /\
  Adapter.V2.postProcessText (CString.lit ".a") = CString.lit ".a".
Proof.
  repeat split; try reflexivity; vm_compute; discriminate.
Qed.

(** ** More on the post-processing *)

Section PostProcessingFacts.
Import CString Adapter Glyphs.

(** *** Characters that no stage brings in *)

Lemma drop_leading_incl set s c :
  In c (Spec.drop_leading set s) -> In c s.
Proof.
  induction s as [|d r IH]; [auto|]. cbn [Spec.drop_leading].
  destruct (mem d set); [right; auto | auto].
Qed.

Lemma drop_trailing_incl set s c :
  In c (Spec.drop_trailing set s) -> In c s.
Proof.
  induction s as [|d r IH]; [auto|]. cbn [Spec.drop_trailing].
  destruct (Spec.drop_trailing set r) as [|x xs].
  - destruct (mem d set); [contradiction|].
    intros [H|H]; [left; exact H | contradiction].
  - intros [H|H]; [left; exact H | right; apply IH; exact H].
Qed.

Lemma collapse_incl s c : In c (Spec.collapse s) -> In c s.
Proof.
  induction s as [|d r IH]; [auto|].
  destruct r as [|e r]; [auto|].
  rewrite collapse_cons.
  destruct (starts_with two_spaces (d :: e :: r)).
  - intros H. right. apply IH. exact H.
  - intros [H|H]; [left; exact H | right; apply IH; exact H].
Qed.

Lemma substitute_from_incl from to k s c :
  In c (Spec.substitute_from from to k s) -> In c s \/ In c to.
Proof.
  revert k. induction s as [|d r IH]; intros k H; [contradiction|].
  cbn [Spec.substitute_from] in H. destruct k as [|k].
  - destruct (starts_with from (d :: r)).
    + apply in_app_or in H. destruct H as [H|H]; [right; exact H|].
      destruct (IH _ H) as [H'|H']; [left; right; exact H' | right; exact H'].
    + destruct H as [H|H]; [left; left; exact H|].
      destruct (IH _ H) as [H'|H']; [left; right; exact H' | right; exact H'].
  - destruct (IH _ H) as [H'|H']; [left; right; exact H' | right; exact H'].
Qed.

Lemma substitute_incl from to s c :
  In c (Spec.substitute from to s) -> In c s \/ In c to.
Proof. apply substitute_from_incl. Qed.

(** Replacing a character by a string that does not hold it removes it. *)
Lemma substitute_removes d to s :
  ~ In d to -> ~ In d (Spec.substitute [d] to s).
Proof.
  intros Hto. induction s as [|c r IH]; [auto|].
  rewrite substitute_cons. cbn [starts_with length Nat.sub skipn].
  rewrite andb_true_r. destruct (Ascii.eqb_spec d c) as [->|Hne].
  - intros H. apply in_app_or in H. destruct H; contradiction.
  - intros [H|H]; [congruence | contradiction].
Qed.

Lemma substitute_entries_keeps_out rs s c :
  Forall (fun r => ~ In c (snd r)) rs ->
  ~ In c s -> ~ In c (substitute_entries rs s).
Proof.
  intros Hall. revert s. induction Hall as [|r rs Hr _ IH]; intros s Hs.
  - exact Hs.
  - cbn [substitute_entries fold_left]. apply IH. intros H.
    apply substitute_incl in H. destruct H; contradiction.
Qed.

Lemma substitute_entries_removes pre d to post s :
  ~ In d to ->
  Forall (fun r => ~ In d (snd r)) post ->
  ~ In d (substitute_entries (pre ++ ([d], to) :: post) s).
Proof.
  intros Hto Hpost. unfold substitute_entries. rewrite fold_left_app.
  cbn [fold_left fst snd].
  apply (@substitute_entries_keeps_out post _ d Hpost).
  apply substitute_removes. exact Hto.
Qed.

End PostProcessingFacts.

Section ReplacedCharacters.
Import CString Adapter Glyphs.

Ltac gone k to :=
  match goal with
  | |- ~ In ?c (Spec.substitute_table ?s) =>
      refine (@substitute_entries_removes (firstn k replacements) c to
                (skipn (S k) replacements) s _ _);
      [ intros [H|[]]; discriminate
      | cbn [skipn replacements];
        repeat constructor; cbn [snd lit list_ascii_of_string];
        intros [H|[]]; discriminate ]
  end.

Lemma substitute_table_removes s c :
  In c replaced -> ~ In c (Spec.substitute_table s).
Proof.
  unfold replaced. cbn [lit list_ascii_of_string app].
  intros [<-|[<-|[<-|[<-|[<-|[<-|[<-|[<-|[]]]]]]]]].
  - gone 0%nat (lit "l").
  - gone 1%nat (lit "l").
  - gone 2%nat (lit "l").
  - gone 3%nat (lit "'").
  - gone 8%nat (lit "l").
  - gone 10%nat (lit "o").
  - gone 11%nat (lit "l").
  - gone 12%nat (lit "s").
Qed.

End ReplacedCharacters.

Lemma replaced_characters_are_dropped text c :
  In c Glyphs.replaced -> ~ In c (Adapter.postProcessText text).
Proof.
  intros Hc Hin. rewrite postProcessText_stages in Hin.
  unfold Adapter.Spec.postprocess_with_table, Adapter.Spec.trim in Hin.
  apply collapse_incl, drop_trailing_incl, drop_leading_incl in Hin.
  exact (substitute_table_removes _ Hc Hin).
Qed.

(** X1. The text that [postProcessText] of src/src/OCRProcessor.cpp returns
    never holds a vertical bar, a bracket, a backquote, a backslash or one of
    the digits 0, 1 and 5: the table replaces each of them and no later stage
    brings one back. *)
Theorem postProcessText_drops_replaced_characters :
  forall (text : CString.cstring) (c : ascii),
    In c Glyphs.replaced -> ~ In c (Adapter.postProcessText text).
Proof.
  intros text c. apply replaced_characters_are_dropped.
Qed.

Lemma postProcessText_drops_replaced_characters_witness :
  ~ In "5"%char (Adapter.postProcessText (CString.lit " 15 | 50 ")).
Proof.
  apply postProcessText_drops_replaced_characters.
  vm_compute. tauto.
Defined.

Section LengthFacts.
Import CString Adapter Glyphs.

Lemma drop_leading_length set s :
  (length (Spec.drop_leading set s) <= length s)%nat.
Proof.
  induction s as [|c r IH]; [reflexivity|]. cbn [Spec.drop_leading].
  destruct (mem c set); simpl; lia.
Qed.

Lemma drop_trailing_length set s :
  (length (Spec.drop_trailing set s) <= length s)%nat.
Proof.
  induction s as [|c r IH]; [reflexivity|]. cbn [Spec.drop_trailing].
  destruct (Spec.drop_trailing set r) as [|x xs].
  - destruct (mem c set); simpl; lia.
  - simpl in *. lia.
Qed.

Lemma collapse_length s : (length (Spec.collapse s) <= length s)%nat.
Proof.
  induction s as [|c r IH]; [reflexivity|].
  destruct r as [|d r]; [reflexivity|]. rewrite collapse_cons.
  destruct (starts_with two_spaces (c :: d :: r));
    cbn [length] in *; lia.
Qed.

Lemma shorten_runs_cons c d r :
  V2.shorten_runs (c :: d :: r) =
  if starts_with two_spaces (c :: d :: r) then c :: V2.shorten_runs r
  else c :: V2.shorten_runs (d :: r).
Proof. reflexivity. Qed.

Lemma shorten_runs_length s : (length (V2.shorten_runs s) <= length s)%nat.
Proof.
  assert (H : forall n s, (length s <= n)%nat ->
                          (length (V2.shorten_runs s) <= length s)%nat).
  { intros n. induction n as [|n IH]; intros t Hn.
    - destruct t; [reflexivity | simpl in Hn; lia].
    - destruct t as [|c [|d r]]; [reflexivity | reflexivity |].
      rewrite shorten_runs_cons.
      destruct (starts_with two_spaces (c :: d :: r)).
      + cbn [length] in *. specialize (IH r). lia.
      + cbn [length] in *. specialize (IH (d :: r)). cbn [length] in IH.
        lia. }
  apply (H (length s) s). reflexivity.
Qed.

Lemma starts_with_length pat s :
  starts_with pat s = true -> (length pat <= length s)%nat.
Proof.
  intros H. apply starts_with_split in H.
  apply (f_equal (@length ascii)) in H. rewrite length_app in H. lia.
Qed.

Lemma substitute_from_length from to k s :
  shrinking (from, to) ->
  (k <= length s)%nat ->
  (length (Spec.substitute_from from to k s) + k <= length s)%nat.
Proof.
  intros [Hne Hle]. cbn [fst snd] in *.
  assert (Hpos : (0 < length from)%nat).
  { destruct from; [congruence | simpl; lia]. }
  revert k. induction s as [|c r IH]; intros k Hk.
  - simpl in *. lia.
  - cbn [Spec.substitute_from]. destruct k as [|k].
    + destruct (starts_with from (c :: r)) eqn:E.
      * apply starts_with_length in E. cbn [length] in *.
        rewrite length_app. specialize (IH (length from - 1)%nat). lia.
      * cbn [length]. specialize (IH 0%nat). lia.
    + cbn [length] in *. specialize (IH k). lia.
Qed.

Lemma substitute_entries_length rs s :
  Forall shrinking rs ->
  (length (substitute_entries rs s) <= length s)%nat.
Proof.
  intros Hall. revert s. induction Hall as [|r rs Hr _ IH]; intros s.
  - reflexivity.
  - cbn [substitute_entries fold_left]. etransitivity; [apply IH|].
    destruct r as [from to].
    pose proof (@substitute_from_length from to 0 s Hr (Nat.le_0_l _)).
    unfold Spec.substitute. cbn [fst snd]. lia.
Qed.

Lemma replacements_shrink : Forall shrinking replacements.
Proof.
  unfold replacements, shrinking.
  repeat constructor; cbn; try discriminate; lia.
Qed.

Lemma strip_length s : (length (Spec.strip s) <= length s)%nat.
Proof.
  unfold Spec.strip. etransitivity; [apply drop_trailing_length|].
  apply drop_leading_length.
Qed.

Lemma V2_postProcessText_shorten text :
  V2.postProcessText text = V2.shorten_runs (Spec.strip text).
Proof.
  rewrite V2_postProcessText_stages. unfold V2.collapse_spaces.
  apply (@V2_collapse_loop_fuel _ [] (Spec.strip text)). reflexivity.
Qed.

End LengthFacts.

(** X2. Neither variant of [postProcessText] ever returns a text longer than
    the one it was given: every entry of the replacement table puts at most as
    many characters as it takes, and the other stages only delete. *)
Theorem postProcessText_never_longer :
  forall text : CString.cstring,
    (length (Adapter.postProcessText text) <= length text)%nat /\
    (length (Adapter.V2.postProcessText text) <= length text)%nat.
Proof.
  intros text. split.
  - rewrite postProcessText_stages.
    unfold Adapter.Spec.postprocess_with_table, Adapter.Spec.trim.
    etransitivity; [apply collapse_length|].
    etransitivity; [apply drop_trailing_length|].
    etransitivity; [apply drop_leading_length|].
    etransitivity; [apply (substitute_entries_length _ replacements_shrink)|].
    apply strip_length.
  - rewrite V2_postProcessText_shorten.
    etransitivity; [apply shorten_runs_length | apply strip_length].
Qed.

Section VisibleFacts.
Import CString Adapter Glyphs.

Lemma drop_leading_visible s :
  filter visible (Spec.drop_leading whitespace s) = filter visible s.
Proof.
  induction s as [|c r IH]; [reflexivity|]. cbn [Spec.drop_leading].
  destruct (mem c whitespace) eqn:E; [|reflexivity].
  rewrite IH. cbn [filter]. unfold visible. rewrite E. reflexivity.
Qed.

Lemma drop_trailing_visible s :
  filter visible (Spec.drop_trailing whitespace s) = filter visible s.
Proof.
  induction s as [|c r IH]; [reflexivity|].
  cbn [Spec.drop_trailing]. cbn [filter]. rewrite <- IH.
  destruct (Spec.drop_trailing whitespace r) as [|x xs].
  - destruct (mem c whitespace) eqn:E; cbn [filter]; unfold visible;
      rewrite E; reflexivity.
  - reflexivity.
Qed.

Lemma two_spaces_invisible c d r :
  starts_with two_spaces (c :: d :: r) = true ->
  c = " "%char /\ d = " "%char.
Proof.
  rewrite starts_with_two_spaces. intros H.
  apply andb_true_iff in H. destruct H as [Hc Hd].
  unfold Spec.is_space in *. apply Ascii.eqb_eq in Hc, Hd. auto.
Qed.

Lemma shorten_runs_visible s :
  filter visible (V2.shorten_runs s) = filter visible s.
Proof.
  assert (H : forall n t, (length t <= n)%nat ->
                filter visible (V2.shorten_runs t) = filter visible t).
  { intros n. induction n as [|n IH]; intros t Hn.
    - destruct t; [reflexivity | simpl in Hn; lia].
    - destruct t as [|c [|d r]]; [reflexivity | reflexivity |].
      rewrite shorten_runs_cons.
      destruct (starts_with two_spaces (c :: d :: r)) eqn:E.
      + destruct (two_spaces_invisible _ _ _ E) as [-> ->].
        cbn [filter]. change (visible " "%char) with false. cbv iota.
        apply IH. cbn [length] in Hn. lia.
      + cbn [filter]. rewrite (IH (d :: r)) by (cbn [length] in *; lia).
        reflexivity. }
  apply (H (length s) s). reflexivity.
Qed.

Lemma V2_head_visible text c :
  hd_error (V2.postProcessText text) = Some c -> visible c = true.
Proof.
  rewrite V2_postProcessText_stages. unfold V2.collapse_spaces.
  destruct (V2_collapse_loop_keeps
              (length (Spec.strip text)) (Spec.strip text) 0)
    as (_ & Hh & _).
  cbv zeta in Hh. rewrite Hh. intros H. unfold visible.
  unfold Spec.strip in H.
  destruct (both_ends_clear whitespace text c) as [Hc _].
  rewrite (Hc H). reflexivity.
Qed.

End VisibleFacts.

(** X3. The second variant of [postProcessText] deletes whitespace and
    nothing else: the characters of its result that are not whitespace are
    those of the text it was given, in the same order; and it returns the
    empty string exactly when the text holds whitespace only. *)
Theorem V2_postProcessText_keeps_visible :
  forall text : CString.cstring,
    filter Glyphs.visible (Adapter.V2.postProcessText text)
      = filter Glyphs.visible text /\
    (Adapter.V2.postProcessText text = [] <->
     filter Glyphs.visible text = []).
Proof.
  intros text.
  assert (Hkeep : filter Glyphs.visible (Adapter.V2.postProcessText text)
                  = filter Glyphs.visible text).
  { rewrite V2_postProcessText_shorten, shorten_runs_visible.
    unfold Adapter.Spec.strip.
    rewrite drop_trailing_visible. apply drop_leading_visible. }
  split; [exact Hkeep|]. split.
  - intros H. rewrite <- Hkeep, H. reflexivity.
  - intros H. rewrite <- Hkeep in H.
    destruct (Adapter.V2.postProcessText text) as [|c out] eqn:E;
      [reflexivity|].
    pose proof (@V2_head_visible text c) as Hv. rewrite E in Hv.
    cbn [filter] in H. rewrite (Hv eq_refl) in H. discriminate.
Qed.

Lemma V2_postProcessText_keeps_visible_witness :
  Adapter.V2.postProcessText
    [" "%char; "009"%char; "010"%char; " "%char] = [].
Proof.
  apply (proj2 (proj2 (V2_postProcessText_keeps_visible
                         [" "%char; "009"%char; "010"%char; " "%char]))).
  reflexivity.
Defined.

(** X4. As long as the counter has not wrapped, the round-robin selection is
    exact: the request dispatched after [n] others goes to the processor of
    index [n mod size], so consecutive requests go to consecutive processors
    and any [size] consecutive dispatches use each processor once. *)
Theorem round_robin_is_exact :
  forall (dispatched : nat) (size : Z),
    (0 < size <= MachineInt.INT_MAX)%Z ->
    (Z.of_nat dispatched <= MachineInt.INT_MAX)%Z ->
    RoundRobin.processorIndex
      (fst (RoundRobin.fetch_inc (RoundRobin.counter_after dispatched))) size
    = (Z.of_nat dispatched mod size)%Z.
Proof.
  intros n size Hs Hn. cbn [RoundRobin.fetch_inc fst].
  rewrite counter_after_closed.
  unfold MachineInt.INT_MAX in *.
  rewrite int_wrap_id by (unfold MachineInt.INT_MIN, MachineInt.INT_MAX; lia).
  unfold RoundRobin.processorIndex.
  rewrite size_t_wrap_id by lia.
  pose proof (Z.mod_pos_bound (Z.of_nat n) size ltac:(lia)).
  apply int_wrap_id. unfold MachineInt.INT_MIN, MachineInt.INT_MAX. lia.
Qed.

Lemma round_robin_is_exact_witness :
  RoundRobin.processorIndex
    (fst (RoundRobin.fetch_inc (RoundRobin.counter_after 7))) 3 = 1%Z.
Proof.
  apply (@round_robin_is_exact 7 3%Z); unfold MachineInt.INT_MAX; lia.
Defined.

(** ** More on the session *)

Section ResultFacts.
Import MachineInt CString Session.

Lemma task_result_flags imageId text :
  let res := task_result imageId text in
  (OCRResult.success res = true <-> OCRResult.error_message res = ""%string) /\
  (OCRResult.success res = true <-> OCRResult.extracted_text res <> []) /\
  OCRResult.extracted_text res = text.
Proof.
  unfold task_result. destruct text as [|c text]; cbn.
  - repeat split; try discriminate; try congruence.
  - repeat split; try discriminate; try congruence.
Qed.

Lemma respond_flags E h :
  let res := respond E h in
  (OCRResult.success res = true <-> OCRResult.error_message res = ""%string) /\
  (OCRResult.success res = true <-> OCRResult.extracted_text res <> []).
Proof.
  unfold respond. destruct (snd h).
  - cbn. repeat split; try discriminate; try congruence.
  - cbn. repeat split; try discriminate; try congruence.
  - unfold run_task.
    destruct (task_result_flags (ImageRequest.image_id (fst h))
                (Adapter.processImage E (m_initialized p)
                   (ImageRequest.image_data (fst h)))) as (H1 & H2 & _).
    split; assumption.
Qed.

(** Whatever was written answers a request that was read. *)
Lemma written_is_response C requests s res ok :
  invariant C requests s ->
  In (res, ok) (stream_out s) ->
  exists h, res = respond (engine C) h /\ In (fst h) requests.
Proof.
  intros Hinv Hin. destruct (inv_history Hinv) as (served & Hreq & Hperm).
  assert (Hres : In res (map (respond (engine C)) served)).
  { eapply Permutation_in; [exact Hperm|]. apply in_or_app. left.
    apply (in_map fst) in Hin. exact Hin. }
  apply in_map_iff in Hres. destruct Hres as (h & Hh & Hserved).
  exists h. split; [symmetry; exact Hh|].
  rewrite Hreq. apply in_or_app. left. apply in_map. exact Hserved.
Qed.

End ResultFacts.

(** X5. Every result a session writes is consistent: it carries the
    [image_id] of a request of the session, its [error_message] is empty
    exactly when [success] is true, and its [extracted_text] is non-empty
    exactly when [success] is true. *)
Theorem written_results_are_consistent :
  forall (C : Session.Config) (requests : list ImageRequest.t)
         (s : Session.State) (res : OCRResult.t) (ok : bool),
    Session.well_formed C ->
    Forall Session.fits requests ->
    Session.reachable C requests s ->
    In (res, ok) (Session.stream_out s) ->
    (exists r, In r requests /\
               OCRResult.image_id res = ImageRequest.image_id r) /\
    (OCRResult.success res = true <->
     OCRResult.error_message res = ""%string) /\
    (OCRResult.success res = true <-> OCRResult.extracted_text res <> []).
Proof.
  intros C requests s res ok Hwf Hfits Hreach Hin.
  pose proof (reachable_invariant Hwf Hfits Hreach) as Hinv.
  destruct (written_is_response _ _ Hinv Hin) as (h & -> & Hr).
  split.
  - exists (fst h). split; [exact Hr | apply respond_echo].
  - apply respond_flags.
Qed.

Lemma written_results_are_consistent_witness :
  exists r, In r [Samples.hello; Samples.blank; Samples.noise] /\
            ImageRequest.image_id Samples.blank = ImageRequest.image_id r.
Proof.
  assert (Hwf : Session.well_formed Samples.two_workers).
  { unfold Session.well_formed. split; [discriminate|].
    split; [simpl; lia | vm_compute; discriminate]. }
  assert (Hfits : Forall Session.fits
                    [Samples.hello; Samples.blank; Samples.noise])
    by (repeat constructor; vm_compute; reflexivity).
  assert (Hreach :
    Session.reachable Samples.two_workers
      [Samples.hello; Samples.blank; Samples.noise]
      {| Session.stream_in := [Samples.noise];
         Session.stream_out := [(Session.empty_rejection Samples.blank, true)];
         Session.reader := Session.AtRead;
         Session.g_activeImageSize := 8;
         Session.activeTasks := 1;
         Session.m_nextProcessorIndex := 1;
         Session.m_threadPool :=
           {| ThreadPool.m_tasks :=
                [ {| Session.request := Samples.hello;
                     Session.processor := Samples.first_processor |} ];
              ThreadPool.m_activeTasks := 1 |};
         Session.processing := []; Session.finishing := [] |}).
  { exists [Session.Read true; Session.Pass true;
            Session.Read true; Session.Pass true]. reflexivity. }
  exact (proj1 (@written_results_are_consistent _ _ _ _ _ Hwf Hfits Hreach
                  (or_introl eq_refl))).
Defined.

Section TextFacts.
Import CString Adapter Session.

Lemma postProcessText_no_run text :
  find0 two_spaces (postProcessText text) = None.
Proof.
  rewrite postProcessText_stages. apply collapse_no_run.
Qed.

(** Every path through [processImage] ends in the empty string or in a
    post-processed text. *)
Lemma processImage_cases E init data :
  processImage E init data = [] \/
  exists raw, processImage E init data = postProcessText raw.
Proof.
  unfold processImage. destruct (negb init); [left; reflexivity|].
  destruct (is_empty data); [left; reflexivity|].
  destruct (cleanImage E data) as [pix|]; [|left; reflexivity].
  destruct (GetUTF8Text E pix) as [| |t]; [left; reflexivity | |];
    right; eexists; reflexivity.
Qed.

Lemma respond_text E h :
  OCRResult.extracted_text (respond E h) = [] \/
  exists raw, OCRResult.extracted_text (respond E h) = postProcessText raw.
Proof.
  unfold respond. destruct (snd h); [left; reflexivity | left; reflexivity |].
  unfold run_task. cbn [request processor].
  destruct (task_result_flags (ImageRequest.image_id (fst h))
              (processImage E (m_initialized p)
                 (ImageRequest.image_data (fst h)))) as (_ & _ & Ht).
  cbv zeta in Ht. rewrite Ht. apply processImage_cases.
Qed.

End TextFacts.

(** X6. The post-processing reaches the client: in no result that a session
    writes does [extracted_text] hold a vertical bar, a bracket, a backquote,
    a backslash or a digit 0, 1 or 5, nor two adjacent spaces, whichever path
    [processImage] took. *)
Theorem written_text_is_post_processed :
  forall (C : Session.Config) (requests : list ImageRequest.t)
         (s : Session.State) (res : OCRResult.t) (ok : bool),
    Session.well_formed C ->
    Forall Session.fits requests ->
    Session.reachable C requests s ->
    In (res, ok) (Session.stream_out s) ->
    (forall c, In c Glyphs.replaced ->
               ~ In c (OCRResult.extracted_text res)) /\
    CString.find0 Adapter.two_spaces (OCRResult.extracted_text res) = None.
Proof.
  intros C requests s res ok Hwf Hfits Hreach Hin.
  pose proof (reachable_invariant Hwf Hfits Hreach) as Hinv.
  destruct (written_is_response _ _ Hinv Hin) as (h & -> & _).
  destruct (respond_text (Session.engine C) h) as [-> | [raw ->]].
  - split; [intros c _ []| reflexivity].
  - split.
    + intros c Hc. apply replaced_characters_are_dropped.
      exact Hc.
    + apply postProcessText_no_run.
Qed.

Lemma written_text_is_post_processed_witness :
  CString.find0 Adapter.two_spaces
    (OCRResult.extracted_text Samples.result_a) = None.
Proof.
  assert (Hwf : Session.well_formed Samples.two_workers).
  { unfold Session.well_formed. split; [discriminate|].
    split; [simpl; lia | vm_compute; discriminate]. }
  assert (Hfits : Forall Session.fits [Samples.hello])
    by (repeat constructor; vm_compute; reflexivity).
  assert (Hreach :
    Session.reachable Samples.two_workers [Samples.hello]
      {| Session.stream_in := [];
         Session.stream_out := [(Samples.result_a, true)];
         Session.reader := Session.AtRead;
         Session.g_activeImageSize := 0;
         Session.activeTasks := 0;
         Session.m_nextProcessorIndex := 1;
         Session.m_threadPool :=
           {| ThreadPool.m_tasks := []; ThreadPool.m_activeTasks := 0 |};
         Session.processing := []; Session.finishing := [] |}).
  { exists [Session.Read true; Session.Pass true; Session.Take;
            Session.Process 0; Session.Emit 0 true]. reflexivity. }
  exact (proj2 (@written_text_is_post_processed _ _ _ _ _ Hwf Hfits Hreach
                  (or_introl eq_refl))).
Defined.

(** ** Construction and clean-up *)

Section ServiceFacts.
Import MachineInt Session Service.
Open Scope Z_scope.

Lemma create_processors_initialized inits :
  Forall (fun p => m_initialized p = true) (create_processors inits).
Proof.
  induction inits as [|i rest IH]; [constructor|].
  cbn [create_processors]. unfold initialize.
  destruct (i =? 0); [constructor; [reflexivity | exact IH] | exact IH].
Qed.

Lemma create_processors_length inits :
  (length (create_processors inits) <= length inits)%nat.
Proof.
  induction inits as [|i rest IH]; [reflexivity|].
  cbn [create_processors]. unfold initialize.
  destruct (i =? 0); cbn [length]; lia.
Qed.

Lemma create_processors_none inits :
  create_processors inits = [] <-> Forall (fun i => i <> 0) inits.
Proof.
  induction inits as [|i rest IH]; [split; [constructor | reflexivity]|].
  cbn [create_processors]. unfold initialize.
  destruct (Z.eqb_spec i 0) as [->|Hne].
  - split; [discriminate|]. intros H. inversion H; subst. congruence.
  - rewrite IH. split.
    + intros H. constructor; assumption.
    + intros H. inversion H; assumption.
Qed.

End ServiceFacts.

(** X7. The constructor of the service throws exactly when Tesseract's
    [Init] fails for every one of the [numThreads] processors (in particular
    when [numThreads] is 0). Otherwise the service holds between 1 and
    [numThreads] processors, all of them initialised, and, [numThreads]
    fitting an [int], it is a configuration on which sessions run. *)
Theorem constructor_keeps_initialized_processors :
  forall (E : Adapter.Engine) (numThreads : nat) (Init : nat -> Z),
    (Service.construct E numThreads Init = None <->
     forall i, (i < numThreads)%nat -> Init i <> 0%Z) /\
    (forall C,
        Service.construct E numThreads Init = Some C ->
        Session.engine C = E /\
        Session.numThreads C = numThreads /\
        (1 <= length (Session.m_processors C) <= numThreads)%nat /\
        Forall (fun p => Session.m_initialized p = true)
               (Session.m_processors C) /\
        ((Z.of_nat numThreads
          <= MachineInt.INT_MAX - Session.MAX_CONCURRENT_TASKS)%Z ->
         Session.well_formed C)).
Proof.
  intros E n Init. unfold Service.construct.
  pose proof (create_processors_none (map Init (seq 0 n))) as Hnone.
  pose proof (create_processors_length (map Init (seq 0 n))) as Hlen.
  pose proof (create_processors_initialized (map Init (seq 0 n))) as Hini.
  rewrite length_map, length_seq in Hlen.
  assert (Hall : Forall (fun i => i <> 0%Z) (map Init (seq 0 n)) <->
                 forall i, (i < n)%nat -> Init i <> 0%Z).
  { rewrite Forall_map, Forall_forall. split.
    - intros H i Hi. apply H. apply in_seq. lia.
    - intros H i Hi. apply in_seq in Hi. apply H. lia. }
  destruct (Service.create_processors (map Init (seq 0 n))) as [|p ps] eqn:Ec.
  - split.
    + rewrite <- Hall, <- Hnone. split; reflexivity.
    + intros C H. discriminate.
  - split.
    + split; [discriminate|]. intros H. apply Hall, Hnone in H. discriminate.
    + intros C H. inversion H; subst C; clear H. cbn.
      cbn [length] in Hlen.
      repeat split; try assumption; try lia; try discriminate.
Qed.

Lemma constructor_keeps_initialized_processors_witness :
  Service.construct Samples.toy_engine 0 (fun _ => 0%Z) = None.
Proof.
  apply (proj1 (constructor_keeps_initialized_processors
                  Samples.toy_engine 0 (fun _ => 0%Z))).
  intros i Hi. lia.
Defined.

(** X8. A round of [memoryCleanupTask] keeps the number of processors, so
    the configuration stays one on which sessions run and the round-robin
    selection stays in bounds; but the service does not look at the result of
    the re-initialisation: a slot whose [Init] failed stays in the rotation,
    and every image dispatched to it is answered with [success = false] and
    [OCR failed to extract text], whatever the image. *)
Theorem cleanup_keeps_failed_processors :
  forall (C : Session.Config) (Init : nat -> Z),
    Session.well_formed C ->
    let C' := Service.after_cleanup Init C in
    Session.well_formed C' /\
    length (Session.m_processors C') = length (Session.m_processors C) /\
    (forall i p,
        nth_error (Session.m_processors C') i = Some p ->
        (Session.m_initialized p = true <-> Init i = 0%Z)) /\
    (forall i p r,
        nth_error (Session.m_processors C') i = Some p ->
        Init i <> 0%Z ->
        Session.run_task (Session.engine C')
          {| Session.request := r; Session.processor := p |} =
        {| OCRResult.image_id := ImageRequest.image_id r;
           OCRResult.extracted_text := [];
           OCRResult.success := false;
           OCRResult.error_message := "OCR failed to extract text" |}).
Proof.
  intros C Init (Hne & Hle & Hnt) C'. subst C'.
  unfold Service.after_cleanup, Service.memoryCleanup.
  cbn [Session.m_processors Session.engine Session.numThreads].
  assert (Hlen : length
            (map (fun i => snd (Service.initialize (Init i)
                                  Service.new_processor))
               (seq 0 (length (Session.m_processors C))))
          = length (Session.m_processors C))
    by (rewrite length_map, length_seq; reflexivity).
  assert (Hnth : forall i p,
            nth_error
              (map (fun i => snd (Service.initialize (Init i)
                                    Service.new_processor))
                 (seq 0 (length (Session.m_processors C)))) i = Some p ->
            p = snd (Service.initialize (Init i) Service.new_processor)).
  { intros i p H. rewrite nth_error_map in H.
    destruct (nth_error (seq 0 (length (Session.m_processors C))) i)
      as [j|] eqn:Ej; [|discriminate].
    assert (Hi : (i < length (seq 0 (length (Session.m_processors C))))%nat)
      by (apply nth_error_Some; congruence).
    rewrite length_seq in Hi.
    rewrite (nth_error_nth' _ 0%nat) in Ej by (rewrite length_seq; exact Hi).
    rewrite seq_nth in Ej by exact Hi. inversion Ej; subst j.
    cbn in H. inversion H. reflexivity. }
  split; [|split; [exact Hlen|split]].
  - unfold Session.well_formed.
    cbn [Session.m_processors Session.numThreads]. rewrite Hlen.
    split; [|split; assumption].
    intros Hnil. apply (f_equal (@length _)) in Hnil. rewrite Hlen in Hnil.
    destruct (Session.m_processors C); [congruence | discriminate].
  - intros i p H. rewrite (Hnth i p H). unfold Service.initialize.
    destruct (Z.eqb_spec (Init i) 0) as [E|E]; cbn.
    + split; auto.
    + split; [discriminate | contradiction].
  - intros i p r H Hfail. rewrite (Hnth i p H). unfold Service.initialize.
    destruct (Z.eqb_spec (Init i) 0) as [E|E]; [contradiction|].
    reflexivity.
Qed.

Lemma cleanup_keeps_failed_processors_witness :
  length (Session.m_processors
            (Service.after_cleanup (fun _ => 1%Z) Samples.two_workers)) = 2%nat.
Proof.
  refine (proj1 (proj2 (@cleanup_keeps_failed_processors
                          Samples.two_workers (fun _ => 1%Z) _))).
  unfold Session.well_formed. split; [discriminate|].
  split; [simpl; lia | vm_compute; discriminate].
Defined.

(** ** The thread pool at work *)

Section PoolRunFacts.
Import MachineInt PoolRun.

Variable T : Type.
Variable numThreads : nat.

Lemma int_wrap_pred z : int_wrap (int_wrap z - 1) = int_wrap (z - 1).
Proof.
  unfold int_wrap.
  replace ((z + 2 ^ 31) mod 2 ^ 32 - 2 ^ 31 - 1 + 2 ^ 31)%Z
    with ((z + 2 ^ 31) mod 2 ^ 32 - 1)%Z by lia.
  replace (z - 1 + 2 ^ 31)%Z with ((z + 2 ^ 31) - 1)%Z by lia.
  rewrite Zminus_mod_idemp_l. reflexivity.
Qed.

Lemma pool_initial_invariant : invariant numThreads (initial T numThreads).
Proof.
  constructor; cbn; try reflexivity; try lia.
Qed.

Lemma pool_step_invariant a (s s' : State T) :
  invariant numThreads s -> step a s = Some s' -> invariant numThreads s'.
Proof.
  intros [Hfifo Hstarted Hbusy Hcount Hstop Hlate Hleft] Hstep.
  destruct a as [task| |k| |]; cbn [step] in Hstep.
  - (* Enqueue *)
    inversion Hstep; subst s'; clear Hstep.
    constructor; cbn.
    + rewrite app_assoc, Hfifo. reflexivity.
    + exact Hstarted.
    + exact Hbusy.
    + rewrite Hcount, int_wrap_succ. f_equal. rewrite length_app. cbn. lia.
    + exact Hstop.
    + intros E. rewrite E. auto.
    + intros Hw. destruct (Hleft Hw) as [before Hb].
      rewrite (Hstop Hw). exists before. rewrite Hb, app_assoc. reflexivity.
  - (* Take *)
    destruct (length (inside s) <? workers s)%nat eqn:Hidle; [|discriminate].
    apply Nat.ltb_lt in Hidle.
    unfold ThreadPool.take in Hstep.
    destruct (ThreadPool.m_tasks (pool s)) as [|task rest] eqn:Hq;
      [discriminate|].
    inversion Hstep; subst s'; clear Hstep.
    constructor; cbn.
    + rewrite <- app_assoc. exact Hfifo.
    + rewrite app_assoc. apply Permutation_app_tail. exact Hstarted.
    + rewrite length_app. cbn. lia.
    + rewrite Hcount. f_equal. rewrite length_app. cbn. lia.
    + exact Hstop.
    + exact Hlate.
    + intros Hw. destruct (Hleft Hw) as [before Hb].
      exists (before ++ [task]). rewrite <- app_assoc. exact Hb.
  - (* Done *)
    destruct (Session.pick k (inside s)) as [[task rest]|] eqn:Hpick;
      [|discriminate].
    inversion Hstep; subst s'; clear Hstep.
    pose proof (pick_length _ _ Hpick) as Hlen.
    pose proof (pick_perm _ _ Hpick) as Hperm.
    constructor; cbn.
    + exact Hfifo.
    + rewrite <- Hstarted, <- app_assoc. apply Permutation_app_head.
      cbn. symmetry. exact Hperm.
    + lia.
    + rewrite Hcount, int_wrap_pred. f_equal. lia.
    + exact Hstop.
    + exact Hlate.
    + exact Hleft.
  - (* Stop *)
    inversion Hstep; subst s'; clear Hstep.
    constructor; cbn; auto.
    intros E. discriminate.
  - (* Exit *)
    destruct (m_stop s) eqn:Hs; [|discriminate]. cbn [andb] in Hstep.
    destruct (length (inside s) <? workers s)%nat eqn:Hidle; [|discriminate].
    apply Nat.ltb_lt in Hidle.
    destruct (ThreadPool.m_tasks (pool s)) as [|task rest] eqn:Hq;
      [|discriminate].
    inversion Hstep; subst s'; clear Hstep.
    constructor; cbn; rewrite ?Hq; auto.
    + lia.
    + intros _. exists (late s). rewrite app_nil_r. reflexivity.
Qed.

Lemma pool_exec_invariant sched : forall (s s' : State T),
  invariant numThreads s -> exec sched s = Some s' ->
  invariant numThreads s'.
Proof.
  induction sched as [|a sched IH]; intros s s' Hinv Hexec; cbn in Hexec.
  - inversion Hexec; subst. exact Hinv.
  - destruct (step a s) as [s1|] eqn:Hstep; [|discriminate].
    eapply IH; [|exact Hexec]. eapply pool_step_invariant; eauto.
Qed.

Lemma pool_reachable_invariant sched (s : State T) :
  exec sched (initial T numThreads) = Some s -> invariant numThreads s.
Proof.
  apply pool_exec_invariant. apply pool_initial_invariant.
Qed.

Lemma pool_exec_app sched1 : forall sched2 (s s1 s2 : State T),
  exec sched1 s = Some s1 -> exec sched2 s1 = Some s2 ->
  exec (sched1 ++ sched2) s = Some s2.
Proof.
  induction sched1 as [|a sched1 IH]; intros sched2 s s1 s2 H1 H2;
    cbn in H1 |- *.
  - inversion H1; subst. exact H2.
  - destruct (step a s) as [s'|]; [|discriminate]. eapply IH; eauto.
Qed.

(** The tasks in flight bound the counter. *)
Lemma pool_in_flight (s : State T) :
  invariant numThreads s ->
  (length (ThreadPool.m_tasks (pool s)) + length (inside s)
   <= length (enqueued s))%nat.
Proof.
  intros [Hfifo Hstarted _ _ _ _ _].
  rewrite <- Hfifo, length_app.
  apply Permutation_length in Hstarted. rewrite length_app in Hstarted. lia.
Qed.

Lemma pool_idle (s : State T) :
  invariant numThreads s ->
  (Z.of_nat numThreads <= INT_MAX)%Z ->
  ThreadPool.idle (pool s) = true <->
  ThreadPool.m_tasks (pool s) = [] /\ inside s = [].
Proof.
  intros Hinv Hn. pose proof (inv_busy Hinv) as Hbusy.
  pose proof (inv_count Hinv) as Hcount.
  unfold ThreadPool.idle.
  destruct (ThreadPool.m_tasks (pool s)) as [|task rest] eqn:Hq.
  - cbn in Hcount. rewrite Hcount, Z.eqb_eq. split.
    + intros H. split; [reflexivity|].
      rewrite int_wrap_id in H by (unfold INT_MIN, INT_MAX in *; lia).
      destruct (inside s); [reflexivity | cbn in H; lia].
    + intros [_ ->]. reflexivity.
  - split; [discriminate | intros [? _]; discriminate].
Qed.

Lemma pool_all_finished (s : State T) :
  invariant numThreads s ->
  ThreadPool.m_tasks (pool s) = [] -> inside s = [] ->
  Permutation (finished s) (enqueued s).
Proof.
  intros [Hfifo Hstarted _ _ _ _ _] Hq Hi.
  rewrite Hq, app_nil_r in Hfifo. rewrite Hi, app_nil_r in Hstarted.
  rewrite <- Hfifo. exact Hstarted.
Qed.

(** The workers can always empty the pool. *)
Lemma pool_finish_running : forall n (s : State T),
  length (inside s) = n ->
  exists s',
    exec (repeat (Done T 0) n) s = Some s' /\
    inside s' = [] /\
    ThreadPool.m_tasks (pool s') = ThreadPool.m_tasks (pool s) /\
    workers s' = workers s /\ enqueued s' = enqueued s /\
    m_stop s' = m_stop s.
Proof.
  induction n as [|n IH]; intros s Hlen.
  - exists s. destruct (inside s); [|discriminate]. cbn. auto 6.
  - destruct (inside s) as [|task rest] eqn:Hi; [discriminate|].
    cbn [repeat exec step]. rewrite Hi, pick_head.
    match goal with |- context [exec _ ?s1] =>
      destruct (IH s1) as (s' & He & H1 & H2 & H3 & H4 & H5) end.
    { cbn in Hlen |- *. lia. }
    exists s'. cbn in H2, H3, H4, H5. auto 6.
Qed.

Lemma pool_run_queue : forall queue (s : State T),
  ThreadPool.m_tasks (pool s) = queue ->
  inside s = [] -> (0 < workers s)%nat ->
  exists s',
    exec (flat_map (fun _ => [Take T; Done T 0]) queue) s = Some s' /\
    inside s' = [] /\ ThreadPool.m_tasks (pool s') = [] /\
    workers s' = workers s /\ enqueued s' = enqueued s /\
    m_stop s' = m_stop s.
Proof.
  induction queue as [|task queue IH]; intros s Hq Hi Hw.
  - exists s. cbn. auto 6.
  - cbn [flat_map app exec step]. rewrite Hi. cbn [length].
    destruct (Nat.ltb_spec 0 (workers s)) as [_|]; [|lia].
    unfold ThreadPool.take. rewrite Hq. cbn [inside app].
    rewrite pick_head.
    match goal with |- context [exec _ ?s1] =>
      destruct (IH s1) as (s' & He & H1 & H2 & H3 & H4 & H5) end;
      try reflexivity.
    { cbn. exact Hw. }
    exists s'. cbn in H3, H4, H5. auto 6.
Qed.

Lemma pool_drain (s : State T) :
  (0 < workers s)%nat ->
  exists sched s',
    exec sched s = Some s' /\
    inside s' = [] /\ ThreadPool.m_tasks (pool s') = [] /\
    workers s' = workers s /\ enqueued s' = enqueued s /\
    m_stop s' = m_stop s.
Proof.
  intros Hw.
  destruct (@pool_finish_running (length (inside s)) s eq_refl)
    as (s1 & He1 & Hi1 & Hq1 & Hw1 & Hen1 & Hs1).
  destruct (@pool_run_queue (ThreadPool.m_tasks (pool s1)) s1 eq_refl Hi1)
    as (s2 & He2 & Hi2 & Hq2 & Hw2 & Hen2 & Hs2); [lia|].
  exists (repeat (Done T 0) (length (inside s))
          ++ flat_map (fun _ => [Take T; Done T 0])
               (ThreadPool.m_tasks (pool s1))), s2.
  split; [eapply pool_exec_app; eauto|].
  repeat split; congruence.
Qed.

End PoolRunFacts.

Section PoolStuckFacts.
Import PoolRun.

Variable T : Type.

(** Once the last worker has returned, what is in the queue stays there. *)
Lemma pool_stuck sched : forall (s s' : State T),
  workers s = 0%nat -> ThreadPool.m_tasks (pool s) <> [] ->
  exec sched s = Some s' ->
  workers s' = 0%nat /\ ThreadPool.m_tasks (pool s') <> [].
Proof.
  induction sched as [|a sched IH]; intros s s' Hw Hq Hexec; cbn in Hexec.
  - inversion Hexec; subst. auto.
  - destruct (step a s) as [s1|] eqn:Hstep; [|discriminate].
    apply (IH s1 s'); [| |exact Hexec];
      destruct a as [task| |k| |]; cbn [step] in Hstep.
    + inversion Hstep; subst s1. exact Hw.
    + rewrite Hw in Hstep. discriminate.
    + destruct (Session.pick k (inside s)) as [[task rest]|];
        [|discriminate].
      inversion Hstep; subst s1. exact Hw.
    + inversion Hstep; subst s1. exact Hw.
    + rewrite Hw, andb_false_r in Hstep. discriminate.
    + inversion Hstep; subst s1. cbn.
      intros E. apply app_eq_nil in E. destruct E as [_ E]. discriminate.
    + rewrite Hw in Hstep. discriminate.
    + destruct (Session.pick k (inside s)) as [[task rest]|];
        [|discriminate].
      inversion Hstep; subst s1. exact Hq.
    + inversion Hstep; subst s1. exact Hq.
    + rewrite Hw, andb_false_r in Hstep. discriminate.
Qed.

End PoolStuckFacts.

(** X9. The pool starts tasks in the order of [enqueue]: in every state the
    tasks the workers have taken, followed by the queue, are the tasks
    enqueued, in that order. A task taken is either being run or finished,
    never both and never twice, and at most [numThreads] tasks are being run
    at a time. *)
Theorem pool_starts_tasks_in_order :
  forall (T : Type) (numThreads : nat) (sched : list (PoolRun.action T))
         (s : PoolRun.State T),
    PoolRun.exec sched (PoolRun.initial T numThreads) = Some s ->
    PoolRun.started s ++ ThreadPool.m_tasks (PoolRun.pool s)
      = PoolRun.enqueued s /\
    Permutation (PoolRun.finished s ++ PoolRun.inside s) (PoolRun.started s) /\
    (length (PoolRun.inside s) <= numThreads)%nat.
Proof.
  intros T numThreads sched s Hexec.
  pose proof (@pool_reachable_invariant _ _ _ _ Hexec) as Hinv.
  split; [exact (PoolRun.inv_fifo Hinv)|].
  split; [exact (PoolRun.inv_started Hinv)|].
  pose proof (PoolRun.inv_busy Hinv). lia.
Qed.

Lemma pool_starts_tasks_in_order_witness :
  [1; 2]%nat ++ [3]%nat = [1; 2; 3]%nat /\
  Permutation ([2]%nat ++ [1]%nat) [1; 2]%nat /\ (1 <= 2)%nat.
Proof.
  exact (@pool_starts_tasks_in_order nat 2
           [PoolRun.Enqueue 1%nat; PoolRun.Enqueue 2%nat; PoolRun.Take nat;
            PoolRun.Enqueue 3%nat; PoolRun.Take nat; PoolRun.Done nat 1]
           {| PoolRun.pool :=
                {| ThreadPool.m_tasks := [3%nat];
                   ThreadPool.m_activeTasks := 2 |};
              PoolRun.m_stop := false; PoolRun.inside := [1%nat];
              PoolRun.workers := 2; PoolRun.enqueued := [1; 2; 3]%nat;
              PoolRun.started := [1; 2]%nat; PoolRun.finished := [2%nat];
              PoolRun.late := [] |} eq_refl).
Defined.

(** X10. [m_activeTasks] counts the tasks queued or being run, as long as
    an [int] holds the number of tasks enqueued. With a number of threads
    that an [int] holds, the predicate of [waitAll] is true exactly when no
    task is queued and none is being run, and then every task enqueued has
    finished. *)
Theorem waitAll_predicate_means_all_finished :
  forall (T : Type) (numThreads : nat) (sched : list (PoolRun.action T))
         (s : PoolRun.State T),
    PoolRun.exec sched (PoolRun.initial T numThreads) = Some s ->
    (Z.of_nat numThreads <= MachineInt.INT_MAX)%Z ->
    (ThreadPool.idle (PoolRun.pool s) = true <->
     ThreadPool.m_tasks (PoolRun.pool s) = [] /\ PoolRun.inside s = []) /\
    (ThreadPool.idle (PoolRun.pool s) = true ->
     Permutation (PoolRun.finished s) (PoolRun.enqueued s)) /\
    ((Z.of_nat (length (PoolRun.enqueued s)) <= MachineInt.INT_MAX)%Z ->
     ThreadPool.m_activeTasks (PoolRun.pool s) =
     Z.of_nat (length (ThreadPool.m_tasks (PoolRun.pool s))
               + length (PoolRun.inside s))).
Proof.
  intros T numThreads sched s Hexec Hn.
  pose proof (@pool_reachable_invariant _ _ _ _ Hexec) as Hinv.
  pose proof (@pool_idle _ _ _ Hinv Hn) as Hidle.
  split; [exact Hidle|]. split.
  - intros H. apply Hidle in H. destruct H as [Hq Hi].
    eapply pool_all_finished; eauto.
  - intros Hlen. rewrite (PoolRun.inv_count Hinv).
    pose proof (@pool_in_flight _ _ _ Hinv).
    apply int_wrap_id. unfold MachineInt.INT_MIN, MachineInt.INT_MAX in *.
    lia.
Qed.

Lemma waitAll_predicate_means_all_finished_witness :
  Permutation [2; 1]%nat [1; 2]%nat.
Proof.
  refine (proj1 (proj2 (@waitAll_predicate_means_all_finished nat 2
           [PoolRun.Enqueue 1%nat; PoolRun.Enqueue 2%nat; PoolRun.Take nat;
            PoolRun.Take nat; PoolRun.Done nat 1; PoolRun.Done nat 0]
           {| PoolRun.pool :=
                {| ThreadPool.m_tasks := [];
                   ThreadPool.m_activeTasks := 0 |};
              PoolRun.m_stop := false; PoolRun.inside := [];
              PoolRun.workers := 2; PoolRun.enqueued := [1; 2]%nat;
              PoolRun.started := [1; 2]%nat; PoolRun.finished := [2; 1]%nat;
              PoolRun.late := [] |} eq_refl _)) eq_refl).
  unfold MachineInt.INT_MAX. simpl. lia.
Defined.

(** X11. While a worker thread is alive the pool cannot block [waitAll]
    for ever: from every state the workers can finish what is being run and
    then the queue, task by task, after which the predicate of [waitAll]
    holds and every task enqueued so far has finished. Once every worker has
    returned, a task still in the queue is never run: the predicate of
    [waitAll] is false from then on. *)
Theorem waitAll_can_return :
  forall (T : Type) (numThreads : nat) (sched : list (PoolRun.action T))
         (s : PoolRun.State T),
    PoolRun.exec sched (PoolRun.initial T numThreads) = Some s ->
    ((0 < PoolRun.workers s)%nat ->
     exists sched' s',
       PoolRun.exec sched' s = Some s' /\
       ThreadPool.idle (PoolRun.pool s') = true /\
       PoolRun.enqueued s' = PoolRun.enqueued s /\
       Permutation (PoolRun.finished s') (PoolRun.enqueued s)) /\
    (PoolRun.workers s = 0%nat ->
     ThreadPool.m_tasks (PoolRun.pool s) <> [] ->
     forall sched' s',
       PoolRun.exec sched' s = Some s' ->
       ThreadPool.idle (PoolRun.pool s') = false).
Proof.
  intros T numThreads sched s Hexec.
  pose proof (@pool_reachable_invariant _ _ _ _ Hexec) as Hinv.
  split.
  - intros Hw.
    destruct (@pool_drain _ _ Hw) as (sched' & s' & He & Hi & Hq & _ & Hen & _).
    pose proof (@pool_exec_invariant _ _ _ _ _ Hinv He) as Hinv'.
    exists sched', s'. split; [exact He|]. split.
    + unfold ThreadPool.idle. rewrite Hq, (PoolRun.inv_count Hinv'), Hq, Hi.
      reflexivity.
    + split; [exact Hen|]. rewrite <- Hen.
      eapply pool_all_finished; eauto.
  - intros Hw Hq sched' s' He.
    destruct (@pool_stuck _ _ _ _ Hw Hq He) as [_ Hq'].
    unfold ThreadPool.idle.
    destruct (ThreadPool.m_tasks (PoolRun.pool s')); [contradiction|].
    reflexivity.
Qed.

Lemma waitAll_can_return_witness :
  ThreadPool.idle
    {| ThreadPool.m_tasks := [7%nat; 8%nat];
       ThreadPool.m_activeTasks := 2 |} = false.
Proof.
  refine (proj2 (@waitAll_can_return nat 1
           [PoolRun.Stop nat; PoolRun.Exit nat; PoolRun.Enqueue 7%nat]
           {| PoolRun.pool :=
                {| ThreadPool.m_tasks := [7%nat];
                   ThreadPool.m_activeTasks := 1 |};
              PoolRun.m_stop := true; PoolRun.inside := [];
              PoolRun.workers := 0; PoolRun.enqueued := [7%nat];
              PoolRun.started := []; PoolRun.finished := [];
              PoolRun.late := [7%nat] |} eq_refl) eq_refl _
           [PoolRun.Enqueue 8%nat] _ eq_refl).
  simpl. discriminate.
Defined.

(** X12. When the destructor has joined every worker of a pool that had
    one, [m_stop] is set, nothing is being run, and the tasks left in the
    queue are the last of those enqueued after [m_stop] was set: every task
    enqueued before the destructor began has been run to its end, and if
    none came later, every task has. *)
Theorem destructor_runs_earlier_tasks :
  forall (T : Type) (numThreads : nat) (sched : list (PoolRun.action T))
         (s : PoolRun.State T),
    PoolRun.exec sched (PoolRun.initial T numThreads) = Some s ->
    (0 < numThreads)%nat ->
    PoolRun.workers s = 0%nat ->
    PoolRun.m_stop s = true /\
    PoolRun.inside s = [] /\
    (exists before,
       PoolRun.late s = before ++ ThreadPool.m_tasks (PoolRun.pool s)) /\
    Permutation (PoolRun.finished s ++ ThreadPool.m_tasks (PoolRun.pool s))
      (PoolRun.enqueued s) /\
    (PoolRun.late s = [] ->
     Permutation (PoolRun.finished s) (PoolRun.enqueued s)).
Proof.
  intros T numThreads sched s Hexec Hn Hw.
  pose proof (@pool_reachable_invariant _ _ _ _ Hexec) as Hinv.
  pose proof (PoolRun.inv_busy Hinv) as Hbusy.
  assert (Hi : PoolRun.inside s = []).
  { destruct (PoolRun.inside s); [reflexivity | cbn in Hbusy; lia]. }
  assert (Hlt : (PoolRun.workers s < numThreads)%nat) by lia.
  destruct (PoolRun.inv_left Hinv Hlt) as [before Hb].
  pose proof (PoolRun.inv_started Hinv) as Hst.
  rewrite Hi, app_nil_r in Hst.
  split; [exact (PoolRun.inv_stop Hinv Hlt)|].
  split; [exact Hi|]. split; [exists before; exact Hb|]. split.
  - rewrite <- (PoolRun.inv_fifo Hinv). apply Permutation_app_tail.
    exact Hst.
  - intros Hlate. rewrite Hlate in Hb. symmetry in Hb.
    apply app_eq_nil in Hb. destruct Hb as [_ Hq].
    eapply pool_all_finished; eauto.
Qed.

Lemma destructor_runs_earlier_tasks_witness :
  Permutation ([1; 2]%nat ++ [3]%nat) [1; 2; 3]%nat.
Proof.
  refine (proj1 (proj2 (proj2 (proj2
           (@destructor_runs_earlier_tasks nat 1
           [PoolRun.Enqueue 1%nat; PoolRun.Enqueue 2%nat; PoolRun.Stop nat;
            PoolRun.Take nat; PoolRun.Done nat 0; PoolRun.Take nat;
            PoolRun.Done nat 0; PoolRun.Exit nat; PoolRun.Enqueue 3%nat]
           {| PoolRun.pool :=
                {| ThreadPool.m_tasks := [3%nat];
                   ThreadPool.m_activeTasks := 1 |};
              PoolRun.m_stop := true; PoolRun.inside := [];
              PoolRun.workers := 0; PoolRun.enqueued := [1; 2; 3]%nat;
              PoolRun.started := [1; 2]%nat; PoolRun.finished := [1; 2]%nat;
              PoolRun.late := [3%nat] |} eq_refl _ eq_refl))))).
  lia.
Defined.

(** ** The address the server listens on *)

Section CliAddressFacts.
Import Cli Address.
Open Scope string_scope.

Variable stoul : string -> option Z.

Lemma index_colon_here s : index 0 ":" (String ":" s) = Some 0%nat.
Proof. destruct s; reflexivity. Qed.

Lemma index_colon_skip b s :
  b <> ":"%char ->
  index 0 ":" (String b s) =
  match index 0 ":" s with Some n => Some (S n) | None => None end.
Proof.
  intros Hb. cbn [index prefix].
  destruct (ascii_dec ":" b) as [E|_]; [congruence|]. reflexivity.
Qed.

Lemma index_colon_none b s :
  index 0 ":" (String b s) = None ->
  b <> ":"%char /\ index 0 ":" s = None.
Proof.
  intros H. destruct (ascii_dec b ":") as [->|Hb].
  - rewrite index_colon_here in H. discriminate.
  - split; [exact Hb|]. rewrite (@index_colon_skip b s Hb) in H.
    destruct (index 0 ":" s); [discriminate | reflexivity].
Qed.

Lemma index_colon_app host tail :
  index 0 ":" host = None ->
  index 0 ":" (host ++ String ":" tail) = Some (String.length host).
Proof.
  induction host as [|b host IH]; intros H.
  - apply index_colon_here.
  - apply index_colon_none in H. destruct H as [Hb H].
    cbn [append String.length]. rewrite (@index_colon_skip b _ Hb), (IH H).
    reflexivity.
Qed.

Lemma index_colon_split a : forall k,
  index 0 ":" a = Some k ->
  exists host tail,
    a = host ++ String ":" tail /\ index 0 ":" host = None /\
    String.length host = k.
Proof.
  induction a as [|b a IH]; intros k H.
  - discriminate.
  - destruct (ascii_dec b ":") as [->|Hb].
    + rewrite index_colon_here in H. inversion H; subst.
      exists "", a. auto.
    + rewrite (@index_colon_skip b a Hb) in H.
      destruct (index 0 ":" a) as [k'|] eqn:E; [|discriminate].
      inversion H; subst.
      destruct (IH k' eq_refl) as (host & tail & -> & Hn & Hl).
      exists (String b host), tail. cbn [append String.length].
      rewrite (@index_colon_skip b host Hb), Hn, Hl. auto.
Qed.

Lemma substring_prefix host tail :
  substring 0 (String.length host) (host ++ tail) = host.
Proof.
  induction host as [|b host IH]; cbn [append String.length substring].
  - destruct tail; reflexivity.
  - rewrite IH. reflexivity.
Qed.

Lemma append_assoc3 a : forall b c, (a ++ b) ++ c = a ++ (b ++ c).
Proof.
  induction a as [|x a IH]; intros b c; cbn [append];
    [reflexivity | rewrite IH; reflexivity].
Qed.

Lemma set_port_host host tail port :
  index 0 ":" host = None ->
  set_port (host ++ String ":" tail) port = host ++ ":" ++ port.
Proof.
  intros H. unfold set_port.
  rewrite (@index_colon_app host tail H), substring_prefix. reflexivity.
Qed.

Lemma set_port_default address port :
  index 0 ":" address = None ->
  set_port address port = "0.0.0.0:" ++ port.
Proof. intros H. unfold set_port. rewrite H. reflexivity. Qed.

Lemma set_port_shape address port :
  exists host,
    set_port address port = host ++ String ":" port /\
    index 0 ":" host = None.
Proof.
  destruct (index 0 ":" address) as [k|] eqn:E.
  - destruct (@index_colon_split _ _ E) as (host & tail & -> & Hn & _).
    exists host. rewrite (@set_port_host host tail port Hn). auto.
  - exists "0.0.0.0". rewrite (@set_port_default address port E). auto.
Qed.

Lemma set_port_twice address p1 p2 :
  set_port (set_port address p1) p2 = set_port address p2.
Proof.
  destruct (index 0 ":" address) as [k|] eqn:E.
  - destruct (@index_colon_split _ _ E) as (host & tail & -> & Hn & _).
    rewrite (@set_port_host host tail p1 Hn), (@set_port_host host tail p2 Hn).
    cbn [append]. rewrite (@set_port_host host p1 p2 Hn). reflexivity.
  - rewrite (@set_port_default address p1 E), (@set_port_default address p2 E).
    exact (@set_port_host "0.0.0.0" p1 p2 eq_refl).
Qed.

Lemma has_colon_found address :
  has_colon address -> index 0 ":" address <> None.
Proof.
  intros (host & tail & -> & Hn). rewrite (@index_colon_app host tail Hn).
  discriminate.
Qed.

Lemma has_colon_address value : has_colon (value ++ ":50051").
Proof.
  destruct (index 0 ":" value) as [k|] eqn:E.
  - destruct (@index_colon_split _ _ E) as (host & tail & -> & Hn & _).
    exists host, (tail ++ ":50051"). rewrite append_assoc3. auto.
  - exists value, "50051". auto.
Qed.

Lemma parse_has_colon bound : forall args address numThreads address' n',
  (List.length args <= bound)%nat ->
  has_colon address ->
  parse stoul args address numThreads = Serve address' n' ->
  has_colon address'.
Proof.
  induction bound as [|bound IH];
    intros args address numThreads address' n' Hlen Hc Hp.
  - destruct args; [|cbn in Hlen; lia]. cbn in Hp.
    inversion Hp; subst. exact Hc.
  - destruct args as [|arg rest].
    + cbn in Hp. inversion Hp; subst. exact Hc.
    + cbn [parse] in Hp. cbn [List.length] in Hlen.
      destruct rest as [|value rest'].
      * destruct (arg =? "--help"); [discriminate|].
        inversion Hp; subst. exact Hc.
      * cbn [List.length] in Hlen.
        destruct (arg =? "--address").
        { eapply (IH rest'); [lia| |exact Hp]. apply has_colon_address. }
        destruct (arg =? "--port").
        { eapply (IH rest'); [lia| |exact Hp].
          destruct (set_port_shape address value) as (host & -> & Hn).
          exists host, value. auto. }
        destruct (arg =? "--threads").
        { destruct (stoul value) as [n|]; [|discriminate].
          eapply (IH rest'); [lia|exact Hc|exact Hp]. }
        destruct (arg =? "--help"); [discriminate|].
        eapply (IH (value :: rest')); [cbn; lia|exact Hc|exact Hp].
Qed.

End CliAddressFacts.

(** X13. The address that [main] hands to the server always has a colon:
    it is some host without a colon, a colon and a rest. So the [--port]
    branch always finds [colonPos], and its fallback to the host 0.0.0.0
    is never taken. *)
Theorem listening_address_has_host_and_port :
  forall (stoul : string -> option Z) (args : list string)
         (address : string) (numThreads : Z),
    Cli.main stoul args = Cli.Serve address numThreads ->
    (exists host tail,
        address = (host ++ String ":" tail)%string /\
        index 0 ":" host = None) /\
    (forall port,
        exists host,
          Cli.set_port address port = (host ++ String ":" port)%string /\
          index 0 ":" host = None /\
          index 0 ":" address = Some (String.length host)).
Proof.
  intros stoul args address numThreads Hmain.
  assert (Hc : Address.has_colon address).
  { eapply (@parse_has_colon stoul (List.length args) args);
      [lia| |exact Hmain].
    exists "0.0.0.0"%string, "50051"%string. auto. }
  split; [exact Hc|].
  intros port. destruct Hc as (host & tail & -> & Hn).
  exists host. rewrite (@set_port_host host tail port Hn).
  rewrite (@index_colon_app host tail Hn). auto.
Qed.

Lemma listening_address_has_host_and_port_witness :
  exists host tail,
    "10.0.0.7:9000"%string = (host ++ String ":" tail)%string /\
    index 0 ":" host = None.
Proof.
  exact (proj1 (@listening_address_has_host_and_port (fun _ => Some 8%Z)
                  ["--threads"; "8"; "--address"; "10.0.0.7";
                   "--port"; "9000"]%string
                  "10.0.0.7:9000"%string 8%Z eq_refl)).
Defined.

(** X14. [--address] followed by [--port] listens on the given host and
    port when the host has no colon; a value of [--address] with a colon in
    it (an IPv6 literal, or a host with a port) is cut at its first colon by
    the [--port] that follows. Of two [--port] flags in a row the second
    wins. *)
Theorem port_flag_keeps_host_before_colon :
  forall (stoul : string -> option Z) (host tail port : string)
         (rest : list string) (address : string) (numThreads : Z),
    index 0 ":" host = None ->
    Cli.parse stoul ("--address" :: host :: "--port" :: port :: rest)%string
      address numThreads
    = Cli.parse stoul rest (host ++ ":" ++ port)%string numThreads /\
    Cli.parse stoul
      ("--address" :: (host ++ ":" ++ tail) :: "--port" :: port :: rest)%string
      address numThreads
    = Cli.parse stoul rest (host ++ ":" ++ port)%string numThreads /\
    (forall port',
        Cli.parse stoul
          ("--port" :: port' :: "--port" :: port :: rest)%string
          address numThreads
        = Cli.parse stoul ("--port" :: port :: rest)%string
            address numThreads).
Proof.
  intros stoul host tail port rest address numThreads Hn.
  split; [|split].
  - cbn [Cli.parse]. simpl String.eqb. cbv iota.
    rewrite (@set_port_host host "50051" port Hn). reflexivity.
  - cbn [Cli.parse]. simpl String.eqb. cbv iota.
    rewrite append_assoc3. cbn [append].
    rewrite (@set_port_host host _ port Hn). reflexivity.
  - intros port'. cbn [Cli.parse]. simpl String.eqb. cbv iota.
    rewrite set_port_twice. reflexivity.
Qed.

Lemma port_flag_keeps_host_before_colon_witness :
  Cli.parse (fun _ => None)
    ["--address"; "fe80::1"; "--port"; "8080"]%string
    "0.0.0.0:50051"%string 4
  = Cli.Serve "fe80:8080"%string 4.
Proof.
  exact (proj1 (proj2 (@port_flag_keeps_host_before_colon (fun _ => None)
                  "fe80"%string ":1"%string "8080"%string [] 
                  "0.0.0.0:50051"%string 4%Z eq_refl))).
Defined.

(** ** The CSV file of the batch tool *)

Section BatchFacts.
Import CString Adapter MachineInt Batch.

(** Replacing a one-character pattern goes character by character. *)
Lemma substitute_one_character q to text :
  Spec.substitute [q] to text
  = flat_map (fun c => if Ascii.eqb q c then to else [c]) text.
Proof.
  induction text as [|c r IH]; [reflexivity|].
  rewrite substitute_cons. cbn [starts_with length Nat.sub skipn flat_map].
  rewrite andb_true_r, IH.
  destruct (Ascii.eqb q c); reflexivity.
Qed.

Lemma escape_flat_map text :
  escape text =
  flat_map (fun c => if Ascii.eqb "034" c then two_quotes
                     else if Ascii.eqb "010" c then one_space else [c]) text.
Proof.
  unfold escape. cbv zeta.
  rewrite (@replace_loop_fuel _ (newline, one_space))
    by (cbn; discriminate).
  rewrite (@replace_loop_fuel _ (quote, two_quotes))
    by (cbn; discriminate).
  cbn [fst snd]. unfold quote, newline.
  rewrite !substitute_one_character.
  induction text as [|c r IH]; [reflexivity|].
  cbn [flat_map]. rewrite flat_map_app, IH. f_equal.
  destruct (Ascii.eqb "034" c) eqn:Eq.
  - reflexivity.
  - cbn [flat_map]. rewrite app_nil_r. reflexivity.
Qed.

Lemma escape_no_newline text : ~ In "010"%char (escape text).
Proof.
  rewrite escape_flat_map. intros H. apply in_flat_map in H.
  destruct H as (c & _ & H).
  destruct (Ascii.eqb "034" c); [cbn in H; intuition discriminate|].
  destruct (Ascii.eqb "010" c) eqn:E; [cbn in H; intuition discriminate|].
  cbn in H. destruct H as [H|[]]. subst c.
  rewrite Ascii.eqb_refl in E. discriminate.
Qed.

Lemma count_newline_app (x y : cstring) :
  count_occ ascii_dec (x ++ y) "010"%char
  = (count_occ ascii_dec x "010"%char + count_occ ascii_dec y "010"%char)%nat.
Proof. apply count_occ_app. Qed.

Lemma count_newline_none (x : cstring) :
  ~ In "010"%char x -> count_occ ascii_dec x "010"%char = 0%nat.
Proof. intros H. apply count_occ_not_In. exact H. Qed.

Lemma add_all_snoc entries e :
  add_all (entries ++ [e]) =
  addResult (fst (fst e)) (snd (fst e)) (snd e) (add_all entries).
Proof. unfold add_all. rewrite fold_left_app. reflexivity. Qed.

Lemma add_all_nextId entries :
  nextId (add_all entries) = int_wrap (Z.of_nat (length entries) + 1).
Proof.
  induction entries as [|e entries IH] using rev_ind; [reflexivity|].
  rewrite add_all_snoc. unfold addResult. cbn [nextId].
  rewrite IH, int_wrap_succ, length_app. cbn [length]. f_equal. lia.
Qed.

Lemma add_all_results entries :
  (Z.of_nat (length entries) <= INT_MAX)%Z ->
  map id (results (add_all entries))
    = map Z.of_nat (seq 1 (length entries)) /\
  map (fun r => (filename r, extractedText r, processingTimeMs r))
      (results (add_all entries)) = entries.
Proof.
  induction entries as [|e entries IH] using rev_ind; intros Hlen.
  - cbn. auto.
  - rewrite length_app in Hlen |- *. cbn [length] in Hlen |- *.
    destruct IH as (Hi & He); [lia|].
    rewrite add_all_snoc. unfold addResult. cbn [nextId results].
    rewrite !map_app, Hi, He, add_all_nextId.
    cbn [map id filename extractedText processingTimeMs]. split.
    + rewrite Nat.add_1_r. rewrite seq_S, map_app. cbn [map].
      do 2 f_equal. rewrite int_wrap_id; unfold INT_MIN, INT_MAX in *; lia.
    + destruct e as [[name text] t]. reflexivity.
Qed.

Lemma rows_newlines (to_chars : Z -> cstring) rs :
  (forall z, ~ In "010"%char (to_chars z)) ->
  Forall (fun r => ~ In "010"%char (filename r)) rs ->
  count_occ ascii_dec (flat_map (row to_chars) rs) "010"%char = length rs.
Proof.
  intros Hnum Hrows. induction Hrows as [|r rs Hr _ IH]; [reflexivity|].
  cbn [flat_map length]. rewrite count_newline_app, IH. clear IH.
  replace (count_occ ascii_dec (row to_chars r) "010"%char) with 1%nat;
    [reflexivity|].
  unfold row. rewrite !count_newline_app.
  rewrite !(@count_newline_none (to_chars _) (Hnum _)).
  rewrite (@count_newline_none (filename r) Hr).
  rewrite (@count_newline_none (escape _) (@escape_no_newline _)).
  reflexivity.
Qed.

End BatchFacts.

(** X15. The escaping of [saveToCSV] works character by character: the
    text written between the quotes is the extracted text with every quote
    doubled and every newline turned into a space, everything else as it
    was. No newline is left in it, and it is longer than the text by the
    number of its quotes. *)
Theorem csv_escape_by_character :
  forall text : CString.cstring,
    Batch.escape text =
    flat_map (fun c => if Ascii.eqb "034" c then Batch.two_quotes
                       else if Ascii.eqb "010" c then Adapter.one_space
                       else [c]) text /\
    ~ In "010"%char (Batch.escape text) /\
    length (Batch.escape text)
    = (length text + count_occ ascii_dec text "034"%char)%nat.
Proof.
  intros text. split; [apply escape_flat_map|].
  split; [apply escape_no_newline|].
  rewrite escape_flat_map.
  induction text as [|c r IH]; [reflexivity|].
  cbn [flat_map count_occ]. rewrite length_app, IH.
  destruct (ascii_dec c "034") as [->|Hc].
  - cbn. lia.
  - assert (E : Ascii.eqb "034" c = false).
    { apply Ascii.eqb_neq. congruence. }
    rewrite E. destruct (Ascii.eqb "010" c); cbn; lia.
Qed.

(** X16. The ids that [addResult] gives are 1, 2, 3, ... in the order of
    the calls, as long as an [int] holds their number. The file that
    [saveToCSV] writes has one line for the header and one line for each
    result, whatever the extracted texts hold, provided that no file name
    holds a newline (numbers are printed without one). *)
Theorem csv_one_line_per_result :
  forall (to_chars : Z -> CString.cstring)
         (entries : list (CString.cstring * CString.cstring * Z)),
    (forall z, ~ In "010"%char (to_chars z)) ->
    Forall (fun e => ~ In "010"%char (fst (fst e))) entries ->
    (Z.of_nat (length entries) <= MachineInt.INT_MAX)%Z ->
    map Batch.id (Batch.results (Batch.add_all entries))
      = map Z.of_nat (seq 1 (length entries)) /\
    exists file,
      Batch.saveToCSV to_chars true (Batch.add_all entries) = Some file /\
      count_occ ascii_dec file "010"%char = S (length entries).
Proof.
  intros to_chars entries Hnum Hnames Hlen.
  destruct (@add_all_results entries Hlen) as (Hids & Hent).
  split; [exact Hids|].
  eexists. split; [reflexivity|].
  rewrite count_newline_app.
  replace (count_occ ascii_dec Batch.header "010"%char) with 1%nat
    by reflexivity.
  cbn [Nat.add]. f_equal.
  assert (Hrows : Forall (fun r => ~ In "010"%char (Batch.filename r))
                         (Batch.results (Batch.add_all entries))).
  { rewrite <- Hent in Hnames. rewrite Forall_map in Hnames. exact Hnames. }
  rewrite (@rows_newlines to_chars _ Hnum Hrows).
  rewrite <- Hent at 2. rewrite length_map. reflexivity.
Qed.

Lemma csv_one_line_per_result_witness :
  exists file,
    Batch.saveToCSV (fun _ => CString.lit "7") true
      (Batch.add_all [(CString.lit "a.png", ["H"%char; "010"%char; "i"%char],
                       12%Z)])
    = Some file /\
    count_occ ascii_dec file "010"%char = 2%nat.
Proof.
  refine (proj2 (@csv_one_line_per_result (fun _ => CString.lit "7")
            [(CString.lit "a.png", ["H"%char; "010"%char; "i"%char], 12%Z)]
            _ _ _)).
  - intros z H. simpl in H. intuition discriminate.
  - repeat constructor. simpl. intuition discriminate.
  - unfold MachineInt.INT_MAX. simpl. lia.
Defined.

(** ** The send queue of the client *)

Section ClientFacts.
Import Client.

Lemma client_started_invariant : invariant started.
Proof. constructor; cbn; [reflexivity | congruence | lia]. Qed.

Lemma client_step_invariant a s s' :
  invariant s -> step a s = Some s' -> invariant s'.
Proof.
  intros [Hord Hlost Hone] Hstep. unfold holding in Hord.
  destruct a as [request| | | |success]; cbn [step] in Hstep.
  - destruct (m_running s); inversion Hstep; subst s'; clear Hstep.
    + constructor; unfold holding; cbn; auto.
      rewrite <- Hord, <- !app_assoc. reflexivity.
    + constructor; auto.
  - inversion Hstep; subst s'; clear Hstep. constructor; auto.
  - destruct (writer s) eqn:Hw; try discriminate.
    destruct (m_running s); inversion Hstep; subst s'; clear Hstep;
      constructor; unfold holding; cbn; auto;
      intros Hl; destruct (Hlost Hl) as [? _]; congruence.
  - destruct (writer s) eqn:Hw; try discriminate.
    destruct (m_sendQueue s) as [|request rest] eqn:Hq;
      inversion Hstep; subst s'; clear Hstep;
      constructor; unfold holding; cbn; rewrite ?Hq; auto;
      intros Hl; destruct (Hlost Hl) as [? _]; congruence.
  - destruct (writer s) as [| |request|] eqn:Hw; try discriminate.
    assert (Hnil : lost s = []).
    { destruct (lost s) eqn:El; [reflexivity|].
      destruct Hlost as [? _]; congruence. }
    destruct success; inversion Hstep; subst s'; clear Hstep.
    + constructor; unfold holding; cbn; auto.
      * rewrite <- Hord, Hnil. cbn. rewrite <- app_assoc. reflexivity.
      * intros Hl. congruence.
    + constructor; unfold holding; cbn; auto.
      * rewrite <- Hord, Hnil. reflexivity.
      * rewrite Hnil. cbn. lia.
Qed.

Lemma client_exec_invariant sched : forall s s',
  invariant s -> exec sched s = Some s' -> invariant s'.
Proof.
  induction sched as [|a sched IH]; intros s s' Hinv Hexec; cbn in Hexec.
  - inversion Hexec; subst. exact Hinv.
  - destruct (step a s) as [s1|] eqn:Hstep; [|discriminate].
    eapply IH; [|exact Hexec]. eapply client_step_invariant; eauto.
Qed.

(** After the writer has left its loop. *)
Lemma client_step_ended a s s' :
  writer s = Ended -> step a s = Some s' ->
  writer s' = Ended /\ wire s' = wire s /\
  exists more,
    m_sendQueue s' = m_sendQueue s ++ more /\
    accepted s' = accepted s ++ more.
Proof.
  intros Hw Hstep.
  destruct a as [request| | | |success]; cbn [step] in Hstep.
  - destruct (m_running s); inversion Hstep; subst s'; clear Hstep; cbn.
    + split; [exact Hw|]. split; [reflexivity|]. exists [request]. auto.
    + split; [exact Hw|]. split; [reflexivity|]. exists [].
      rewrite !app_nil_r. auto.
  - inversion Hstep; subst s'; clear Hstep; cbn.
    split; [exact Hw|]. split; [reflexivity|]. exists [].
    rewrite !app_nil_r. auto.
  - rewrite Hw in Hstep. discriminate.
  - rewrite Hw in Hstep. discriminate.
  - rewrite Hw in Hstep. discriminate.
Qed.

Lemma client_exec_ended sched : forall s s',
  writer s = Ended -> exec sched s = Some s' ->
  writer s' = Ended /\ wire s' = wire s /\
  exists more,
    m_sendQueue s' = m_sendQueue s ++ more /\
    accepted s' = accepted s ++ more.
Proof.
  induction sched as [|a sched IH]; intros s s' Hw Hexec; cbn in Hexec.
  - inversion Hexec; subst. split; [exact Hw|]. split; [reflexivity|].
    exists []. rewrite !app_nil_r. auto.
  - destruct (step a s) as [s1|] eqn:Hstep; [|discriminate].
    destruct (@client_step_ended a s s1 Hw Hstep)
      as (Hw1 & Hwire1 & m1 & Hq1 & Ha1).
    destruct (IH s1 s' Hw1 Hexec) as (Hw' & Hwire' & m2 & Hq2 & Ha2).
    split; [exact Hw'|]. split; [congruence|].
    exists (m1 ++ m2). rewrite Hq2, Ha2, Hq1, Ha1, <- !app_assoc. auto.
Qed.

(** After [stop] has cleared [m_running] nothing is accepted. *)
Lemma client_step_stopped a s s' :
  m_running s = false -> step a s = Some s' ->
  m_running s' = false /\ accepted s' = accepted s.
Proof.
  intros Hr Hstep.
  destruct a as [request| | | |success]; cbn [step] in Hstep.
  - rewrite Hr in Hstep. inversion Hstep; subst s'. auto.
  - inversion Hstep; subst s'; clear Hstep. cbn. auto.
  - destruct (writer s) eqn:Hw; try discriminate. rewrite Hr in Hstep.
    inversion Hstep; subst s'; clear Hstep. cbn. auto.
  - destruct (writer s) eqn:Hw; try discriminate.
    destruct (m_sendQueue s) as [|request rest] eqn:Hq;
      inversion Hstep; subst s'; clear Hstep; cbn; auto.
  - destruct (writer s) as [| |request|] eqn:Hw; try discriminate.
    destruct success; inversion Hstep; subst s'; clear Hstep; cbn; auto.
Qed.

Lemma client_exec_stopped sched : forall s s',
  m_running s = false -> exec sched s = Some s' ->
  m_running s' = false /\ accepted s' = accepted s.
Proof.
  induction sched as [|a sched IH]; intros s s' Hr Hexec; cbn in Hexec.
  - inversion Hexec; subst. auto.
  - destruct (step a s) as [s1|] eqn:Hstep; [|discriminate].
    destruct (@client_step_stopped a s s1 Hr Hstep) as (Hr1 & Ha1).
    destruct (IH s1 s' Hr1 Hexec) as (Hr' & Ha').
    split; [exact Hr'|]. congruence.
Qed.

(** What the stream can still get after [stop]. *)
Lemma client_step_committed a s0 s s' :
  m_running s = false ->
  (wire s = wire s0 /\ committed s = committed s0) \/
  (committed s = [] /\ writer s <> AtPop /\
   (wire s = wire s0 \/ wire s = wire s0 ++ committed s0)) ->
  step a s = Some s' ->
  (wire s' = wire s0 /\ committed s' = committed s0) \/
  (committed s' = [] /\ writer s' <> AtPop /\
   (wire s' = wire s0 \/ wire s' = wire s0 ++ committed s0)).
Proof.
  intros Hr Hrel Hstep.
  remember (committed s0) as c0 eqn:Ec0. clear Ec0. unfold committed in *.
  destruct a as [request| | | |success]; cbn [step] in Hstep.
  - rewrite Hr in Hstep. inversion Hstep; subst s'. exact Hrel.
  - inversion Hstep; subst s'; clear Hstep. cbn. exact Hrel.
  - destruct (writer s) eqn:Hw; try discriminate. rewrite Hr in Hstep.
    inversion Hstep; subst s'; clear Hstep. cbn.
    right. split; [reflexivity|]. split; [discriminate|].
    destruct Hrel as [[Hwire _]|(_ & _ & Hwire)]; auto.
  - destruct (writer s) eqn:Hw; try discriminate.
    destruct Hrel as [[Hwire Hc]|(_ & Hne & _)]; [|congruence].
    destruct (m_sendQueue s) as [|request rest] eqn:Hq;
      inversion Hstep; subst s'; clear Hstep; cbn.
    + right. split; [reflexivity|]. split; [discriminate|]. auto.
    + left. split; [exact Hwire|]. exact Hc.
  - destruct (writer s) as [| |request|] eqn:Hw; try discriminate.
    destruct Hrel as [[Hwire Hc]|(Hc & _)]; [|discriminate].
    destruct success; inversion Hstep; subst s'; clear Hstep; cbn;
      right; (split; [reflexivity|]); (split; [discriminate|]).
    + right. rewrite Hwire, <- Hc. reflexivity.
    + left. exact Hwire.
Qed.

Lemma client_exec_committed sched : forall s0 s s',
  m_running s = false ->
  (wire s = wire s0 /\ committed s = committed s0) \/
  (committed s = [] /\ writer s <> AtPop /\
   (wire s = wire s0 \/ wire s = wire s0 ++ committed s0)) ->
  exec sched s = Some s' ->
  wire s' = wire s0 \/ wire s' = wire s0 ++ committed s0.
Proof.
  induction sched as [|a sched IH]; intros s0 s s' Hr Hrel Hexec;
    cbn in Hexec.
  - inversion Hexec; subst.
    destruct Hrel as [[Hwire _]|(_ & _ & Hwire)]; auto.
  - destruct (step a s) as [s1|] eqn:Hstep; [|discriminate].
    destruct (@client_step_stopped a s s1 Hr Hstep) as (Hr1 & _).
    apply (IH s0 s1 s' Hr1); [|exact Hexec].
    exact (@client_step_committed a s0 s s1 Hr Hrel Hstep).
Qed.

(** A writer that is not between its loop test and the queue never takes
    from the queue again. *)
Lemma client_step_queue a s s' :
  m_running s = false -> writer s <> AtPop -> step a s = Some s' ->
  writer s' <> AtPop /\ m_sendQueue s' = m_sendQueue s.
Proof.
  intros Hr Hne Hstep.
  destruct a as [request| | | |success]; cbn [step] in Hstep.
  - rewrite Hr in Hstep. inversion Hstep; subst s'. auto.
  - inversion Hstep; subst s'; clear Hstep. cbn. auto.
  - destruct (writer s) eqn:Hw; try discriminate. rewrite Hr in Hstep.
    inversion Hstep; subst s'; clear Hstep. cbn.
    split; [discriminate | reflexivity].
  - destruct (writer s) eqn:Hw; try discriminate. congruence.
  - destruct (writer s) as [| |request|] eqn:Hw; try discriminate.
    destruct success; inversion Hstep; subst s'; clear Hstep; cbn;
      (split; [discriminate | reflexivity]).
Qed.

Lemma client_exec_queue sched : forall s s',
  m_running s = false -> writer s <> AtPop -> exec sched s = Some s' ->
  m_sendQueue s' = m_sendQueue s.
Proof.
  induction sched as [|a sched IH]; intros s s' Hr Hne Hexec; cbn in Hexec.
  - inversion Hexec; subst. reflexivity.
  - destruct (step a s) as [s1|] eqn:Hstep; [|discriminate].
    destruct (@client_step_stopped a s s1 Hr Hstep) as (Hr1 & _).
    destruct (@client_step_queue a s s1 Hr Hne Hstep) as [Hne1 Hq1].
    rewrite (IH s1 s' Hr1 Hne1 Hexec). exact Hq1.
Qed.

(** At most the head of the queue is taken after [stop], and only by a
    writer that was already past its loop test. *)
Lemma client_exec_head sched : forall s s',
  m_running s = false -> exec sched s = Some s' ->
  m_sendQueue s' = m_sendQueue s \/
  (writer s = AtPop /\ m_sendQueue s' = tl (m_sendQueue s)).
Proof.
  induction sched as [|a sched IH]; intros s s' Hr Hexec; cbn in Hexec.
  - inversion Hexec; subst. auto.
  - destruct (step a s) as [s1|] eqn:Hstep; [|discriminate].
    destruct (@client_step_stopped a s s1 Hr Hstep) as (Hr1 & _).
    destruct (writer s) as [| |request|] eqn:Hw;
      try (left; apply (@client_exec_queue (a :: sched) s s' Hr);
           [rewrite Hw; discriminate | cbn; rewrite Hstep; exact Hexec]).
    destruct a as [request| | | |success]; cbn [step] in Hstep;
      rewrite ?Hw, ?Hr in Hstep; try discriminate.
    + inversion Hstep; subst s1.
      destruct (IH s s' Hr Hexec) as [H|[_ H]]; auto.
    + inversion Hstep; subst s1; clear Hstep.
      destruct (IH _ s' Hr1 Hexec) as [H|[_ H]]; cbn in H; auto.
    + assert (Hne : writer s1 <> AtPop /\ m_sendQueue s1 = tl (m_sendQueue s)).
      { destruct (m_sendQueue s) as [|request rest] eqn:Hq;
          inversion Hstep; subst s1; cbn; rewrite ?Hq;
          (split; [discriminate | reflexivity]). }
      destruct Hne as [Hne Hq1]. right. split; [reflexivity|].
      rewrite <- Hq1. exact (@client_exec_queue sched s1 s' Hr1 Hne Hexec).
Qed.

Lemma committed_short s : (length (committed s) <= 1)%nat.
Proof.
  unfold committed. destruct (writer s); cbn; try lia.
  destruct (m_sendQueue s); cbn; lia.
Qed.

(** The writer leaves its loop once [m_running] is cleared. *)
Lemma client_writer_ends s :
  m_running s = false ->
  exists sched s', exec sched s = Some s' /\ writer s' = Ended.
Proof.
  intros Hr. destruct (writer s) as [| |request|] eqn:Hw.
  - exists [Test]. eexists. cbn. rewrite Hw, Hr. split; reflexivity.
  - destruct (m_sendQueue s) as [|request rest] eqn:Hq.
    + exists [Pop; Test]. eexists. cbn. rewrite Hw, Hq. cbn. rewrite Hr.
      split; reflexivity.
    + exists [Pop; Write true; Test]. eexists. cbn. rewrite Hw, Hq. cbn.
      rewrite Hr. split; reflexivity.
  - exists [Write true; Test]. eexists. cbn. rewrite Hw. cbn. rewrite Hr.
    split; reflexivity.
  - exists [], s. split; [reflexivity | exact Hw].
Qed.

End ClientFacts.

(** X17. The client sends images in the order of [sendImage]: what has
    gone out on the stream, then the request of a failed write if there was
    one, then the request the writer holds, then the queue, are the images
    that [sendImage] accepted, in that order. None goes out twice, and the
    only one passed over is the one whose write failed, after which the
    writer has left its loop. *)
Theorem client_sends_in_order :
  forall (sched : list Client.action) (s : Client.State),
    Client.exec sched Client.started = Some s ->
    Client.wire s ++ Client.lost s ++ Client.holding s
      ++ Client.m_sendQueue s = Client.accepted s /\
    (length (Client.lost s) <= 1)%nat /\
    (Client.lost s <> [] ->
     Client.writer s = Client.Ended /\ Client.m_connected s = false).
Proof.
  intros sched s Hexec.
  pose proof (@client_exec_invariant sched _ _ client_started_invariant Hexec)
    as [Hord Hlost Hone].
  auto.
Qed.

Lemma client_sends_in_order_witness :
  [Samples.hello] ++ [Samples.blank] ++ [] ++ [Samples.noise]
  = [Samples.hello; Samples.blank; Samples.noise].
Proof.
  exact (proj1 (@client_sends_in_order
           [Client.SendImage Samples.hello; Client.SendImage Samples.blank;
            Client.Test; Client.Pop; Client.Write true;
            Client.Test; Client.Pop; Client.Write false;
            Client.SendImage Samples.noise]
           {| Client.m_running := true; Client.m_connected := false;
              Client.m_sendQueue := [Samples.noise];
              Client.writer := Client.Ended;
              Client.wire := [Samples.hello];
              Client.accepted :=
                [Samples.hello; Samples.blank; Samples.noise];
              Client.lost := [Samples.blank] |} eq_refl)).
Defined.

(** X18. A failed write ends the writer thread but leaves [m_running]
    set: from then on nothing more goes out on the stream, while [sendImage]
    goes on queueing what it is given. Whatever happens after the writer has
    left its loop, the stream stays as it was and the queue only grows. *)
Theorem client_writer_end_is_final :
  forall (s : Client.State) (sched : list Client.action) (s' : Client.State),
    Client.writer s = Client.Ended ->
    Client.exec sched s = Some s' ->
    Client.writer s' = Client.Ended /\
    Client.wire s' = Client.wire s /\
    exists more,
      Client.m_sendQueue s' = Client.m_sendQueue s ++ more /\
      Client.accepted s' = Client.accepted s ++ more.
Proof.
  intros s sched s' Hw Hexec. exact (@client_exec_ended sched s s' Hw Hexec).
Qed.

Lemma client_writer_end_is_final_witness :
  exists more,
    [Samples.noise; Samples.silent] = [Samples.noise] ++ more /\
    [Samples.hello; Samples.blank; Samples.noise; Samples.silent]
    = [Samples.hello; Samples.blank; Samples.noise] ++ more.
Proof.
  exact (proj2 (proj2 (@client_writer_end_is_final
           {| Client.m_running := true; Client.m_connected := false;
              Client.m_sendQueue := [Samples.noise];
              Client.writer := Client.Ended;
              Client.wire := [Samples.hello];
              Client.accepted :=
                [Samples.hello; Samples.blank; Samples.noise];
              Client.lost := [Samples.blank] |}
           [Client.SendImage Samples.silent]
           {| Client.m_running := true; Client.m_connected := false;
              Client.m_sendQueue := [Samples.noise; Samples.silent];
              Client.writer := Client.Ended;
              Client.wire := [Samples.hello];
              Client.accepted :=
                [Samples.hello; Samples.blank; Samples.noise;
                 Samples.silent];
              Client.lost := [Samples.blank] |} eq_refl eq_refl))).
Defined.

(** X19. Once [stop] has cleared [m_running], [sendImage] queues nothing
    and at most one more request goes out on the stream: the one the writer
    holds or, when the writer was already past its loop test, the head of
    the queue, which it still pops and writes. Nothing else leaves the
    queue: it stays as it was, or loses its head to a writer that was
    between the loop test and the queue; the requests behind are never sent.
    The writer then leaves its loop, so the join in [stop] returns. *)
Theorem client_stop_sends_at_most_one :
  forall (s : Client.State),
    Client.m_running s = false ->
    (forall sched s',
        Client.exec sched s = Some s' ->
        Client.m_running s' = false /\
        Client.accepted s' = Client.accepted s /\
        (Client.wire s' = Client.wire s \/
         Client.wire s' = Client.wire s ++ Client.committed s) /\
        (Client.m_sendQueue s' = Client.m_sendQueue s \/
         (Client.writer s = Client.AtPop /\
          Client.m_sendQueue s' = tl (Client.m_sendQueue s)))) /\
    (length (Client.committed s) <= 1)%nat /\
    (exists sched s',
        Client.exec sched s = Some s' /\ Client.writer s' = Client.Ended).
Proof.
  intros s Hr. split; [|split].
  - intros sched s' Hexec.
    destruct (@client_exec_stopped sched s s' Hr Hexec) as (Hr' & Ha).
    split; [exact Hr'|]. split; [exact Ha|]. split.
    + apply (@client_exec_committed sched s s s' Hr); auto.
    + exact (@client_exec_head sched s s' Hr Hexec).
  - apply committed_short.
  - apply client_writer_ends. exact Hr.
Qed.

Lemma client_stop_sends_at_most_one_witness :
  [Samples.hello; Samples.blank] = [Samples.hello] \/
  [Samples.hello; Samples.blank] = [Samples.hello] ++ [Samples.blank].
Proof.
  exact (proj1 (proj2 (proj2 (proj1 (@client_stop_sends_at_most_one
           {| Client.m_running := false; Client.m_connected := true;
              Client.m_sendQueue := [Samples.blank; Samples.noise];
              Client.writer := Client.AtPop;
              Client.wire := [Samples.hello];
              Client.accepted :=
                [Samples.hello; Samples.blank; Samples.noise];
              Client.lost := [] |} eq_refl)
           [Client.Pop; Client.Write true]
           {| Client.m_running := false; Client.m_connected := true;
              Client.m_sendQueue := [Samples.noise];
              Client.writer := Client.AtLoop;
              Client.wire := [Samples.hello; Samples.blank];
              Client.accepted :=
                [Samples.hello; Samples.blank; Samples.noise];
              Client.lost := [] |} eq_refl)))).
Defined.

(** ** The garbage test *)

Section GarbageFacts.
Import CString MachineInt Garbage.
Open Scope Z_scope.

Variables isalpha isdigit isspace : ascii -> bool.

Lemma count_char_bounded n k c :
  0 <= n < INT_MAX ->
  bounded n k ->
  bounded (n + 1) ((count_char isalpha isdigit isspace) k c) /\
  maxConsecutiveSymbols k <= maxConsecutiveSymbols ((count_char isalpha isdigit isspace) k c).
Proof.
  intros Hn [Hl Hd Hs Hsum Hrun Hmax]. unfold count_char.
  assert (Hw : forall z, 0 <= z <= n -> int_wrap (z + 1) = z + 1).
  { intros z Hz. apply int_wrap_id. unfold INT_MIN, INT_MAX in *. lia. }
  destruct (isalpha c); [|destruct (isdigit c); [|destruct (isspace c)]];
    cbn [negb letterCount digitCount symbolCount consecutiveSymbols
         maxConsecutiveSymbols];
    rewrite ?Hw by lia; (split; [constructor; cbn; lia | lia]).
Qed.

Lemma count_fold_bounded l : forall n k,
  0 <= n -> n + Z.of_nat (length l) <= INT_MAX ->
  bounded n k ->
  bounded (n + Z.of_nat (length l)) (fold_left (count_char isalpha isdigit isspace) l k) /\
  maxConsecutiveSymbols k <= maxConsecutiveSymbols (fold_left (count_char isalpha isdigit isspace) l k).
Proof.
  induction l as [|c l IH]; intros n k Hn Hlen Hk.
  - cbn. rewrite Z.add_0_r. split; [exact Hk | lia].
  - cbn [fold_left length] in *.
    destruct (@count_char_bounded n k c) as [Hb Hm]; [lia|exact Hk|].
    destruct (IH (n + 1) ((count_char isalpha isdigit isspace) k c)) as [Hb' Hm']; [lia|lia|exact Hb|].
    split; [|lia].
    replace (n + Z.of_nat (S (length l)))
      with (n + 1 + Z.of_nat (length l)) by lia.
    exact Hb'.
Qed.

Lemma zero_bounded : bounded 0 zero.
Proof. constructor; cbn; lia. Qed.

Lemma count_char_symbol n k c :
  0 <= n < INT_MAX ->
  bounded n k ->
  (symbol isalpha isdigit isspace) c = true ->
  consecutiveSymbols ((count_char isalpha isdigit isspace) k c) = consecutiveSymbols k + 1.
Proof.
  intros Hn [Hl Hd Hs Hsum Hrun Hmax] Hc. unfold symbol in Hc.
  apply andb_true_iff in Hc. destruct Hc as [Hc Hsp].
  apply andb_true_iff in Hc. destruct Hc as [Ha Hdg].
  unfold count_char.
  destruct (isalpha c); [discriminate|].
  destruct (isdigit c); [discriminate|]. rewrite Hsp.
  cbn [consecutiveSymbols]. apply int_wrap_id.
  unfold INT_MIN, INT_MAX in *. lia.
Qed.

Lemma count_char_plain k c :
  (symbol isalpha isdigit isspace) c = false ->
  symbolCount ((count_char isalpha isdigit isspace) k c) = symbolCount k /\
  maxConsecutiveSymbols ((count_char isalpha isdigit isspace) k c) = maxConsecutiveSymbols k.
Proof.
  unfold symbol, count_char.
  destruct (isalpha c); [auto|]. destruct (isdigit c); [auto|].
  destruct (isspace c); [auto|discriminate].
Qed.

Lemma count_fold_plain l : forall k,
  Forall (fun c => (symbol isalpha isdigit isspace) c = false) l ->
  symbolCount (fold_left (count_char isalpha isdigit isspace) l k) = symbolCount k /\
  maxConsecutiveSymbols (fold_left (count_char isalpha isdigit isspace) l k) = maxConsecutiveSymbols k.
Proof.
  induction l as [|c l IH]; intros k Hl; [auto|].
  inversion Hl as [|? ? Hc Hl']; subst. cbn [fold_left].
  destruct (IH ((count_char isalpha isdigit isspace) k c) Hl') as [H1 H2].
  destruct (@count_char_plain k c Hc) as [H3 H4]. split; congruence.
Qed.

Lemma three_symbols_counted x a b c y :
  (symbol isalpha isdigit isspace) a = true -> (symbol isalpha isdigit isspace) b = true -> (symbol isalpha isdigit isspace) c = true ->
  Z.of_nat (length (x ++ a :: b :: c :: y)) <= 100 ->
  3 <= maxConsecutiveSymbols
         (count isalpha isdigit isspace (x ++ a :: b :: c :: y)).
Proof.
  intros Ha Hb Hc Hlen. unfold count.
  rewrite length_app in Hlen. cbn [length] in Hlen.
  rewrite fold_left_app. cbn [fold_left].
  set (n := Z.of_nat (length x)) in *.
  assert (HI : 100 < INT_MAX) by (unfold INT_MAX; lia).
  destruct (@count_fold_bounded x 0 zero) as [H0 _];
    [lia | lia | exact zero_bounded |].
  rewrite Z.add_0_l in H0. fold n in H0.
  set (k0 := fold_left (count_char isalpha isdigit isspace) x zero) in *.
  destruct (@count_char_bounded n k0 a) as [H1 _]; [lia|exact H0|].
  pose proof (@count_char_symbol n k0 a ltac:(lia) H0 Ha) as E1.
  set (k1 := (count_char isalpha isdigit isspace) k0 a) in *.
  destruct (@count_char_bounded (n + 1) k1 b) as [H2 _]; [lia|exact H1|].
  pose proof (@count_char_symbol (n + 1) k1 b ltac:(lia) H1 Hb) as E2.
  set (k2 := (count_char isalpha isdigit isspace) k1 b) in *.
  destruct (@count_char_bounded (n + 1 + 1) k2 c) as [H3 _];
    [lia|exact H2|].
  pose proof (@count_char_symbol (n + 1 + 1) k2 c ltac:(lia) H2 Hc) as E3.
  set (k3 := (count_char isalpha isdigit isspace) k2 c) in *.
  destruct (@count_fold_bounded y (n + 1 + 1 + 1) k3) as [_ Hm];
    [lia | lia | exact H3 |].
  pose proof (bounded_run H0). pose proof (bounded_run H3). lia.
Qed.

End GarbageFacts.

(** X20. [isLikelyGarbage] answers true for every text of at most 100
    characters that holds three characters in a row that are neither
    letters, nor digits, nor spaces (an ellipsis, a rule of dashes),
    whatever else the text holds. *)
Theorem three_symbols_in_a_row_are_garbage :
  forall (isalpha isdigit isspace : ascii -> bool)
         (x y : CString.cstring) (a b c : ascii),
    Garbage.symbol isalpha isdigit isspace a = true ->
    Garbage.symbol isalpha isdigit isspace b = true ->
    Garbage.symbol isalpha isdigit isspace c = true ->
    (length (x ++ a :: b :: c :: y) <= 100)%nat ->
    Garbage.isLikelyGarbage isalpha isdigit isspace (x ++ a :: b :: c :: y)
    = true.
Proof.
  intros isalpha isdigit isspace x y a b c Ha Hb Hc Hlen.
  assert (Hlen' : (Z.of_nat (length (x ++ a :: b :: c :: y)) <= 100)%Z)
    by lia.
  pose proof (@three_symbols_counted isalpha isdigit isspace x a b c y
                Ha Hb Hc Hlen') as Hmax.
  unfold Garbage.isLikelyGarbage.
  replace (CString.is_empty (x ++ a :: b :: c :: y)) with false
    by (destruct x; reflexivity).
  destruct (Z.ltb_spec 100 (Z.of_nat (length (x ++ a :: b :: c :: y))));
    [lia|].
  cbn [orb]. cbv zeta.
  destruct (Z.gtb _ _); [reflexivity|].
  destruct (Z.geb_spec
              (Garbage.maxConsecutiveSymbols
                 (Garbage.count isalpha isdigit isspace
                    (x ++ a :: b :: c :: y))) 3); [reflexivity | lia].
Qed.

Lemma three_symbols_in_a_row_are_garbage_witness :
  Garbage.isLikelyGarbage
    (fun c => (("a" <=? c) && (c <=? "z"))%char)
    (fun c => (("0" <=? c) && (c <=? "9"))%char)
    (fun c => (c =? " ")%char)
    (CString.lit "wait" ++ "."%char :: "."%char :: "."%char
       :: CString.lit " what is this text about") = true.
Proof.
  apply three_symbols_in_a_row_are_garbage;
    try reflexivity. vm_compute. lia.
Defined.

(** X21. The garbage test never fires on the empty text, on a text of
    more than 100 characters, or on a text made of letters, digits and
    spaces only. *)
Theorem plain_text_is_not_garbage :
  forall (isalpha isdigit isspace : ascii -> bool) (text : CString.cstring),
    text = [] \/ (100 < length text)%nat \/
    Forall (fun c => Garbage.symbol isalpha isdigit isspace c = false) text ->
    Garbage.isLikelyGarbage isalpha isdigit isspace text = false.
Proof.
  intros isalpha isdigit isspace text H. unfold Garbage.isLikelyGarbage.
  destruct text as [|c0 r] eqn:Et; [reflexivity|]. rewrite <- Et in *.
  replace (CString.is_empty text) with false by (subst text; reflexivity).
  cbn [orb].
  destruct (Z.ltb_spec 100 (Z.of_nat (length text))) as [|Hlen];
    [reflexivity|].
  destruct H as [H|[H|H]]; [congruence | lia |].
  cbv zeta. unfold Garbage.count.
  destruct (@count_fold_plain isalpha isdigit isspace text
              (Garbage.zero) H) as [Hs Hm].
  destruct (@count_fold_bounded isalpha isdigit isspace text 0 Garbage.zero)
    as [Hb _];
    [lia | unfold MachineInt.INT_MAX; lia | apply zero_bounded |].
  destruct Hb as [Hl Hd _ Hsum _ _].
  rewrite Hs, Hm in *. cbn [Garbage.symbolCount Garbage.maxConsecutiveSymbols
                            Garbage.zero] in *.
  rewrite int_wrap_id
    by (unfold MachineInt.INT_MIN, MachineInt.INT_MAX; lia).
  destruct (Z.gtb_spec 0
              (Garbage.letterCount
                 (fold_left (Garbage.count_char isalpha isdigit isspace)
                    text Garbage.zero) +
               Garbage.digitCount
                 (fold_left (Garbage.count_char isalpha isdigit isspace)
                    text Garbage.zero))); [lia|].
  cbn. rewrite andb_false_r. reflexivity.
Qed.

Lemma plain_text_is_not_garbage_witness :
  Garbage.isLikelyGarbage
    (fun c => (("a" <=? c) && (c <=? "z"))%char)
    (fun c => (("0" <=? c) && (c <=? "9"))%char)
    (fun c => (c =? " ")%char)
    (CString.lit "page 12") = false.
Proof.
  apply plain_text_is_not_garbage. right. right.
  repeat constructor.
Defined.

(** ** The restart loop *)

Section ServerFacts.
Import Session Service.

Lemma construct_throws E numThreads Init :
  (forall i, (i < numThreads)%nat -> Init i <> 0%Z) ->
  construct E numThreads Init = None.
Proof.
  intros H. unfold construct.
  replace (create_processors (map Init (seq 0 numThreads))) with
    (@nil OCRProcessor); [reflexivity|].
  symmetry. apply create_processors_none.
  rewrite Forall_map, Forall_forall. intros i Hi. apply in_seq in Hi.
  apply H. lia.
Qed.

End ServerFacts.

(** X22. [OCRServer::run] always returns after at most three passes through
    its loop. It serves at the first of the three attempts at which the
    service is constructed and the server is built, and makes no further
    attempt after that one; it gives up after exactly three attempts when all
    three throw. In particular a server started with 0 threads, or one whose
    Tesseract never initialises, never listens. *)
Theorem run_serves_at_first_good_attempt :
  forall (E : Adapter.Engine) (numThreads : nat)
         (Init : nat -> nat -> Z) (built : nat -> bool),
    (exists o,
        Server.run E numThreads Init built = Some o /\
        match o with
        | Server.Served k C =>
            (k < 3)%nat /\
            Server.start E numThreads Init built k = Some C /\
            forall j, (j < k)%nat ->
                      Server.start E numThreads Init built j = None
        | Server.GaveUp n =>
            n = 3%nat /\
            forall j, (j < 3)%nat ->
                      Server.start E numThreads Init built j = None
        end) /\
    ((forall k i, (i < numThreads)%nat -> Init k i <> 0%Z) ->
     Server.run E numThreads Init built = Some (Server.GaveUp 3)).
Proof.
  intros E numThreads Init built. split.
  - unfold Server.run. cbn [Server.run_loop].
    change (0 <? Server.MAX_RESTARTS)%Z with true. cbv iota.
    destruct (Server.start E numThreads Init built 0) as [C0|] eqn:E0.
    { eexists. split; [reflexivity|]. split; [lia|]. split; [exact E0|].
      intros j Hj. lia. }
    cbv zeta.
    change (MachineInt.int_wrap (0 + 1)) with 1%Z.
    change (1 <? Server.MAX_RESTARTS)%Z with true. cbv iota.
    destruct (Server.start E numThreads Init built 1) as [C1|] eqn:E1.
    { eexists. split; [reflexivity|]. split; [lia|]. split; [exact E1|].
      intros j Hj. replace j with 0%nat by lia. exact E0. }
    change (MachineInt.int_wrap (1 + 1)) with 2%Z.
    change (2 <? Server.MAX_RESTARTS)%Z with true. cbv iota.
    destruct (Server.start E numThreads Init built 2) as [C2|] eqn:E2.
    { eexists. split; [reflexivity|]. split; [lia|]. split; [exact E2|].
      intros j Hj. destruct j as [|[|j]]; [exact E0 | exact E1 | lia]. }
    change (MachineInt.int_wrap (2 + 1)) with 3%Z.
    change (3 <? Server.MAX_RESTARTS)%Z with false. cbv iota.
    eexists. split; [reflexivity|]. split; [reflexivity|].
    intros j Hj. destruct j as [|[|[|j]]]; [exact E0|exact E1|exact E2|lia].
  - intros Hfail.
    assert (Hstart : forall k,
               Server.start E numThreads Init built k = None).
    { intros k. unfold Server.start.
      rewrite (@construct_throws E numThreads (Init k) (Hfail k)).
      reflexivity. }
    unfold Server.run. cbn [Server.run_loop].
    change (0 <? Server.MAX_RESTARTS)%Z with true. cbv iota.
    rewrite Hstart. cbv zeta.
    change (MachineInt.int_wrap (0 + 1)) with 1%Z.
    change (1 <? Server.MAX_RESTARTS)%Z with true. cbv iota.
    rewrite Hstart.
    change (MachineInt.int_wrap (1 + 1)) with 2%Z.
    change (2 <? Server.MAX_RESTARTS)%Z with true. cbv iota.
    rewrite Hstart.
    change (MachineInt.int_wrap (2 + 1)) with 3%Z.
    change (3 <? Server.MAX_RESTARTS)%Z with false. cbv iota.
    reflexivity.
Qed.

(** ** The service with all its threads *)

Section CallFacts.
Import MachineInt CString Session.
Open Scope Z_scope.

Variable E : Adapter.Engine.
Variable numThreads : nat.
Hypothesis Hnt : Z.of_nat numThreads <= INT_MAX - MAX_CONCURRENT_TASKS.
Variable requests : list ImageRequest.t.

Ltac open_call s H :=
  destruct s as [sin sout pc g act idx [queue mact] proc fin];
  destruct H as [Ha Ht Hp Hw Hr [served [Hreq Hperm]]];
  unfold unreleased in *; cbn [stream_in stream_out reader g_activeImageSize
    activeTasks m_nextProcessorIndex m_threadPool processing finishing
    ThreadPool.m_tasks ThreadPool.m_activeTasks] in *.

Ltac close_call :=
  constructor; unfold unreleased, MAX_CONCURRENT_TASKS in *;
  cbn [stream_in stream_out reader g_activeImageSize
    activeTasks m_nextProcessorIndex m_threadPool processing finishing
    ThreadPool.m_tasks ThreadPool.m_activeTasks ThreadPool.enqueue
    ThreadPool.complete with_reader write held].

Lemma call_initial :
  Live.call_invariant E numThreads requests (initial requests).
Proof.
  constructor; simpl; try reflexivity;
    try (unfold MAX_CONCURRENT_TASKS; lia).
  - discriminate.
  - exists []. split; reflexivity.
Qed.

Lemma call_read ok s :
  reader s = AtRead ->
  Live.call_invariant E numThreads requests s ->
  Live.call_invariant E numThreads requests (do_read ok s).
Proof.
  intros Hpc H. open_call s H. subst pc. unfold do_read.
  cbn [stream_in g_activeImageSize held app] in *.
  destruct sin as [|r rest].
  - close_call; auto; try discriminate.
    exists served. split; assumption.
  - destruct (size_t_wrap (g + size r) >? MAX_MEMORY_USAGE).
    + close_call; auto; try discriminate.
      exists (served ++ [(r, MemoryRejected)]). split.
      * rewrite map_app. simpl. rewrite <- app_assoc. exact Hreq.
      * apply perm_served; [reflexivity | exact Hperm].
    + close_call; auto; try discriminate.
      exists served. split; assumption.
Qed.

Lemma call_hangup s :
  reader s = AtRead ->
  Live.call_invariant E numThreads requests s ->
  Live.call_invariant E numThreads requests (with_reader Draining s).
Proof.
  intros Hpc H. open_call s H. subst pc.
  close_call; auto; try discriminate.
  exists served. split; assumption.
Qed.

Lemma call_pass C ok r s s' :
  engine C = E ->
  reader s = Throttled r ->
  do_pass C ok r s = Some s' ->
  Live.call_invariant E numThreads requests s ->
  Live.call_invariant E numThreads requests s'.
Proof.
  intros HE Hpc Hstep H. open_call s H. subst pc. unfold do_pass in Hstep.
  cbn [activeTasks m_nextProcessorIndex held app g_activeImageSize] in *.
  unfold MAX_CONCURRENT_TASKS in *.
  destruct (Z.geb_spec act 4) as [|Hlt]; [discriminate|].
  destruct (is_empty (ImageRequest.image_data r)) eqn:Hemp.
  - inversion Hstep; subst s'; clear Hstep.
    close_call; cbn [app] in *; auto; try discriminate; try lia.
    exists (served ++ [(r, EmptyRejected)]). split.
    + rewrite map_app. simpl. rewrite <- app_assoc. exact Hreq.
    + apply perm_served; [reflexivity | exact Hperm].
  - unfold RoundRobin.fetch_inc in Hstep.
    destruct (RoundRobin.subscript (m_processors C) _) as [p|];
      [|discriminate].
    inversion Hstep; subst s'; clear Hstep.
    unfold INT_MAX in Hnt. rewrite length_app in *.
    close_call; rewrite ?length_app; cbn [length];
      rewrite ?int_wrap_id by (unfold INT_MIN, INT_MAX; lia); try lia.
    + discriminate.
    + exists (served ++ [(r, Dispatched p)]). split.
      * rewrite map_app. simpl. rewrite <- app_assoc. exact Hreq.
      * apply perm_dispatched; [reflexivity | exact Hperm].
Qed.

Lemma call_take C s s' :
  Session.numThreads C = numThreads ->
  do_take C s = Some s' ->
  Live.call_invariant E numThreads requests s ->
  Live.call_invariant E numThreads requests s'.
Proof.
  intros HN Hstep H. open_call s H. unfold do_take, ThreadPool.take in Hstep.
  cbn [processing finishing m_threadPool ThreadPool.m_tasks] in Hstep.
  rewrite HN in Hstep.
  destruct (Nat.ltb_spec (length proc + length fin) numThreads);
    [|discriminate].
  destruct queue as [|t queue]; [discriminate|].
  inversion Hstep; subst s'; clear Hstep.
  assert (Hq : Permutation (queue ++ proc ++ [t]) ((t :: queue) ++ proc)).
  { simpl. rewrite app_assoc. symmetry. apply Permutation_cons_append. }
  close_call; rewrite ?length_app in *; cbn [length] in *; try lia;
    try assumption.
  - intros Hret. destruct (Hr Hret) as [Hnil _]. discriminate.
  - exists served. split; [exact Hreq|].
    rewrite <- Hperm. do 2 apply Permutation_app_head.
    apply Permutation_map. exact Hq.
Qed.

Lemma call_process C k s s' :
  engine C = E ->
  do_process C k s = Some s' ->
  Live.call_invariant E numThreads requests s ->
  Live.call_invariant E numThreads requests s'.
Proof.
  intros HE Hstep H. open_call s H. unfold do_process in Hstep.
  cbn [processing] in Hstep. rewrite HE in Hstep.
  destruct (pick k proc) as [[t rest]|] eqn:Hpick; [|discriminate].
  inversion Hstep; subst s'; clear Hstep.
  pose proof (pick_length _ _ Hpick) as Hlen.
  pose proof (pick_perm _ _ Hpick) as Hpp.
  unfold INT_MAX in Hnt.
  close_call; rewrite ?length_app in *; cbn [length] in *;
    rewrite ?int_wrap_id by (unfold INT_MIN, INT_MAX; lia);
    try lia; try assumption.
  - intros Hret. destruct (Hr Hret) as [Hnil _].
    apply app_eq_nil in Hnil. destruct Hnil as [_ Hnil]. subst proc.
    discriminate.
  - exists served. split; [exact Hreq|].
    rewrite <- Hperm. apply Permutation_app_head.
    rewrite <- app_assoc. apply Permutation_app_head.
    change ([run_task E t] ++ map (run_task E) (queue ++ rest))
      with (map (run_task E) (t :: queue ++ rest)).
    apply Permutation_map. rewrite Hpp. apply Permutation_middle.
Qed.

Lemma call_emit k ok s s' :
  do_emit k ok s = Some s' ->
  Live.call_invariant E numThreads requests s ->
  Live.call_invariant E numThreads requests s'.
Proof.
  intros Hstep H. open_call s H. unfold do_emit in Hstep.
  cbn [finishing] in Hstep.
  destruct (pick k fin) as [[res rest]|] eqn:Hpick; [|discriminate].
  inversion Hstep; subst s'; clear Hstep.
  pose proof (pick_length _ _ Hpick) as Hlen.
  pose proof (pick_perm _ _ Hpick) as Hpp.
  unfold INT_MAX in Hnt.
  close_call; rewrite ?length_app in *; cbn [length] in *;
    rewrite ?int_wrap_id by (unfold INT_MIN, INT_MAX; lia); try lia;
    try assumption.
  - intros Hret. destruct (Hr Hret) as [_ Hnil]. subst fin. discriminate.
  - exists served. split; [exact Hreq|].
    rewrite <- Hperm. rewrite map_app. simpl map. rewrite <- app_assoc.
    apply Permutation_app_head. simpl.
    rewrite (Permutation_app_tail _ Hpp). reflexivity.
Qed.

Lemma call_finish s :
  reader s = Draining ->
  ThreadPool.idle (m_threadPool s) = true ->
  Live.call_invariant E numThreads requests s ->
  Live.call_invariant E numThreads requests (with_reader Returned s).
Proof.
  intros Hpc Hidle H. open_call s H. subst pc.
  unfold ThreadPool.idle in Hidle. cbn in Hidle.
  destruct queue; [|discriminate]. apply Z.eqb_eq in Hidle. subst mact.
  cbn [app length] in *.
  assert (proc = [] /\ fin = []) as [-> ->].
  { destruct proc, fin; simpl in *; try lia. split; reflexivity. }
  close_call; auto.
  exists served. split; assumption.
Qed.

Lemma call_step C a s s' :
  engine C = E -> Session.numThreads C = numThreads ->
  step C a s = Some s' ->
  Live.call_invariant E numThreads requests s ->
  Live.call_invariant E numThreads requests s'.
Proof.
  intros HE HN Hstep H. unfold step in Hstep.
  destruct a; destruct (reader s) eqn:Hpc; try discriminate;
    try (eapply call_take; eassumption);
    try (eapply call_process; eassumption);
    try (eapply call_emit; eassumption).
  - inversion Hstep; subst s'. apply call_read; assumption.
  - inversion Hstep; subst s'. apply call_hangup; assumption.
  - eapply call_pass; eauto.
  - destruct (ThreadPool.idle (m_threadPool s)) eqn:Hidle; [|discriminate].
    inversion Hstep; subst s'. apply call_finish; assumption.
Qed.

(** The shared counters are no part of what a call keeps true. *)
Lemma call_install G s :
  Live.call_invariant E numThreads requests s ->
  Live.call_invariant E numThreads requests (Live.install G s).
Proof.
  intros [Ha Ht Hp Hw Hr Hh]. constructor; assumption.
Qed.

End CallFacts.

Section CounterFacts.
Import MachineInt CString Session.
Open Scope Z_scope.

Lemma size_t_wrap_add_l x n :
  size_t_wrap (size_t_wrap x + n) = size_t_wrap (x + n).
Proof. unfold size_t_wrap. apply Z.add_mod_idemp_l. lia. Qed.

Lemma size_t_wrap_sub_l x n :
  size_t_wrap (size_t_wrap x - n) = size_t_wrap (x - n).
Proof. unfold size_t_wrap. apply Zminus_mod_idemp_l. Qed.

(** Each step of a call moves the counter by what it adds to, or takes
    from, the bytes of the call's unreleased tasks. *)
Lemma payload_cons t ts : payload (t :: ts) = size (request t) + payload ts.
Proof. reflexivity. Qed.

Lemma take_counter C s s' x :
  do_take C s = Some s' ->
  g_activeImageSize s = size_t_wrap x ->
  g_activeImageSize s' =
  size_t_wrap (x + (payload (unreleased s') - payload (unreleased s))).
Proof.
  intros Hstep Hg. unfold do_take, ThreadPool.take in Hstep.
  destruct (_ <? _)%nat; [|discriminate].
  destruct (ThreadPool.m_tasks (m_threadPool s)) as [|t queue] eqn:Hq;
    [discriminate|].
  inversion Hstep; subst s'; clear Hstep.
  unfold unreleased.
  cbn [g_activeImageSize m_threadPool processing ThreadPool.m_tasks].
  rewrite Hq, !payload_app, !payload_cons, Hg. f_equal.
  change (payload []) with 0. lia.
Qed.

Lemma process_counter C k s s' x :
  do_process C k s = Some s' ->
  g_activeImageSize s = size_t_wrap x ->
  g_activeImageSize s' =
  size_t_wrap (x + (payload (unreleased s') - payload (unreleased s))).
Proof.
  intros Hstep Hg. unfold do_process in Hstep.
  destruct (pick k (processing s)) as [[t rest]|] eqn:Hpick;
    [|discriminate].
  inversion Hstep; subst s'; clear Hstep.
  unfold unreleased.
  cbn [g_activeImageSize m_threadPool processing ThreadPool.m_tasks].
  rewrite Hg, size_t_wrap_sub_l.
  rewrite !payload_app, (pick_payload _ _ Hpick). f_equal. lia.
Qed.

Lemma emit_counter k ok s s' x :
  do_emit k ok s = Some s' ->
  g_activeImageSize s = size_t_wrap x ->
  g_activeImageSize s' =
  size_t_wrap (x + (payload (unreleased s') - payload (unreleased s))).
Proof.
  intros Hstep Hg. unfold do_emit in Hstep.
  destruct (pick k (finishing s)) as [[res rest]|]; [|discriminate].
  inversion Hstep; subst s'; clear Hstep.
  unfold unreleased.
  cbn [g_activeImageSize m_threadPool processing ThreadPool.m_tasks
       ThreadPool.complete].
  rewrite Hg. f_equal. lia.
Qed.

Lemma step_counter C a s s' x :
  step C a s = Some s' ->
  g_activeImageSize s = size_t_wrap x ->
  g_activeImageSize s' =
  size_t_wrap (x + (payload (unreleased s') - payload (unreleased s))).
Proof.
  intros Hstep Hg. unfold step in Hstep.
  assert (Hsame : forall s1,
             g_activeImageSize s1 = g_activeImageSize s ->
             unreleased s1 = unreleased s ->
             g_activeImageSize s1 =
             size_t_wrap
               (x + (payload (unreleased s1) - payload (unreleased s)))).
  { intros s1 H1 H2. rewrite H1, H2, Hg. f_equal. lia. }
  destruct a; destruct (reader s) eqn:Hpc; try discriminate;
    try (eapply take_counter; eassumption);
    try (eapply process_counter; eassumption);
    try (eapply emit_counter; eassumption).
  - (* Read *)
    inversion Hstep; subst s'; clear Hstep. apply Hsame; unfold do_read;
      destruct (stream_in s); try reflexivity;
      destruct (_ >? _); reflexivity.
  - (* Hangup *)
    inversion Hstep; subst s'; clear Hstep. apply Hsame; reflexivity.
  - (* Pass *)
    unfold do_pass in Hstep.
    destruct (activeTasks s >=? MAX_CONCURRENT_TASKS); [discriminate|].
    destruct (is_empty (ImageRequest.image_data r)).
    + inversion Hstep; subst s'; clear Hstep. apply Hsame; reflexivity.
    + unfold RoundRobin.fetch_inc in Hstep.
      destruct (RoundRobin.subscript _ _) as [p|]; [|discriminate].
      inversion Hstep; subst s'; clear Hstep.
      unfold unreleased.
      cbn [g_activeImageSize m_threadPool processing ThreadPool.m_tasks
           ThreadPool.enqueue].
      rewrite Hg, size_t_wrap_add_l.
      rewrite !payload_app, payload_cons. f_equal.
      change (payload []) with 0. cbn [request]. lia.
  - (* Finish *)
    destruct (ThreadPool.idle (m_threadPool s)); [|discriminate].
    inversion Hstep; subst s'; clear Hstep. apply Hsame; reflexivity.
Qed.

End CounterFacts.

Section LiveFacts.
Import MachineInt CString.
Open Scope Z_scope.

Variable E : Adapter.Engine.
Variable numThreads : nat.
Hypothesis Hnt :
  Z.of_nat numThreads <= INT_MAX - Session.MAX_CONCURRENT_TASKS.

Lemma Forall2_update (A B : Type) (P : A -> B -> Prop) i c' :
  forall xs cs,
    Forall2 P xs cs ->
    (forall x, nth_error xs i = Some x -> P x c') ->
    Forall2 P xs (Live.update i c' cs).
Proof.
  induction i as [|i IH]; intros xs cs H Hc; destruct H as [|x c xs cs Hx H];
    cbn [Live.update]; constructor; auto.
Qed.

Lemma Forall2_nth (A B : Type) (P : A -> B -> Prop) i :
  forall xs cs c,
    Forall2 P xs cs -> nth_error cs i = Some c ->
    exists x, nth_error xs i = Some x /\ P x c.
Proof.
  induction i as [|i IH]; intros xs cs c H Hc;
    destruct H as [|x c0 xs cs Hx H]; cbn in Hc; try discriminate.
  - inversion Hc; subst. exists x. auto.
  - destruct (IH _ _ _ H Hc) as (y & Hy & Py). exists y. auto.
Qed.

Lemma in_flight_update i c c' : forall cs,
  nth_error cs i = Some c ->
  fold_right
    (fun c n => Session.payload (Session.unreleased (Live.view c)) + n) 0
    (Live.update i c' cs)
  = fold_right
      (fun c n => Session.payload (Session.unreleased (Live.view c)) + n) 0
      cs
    + (Session.payload (Session.unreleased (Live.view c'))
       - Session.payload (Session.unreleased (Live.view c))).
Proof.
  induction i as [|i IH]; intros cs Hc; destruct cs as [|c0 cs];
    cbn in Hc; try discriminate; cbn [Live.update fold_right].
  - inversion Hc; subst. lia.
  - rewrite (IH cs Hc). lia.
Qed.

(** Every enabled step of a call is a step of [Session] on the state of the
    call with the shared counters put in. *)
Lemma act_moves i a G G' :
  Live.act E numThreads i a G = Live.Next G' ->
  exists c s' qa ra q,
    nth_error (Live.calls G) i = Some c /\
    Session.step (Live.config E numThreads G) a
      (Live.install G (Live.view c)) = Some s' /\
    G' = Live.put i {| Live.view := s'; Live.queued_at := qa;
                       Live.running_at := ra |} q G.
Proof.
  unfold Live.act. intros H.
  destruct (nth_error (Live.calls G) i) as [c|]; [|discriminate].
  exists c.
  destruct a as [ok| |ok| |k|k ok|].
  - destruct (Session.step _ _ _) as [s'|]; [|discriminate].
    inversion H; subst G'. eauto 8.
  - destruct (Session.step _ _ _) as [s'|]; [|discriminate].
    inversion H; subst G'. eauto 8.
  - destruct (Session.step _ _ _) as [s'|]; [|discriminate].
    destruct (_ <? _)%nat; inversion H; subst G'; eauto 8.
  - destruct (Live.fifo G) as [|j later]; [discriminate|].
    destruct (Live.queued_at c) as [|p ps]; [discriminate|].
    destruct (negb (j =? i)%nat); [discriminate|].
    destruct (negb (Live.busy G <? numThreads)%nat); [discriminate|].
    destruct (Live.made p <? Live.rounds G)%nat; [discriminate|].
    destruct (Live.in_use p G); [discriminate|].
    destruct (Session.step _ _ _) as [s'|]; [|discriminate].
    inversion H; subst G'. eauto 8.
  - destruct (Session.step _ _ _) as [s'|]; [|discriminate].
    destruct (Session.pick k (Live.running_at c)) as [[p ps]|];
      [|discriminate].
    inversion H; subst G'. eauto 8.
  - destruct (Session.step _ _ _) as [s'|]; [|discriminate].
    inversion H; subst G'. eauto 8.
  - destruct (Live.all_idle G); [|discriminate].
    destruct (Session.step _ _ _) as [s'|]; [|discriminate].
    inversion H; subst G'. eauto 8.
Qed.

Section Preservation.

Variable requests : list (list ImageRequest.t).

Lemma live_initial_invariant processors :
  processors <> [] -> (length processors <= numThreads)%nat ->
  Live.invariant E numThreads requests (Live.initial processors requests).
Proof.
  intros Hne Hle. constructor; cbn.
  - induction requests as [|rs rss IH]; cbn; constructor; [|exact IH].
    apply call_initial.
  - unfold Live.in_flight. cbn.
    induction requests as [|rs rss IH]; cbn; [reflexivity|].
    exact IH.
  - auto.
Qed.

Lemma live_act_invariant i a G G' :
  Live.invariant E numThreads requests G ->
  Live.act E numThreads i a G = Live.Next G' ->
  Live.invariant E numThreads requests G'.
Proof.
  intros [Hcalls Hcount Hvec] Hact.
  destruct (@act_moves i a G G' Hact)
    as (c & s' & qa & ra & q & Hc & Hs & ->).
  destruct (@Forall2_nth _ _ _ i requests (Live.calls G) c Hcalls Hc)
    as (rs & Hrs & Hinv).
  constructor; cbn [Live.put Live.calls Live.g_activeImageSize
                    Live.m_processors Live.view].
  - apply Forall2_update; [exact Hcalls|].
    intros x Hx. rewrite Hrs in Hx. inversion Hx; subst x.
    cbn [Live.view].
    eapply (@call_step E numThreads Hnt rs _ a); [| |exact Hs|].
    + reflexivity.
    + reflexivity.
    + apply call_install. exact Hinv.
  - unfold Live.in_flight, Live.put. cbn [Live.calls].
    rewrite (@in_flight_update i c _ _ Hc). cbn [Live.view].
    apply (@step_counter _ a _ s' (Live.in_flight G) Hs). exact Hcount.
  - exact Hvec.
Qed.

Lemma live_cleanup_invariant Init G G' :
  Live.invariant E numThreads requests G ->
  Live.cleanup Init G = Live.Next G' ->
  Live.invariant E numThreads requests G'.
Proof.
  intros [Hcalls Hcount Hvec] Hc. unfold Live.cleanup in Hc.
  destruct (Live.someone_running G); [discriminate|].
  inversion Hc; subst G'. constructor; cbn; auto.
  unfold Service.memoryCleanup. rewrite length_map, length_seq.
  destruct Hvec as [Hne Hle]. split; [|exact Hle].
  destruct (Live.m_processors G); [congruence|]. discriminate.
Qed.

Lemma live_step_invariant a G G' :
  Live.invariant E numThreads requests G ->
  Live.step E numThreads a G = Live.Next G' ->
  Live.invariant E numThreads requests G'.
Proof.
  destruct a as [i a|Init]; cbn [Live.step].
  - apply live_act_invariant.
  - apply live_cleanup_invariant.
Qed.

Lemma live_exec_invariant sched : forall G G',
  Live.invariant E numThreads requests G ->
  Live.exec E numThreads sched G = Live.Next G' ->
  Live.invariant E numThreads requests G'.
Proof.
  induction sched as [|a sched IH]; intros G G' Hinv Hexec;
    cbn [Live.exec] in Hexec.
  - inversion Hexec; subst. exact Hinv.
  - destruct (Live.step E numThreads a G) as [G1| |f] eqn:Hs;
      try discriminate.
    eapply IH; [|exact Hexec]. eapply live_step_invariant; eauto.
Qed.

End Preservation.

End LiveFacts.

Section ServeFacts.
Import MachineInt CString.
Open Scope Z_scope.

Variable E : Adapter.Engine.
Variable numThreads : nat.
Hypothesis Hnt :
  Z.of_nat numThreads <= INT_MAX - Session.MAX_CONCURRENT_TASKS.

Lemma live_exec_app sched1 : forall sched2 G G1,
  Live.exec E numThreads sched1 G = Live.Next G1 ->
  Live.exec E numThreads (sched1 ++ sched2) G
  = Live.exec E numThreads sched2 G1.
Proof.
  induction sched1 as [|a sched1 IH]; intros sched2 G G1 H;
    cbn [Live.exec app] in *.
  - inversion H; subst. reflexivity.
  - destruct (Live.step E numThreads a G) as [G2| |f]; try discriminate.
    apply IH. exact H.
Qed.

Variable processors : list Session.OCRProcessor.
Hypothesis Hne : processors <> [].
Hypothesis Hle : (length processors <= numThreads)%nat.

Lemma workers_available : (0 < numThreads)%nat.
Proof. destruct processors; [congruence | cbn in Hle; lia]. Qed.

(** The steps of a call that is alone, from rest to rest. *)

Lemma read_rejects C r rs written idx ok :
  Session.fits r -> Session.size r > Session.MAX_MEMORY_USAGE ->
  Session.step C (Session.Read ok) (Live.resting (r :: rs) written 0 idx)
  = Some (Live.resting rs
            (written ++ [(Session.memory_rejection r, ok)]) 0 idx).
Proof.
  intros Hfit Hbig. unfold Session.fits in Hfit.
  pose proof (size_nonneg r) as Hsz.
  unfold Live.resting, Session.step, Session.do_read.
  cbn [Session.reader Session.stream_in Session.g_activeImageSize].
  rewrite Z.add_0_l, size_t_wrap_id by lia.
  destruct (Z.gtb_spec (Session.size r) Session.MAX_MEMORY_USAGE); [|lia].
  reflexivity.
Qed.

Lemma read_admits C r rs written idx ok :
  Session.fits r -> Session.size r <= Session.MAX_MEMORY_USAGE ->
  Session.step C (Session.Read ok) (Live.resting (r :: rs) written 0 idx)
  = Some (Session.with_reader (Session.Throttled r)
            (Live.resting rs written 0 idx)).
Proof.
  intros Hfit Hok. unfold Session.fits in Hfit.
  pose proof (size_nonneg r) as Hsz.
  unfold Live.resting, Session.step, Session.do_read.
  cbn [Session.reader Session.stream_in Session.g_activeImageSize].
  rewrite Z.add_0_l, size_t_wrap_id by lia.
  destruct (Z.gtb_spec (Session.size r) Session.MAX_MEMORY_USAGE); [lia|].
  reflexivity.
Qed.

Lemma pass_answers_empty C r rs written idx ok :
  is_empty (ImageRequest.image_data r) = true ->
  Session.step C (Session.Pass ok)
    (Session.with_reader (Session.Throttled r)
       (Live.resting rs written 0 idx))
  = Some (Live.resting rs
            (written ++ [(Session.empty_rejection r, ok)]) 0 idx).
Proof.
  intros Hemp.
  unfold Live.resting, Session.step, Session.with_reader, Session.do_pass.
  cbn [Session.reader Session.activeTasks].
  change (0 >=? Session.MAX_CONCURRENT_TASKS) with false. cbv iota.
  rewrite Hemp. reflexivity.
Qed.

Lemma pass_dispatches r rs written idx ok :
  is_empty (ImageRequest.image_data r) = false ->
  Session.fits r ->
  exists p,
    Session.step
      {| Session.engine := E; Session.numThreads := numThreads;
         Session.m_processors := processors |}
      (Session.Pass ok)
      (Session.with_reader (Session.Throttled r)
         (Live.resting rs written 0 idx))
    = Some {| Session.stream_in := rs; Session.stream_out := written;
              Session.reader := Session.AtRead;
              Session.g_activeImageSize := Session.size r;
              Session.activeTasks := 1;
              Session.m_nextProcessorIndex := int_wrap (idx + 1);
              Session.m_threadPool :=
                {| ThreadPool.m_tasks :=
                     [ {| Session.request := r; Session.processor := p |} ];
                   ThreadPool.m_activeTasks := 1 |};
              Session.processing := []; Session.finishing := [] |}.
Proof.
  intros Hemp Hfit. unfold Session.fits in Hfit.
  pose proof (size_nonneg r) as Hsz.
  assert (Hpos : 0 < Z.of_nat (length processors)).
  { destruct processors; [congruence | cbn [length]; lia]. }
  unfold Session.MAX_CONCURRENT_TASKS in Hnt.
  destruct (@subscript_in_bounds _ processors
              (RoundRobin.processorIndex idx (Z.of_nat (length processors))))
    as [p Hp].
  { apply processorIndex_range. lia. }
  exists p.
  unfold Live.resting, Session.step, Session.with_reader, Session.do_pass.
  cbn [Session.reader Session.activeTasks Session.m_nextProcessorIndex
       Session.m_processors Session.g_activeImageSize Session.stream_in
       Session.stream_out Session.m_threadPool Session.processing
       Session.finishing].
  change (0 >=? Session.MAX_CONCURRENT_TASKS) with false. cbv iota.
  rewrite Hemp. unfold RoundRobin.fetch_inc. rewrite Hp.
  rewrite Z.add_0_l, size_t_wrap_id by lia. reflexivity.
Qed.


(** The steps of the service when it has one call. *)

Lemma single_plain a processors' k g idx s qa ra q s' :
  match a with
  | Session.Read _ | Session.Hangup | Session.Emit _ _ => True
  | _ => False
  end ->
  Session.step
    {| Session.engine := E; Session.numThreads := numThreads;
       Session.m_processors := processors' |} a
    (Live.install (Live.single processors' k g idx s qa ra q) s) = Some s' ->
  Live.step E numThreads (Live.Act 0 a)
    (Live.single processors' k g idx s qa ra q)
  = Live.Next
      (Live.single processors' k (Session.g_activeImageSize s')
         (Session.m_nextProcessorIndex s') s' qa ra q).
Proof.
  intros Ha Hs. unfold Live.single in *. cbn [Live.step]. unfold Live.act.
  cbn [Live.calls nth_error Live.view].
  unfold Live.config. cbn [Live.m_processors].
  destruct a; try contradiction; rewrite Hs; reflexivity.
Qed.

Lemma single_pass ok processors' k g idx s qa ra q s' :
  Session.step
    {| Session.engine := E; Session.numThreads := numThreads;
       Session.m_processors := processors' |} (Session.Pass ok)
    (Live.install (Live.single processors' k g idx s qa ra q) s) = Some s' ->
  Live.step E numThreads (Live.Act 0 (Session.Pass ok))
    (Live.single processors' k g idx s qa ra q)
  = Live.Next
      (if (Live.queued s <? Live.queued s')%nat
       then Live.single processors' k (Session.g_activeImageSize s')
              (Session.m_nextProcessorIndex s') s'
              (qa ++ [Live.selected
                        (Live.single processors' k g idx s qa ra q)])
              ra (q ++ [0%nat])
       else Live.single processors' k (Session.g_activeImageSize s')
              (Session.m_nextProcessorIndex s') s' qa ra q).
Proof.
  intros Hs. unfold Live.single in *. cbn [Live.step]. unfold Live.act.
  cbn [Live.calls nth_error Live.view].
  unfold Live.config. cbn [Live.m_processors]. rewrite Hs.
  change (Live.queued (Live.install _ s)) with (Live.queued s).
  destruct (Live.queued s <? Live.queued s')%nat; reflexivity.
Qed.

Lemma single_take processors' k g idx s p ps ra later s' :
  (length (Session.processing s) + length (Session.finishing s)
   < numThreads)%nat ->
  (Live.made p <? k)%nat = false ->
  existsb (Live.same p) ra = false ->
  Session.step
    {| Session.engine := E; Session.numThreads := numThreads;
       Session.m_processors := processors' |} Session.Take
    (Live.install
       (Live.single processors' k g idx s (p :: ps) ra (0%nat :: later)) s)
  = Some s' ->
  Live.step E numThreads (Live.Act 0 Session.Take)
    (Live.single processors' k g idx s (p :: ps) ra (0%nat :: later))
  = Live.Next
      (Live.single processors' k (Session.g_activeImageSize s')
         (Session.m_nextProcessorIndex s') s' ps (ra ++ [p]) later).
Proof.
  intros Hbusy Hmade Huse Hs. unfold Live.single in *.
  cbn [Live.step]. unfold Live.act.
  cbn [Live.calls nth_error Live.view Live.fifo Live.queued_at
       Live.running_at Nat.eqb negb].
  unfold Live.busy, Live.in_use.
  cbn [Live.calls Live.view Live.rounds fold_right existsb Live.running_at].
  rewrite Nat.add_0_r. rewrite (proj2 (Nat.ltb_lt _ _) Hbusy).
  cbn [negb]. rewrite Hmade, Huse. cbn [orb].
  unfold Live.config. cbn [Live.m_processors]. rewrite Hs. reflexivity.
Qed.

Lemma single_process j processors' k g idx s qa ra p ps q s' :
  Session.pick j ra = Some (p, ps) ->
  Session.step
    {| Session.engine := E; Session.numThreads := numThreads;
       Session.m_processors := processors' |} (Session.Process j)
    (Live.install (Live.single processors' k g idx s qa ra q) s) = Some s' ->
  Live.step E numThreads (Live.Act 0 (Session.Process j))
    (Live.single processors' k g idx s qa ra q)
  = Live.Next
      (Live.single processors' k (Session.g_activeImageSize s')
         (Session.m_nextProcessorIndex s') s' qa ps q).
Proof.
  intros Hp Hs. unfold Live.single in *. cbn [Live.step]. unfold Live.act.
  cbn [Live.calls nth_error Live.view Live.running_at].
  unfold Live.config. cbn [Live.m_processors]. rewrite Hs, Hp. reflexivity.
Qed.

Lemma single_finish processors' k g idx s qa ra q s' :
  ThreadPool.idle (Session.m_threadPool s) = true ->
  Session.step
    {| Session.engine := E; Session.numThreads := numThreads;
       Session.m_processors := processors' |} Session.Finish
    (Live.install (Live.single processors' k g idx s qa ra q) s) = Some s' ->
  Live.step E numThreads (Live.Act 0 Session.Finish)
    (Live.single processors' k g idx s qa ra q)
  = Live.Next
      (Live.single processors' k (Session.g_activeImageSize s')
         (Session.m_nextProcessorIndex s') s' qa ra q).
Proof.
  intros Hidle Hs. unfold Live.single in *. cbn [Live.step]. unfold Live.act.
  cbn [Live.calls nth_error Live.view].
  unfold Live.all_idle. cbn [Live.calls forallb Live.view].
  rewrite Hidle. cbn [andb].
  unfold Live.config. cbn [Live.m_processors]. rewrite Hs. reflexivity.
Qed.


(** The one task of a call that is alone: taken, processed, written. *)

Lemma take_one C rs written g act idx t :
  (0 < Session.numThreads C)%nat ->
  Session.step C Session.Take
    {| Session.stream_in := rs; Session.stream_out := written;
       Session.reader := Session.AtRead; Session.g_activeImageSize := g;
       Session.activeTasks := act; Session.m_nextProcessorIndex := idx;
       Session.m_threadPool :=
         {| ThreadPool.m_tasks := [t]; ThreadPool.m_activeTasks := 1 |};
       Session.processing := []; Session.finishing := [] |}
  = Some
    {| Session.stream_in := rs; Session.stream_out := written;
       Session.reader := Session.AtRead; Session.g_activeImageSize := g;
       Session.activeTasks := act; Session.m_nextProcessorIndex := idx;
       Session.m_threadPool :=
         {| ThreadPool.m_tasks := []; ThreadPool.m_activeTasks := 1 |};
       Session.processing := [t]; Session.finishing := [] |}.
Proof.
  intros Hpos. unfold Session.step, Session.do_take, ThreadPool.take.
  cbn [Session.reader Session.processing Session.finishing length Nat.add
       Session.m_threadPool ThreadPool.m_tasks].
  rewrite (proj2 (Nat.ltb_lt _ _) Hpos). reflexivity.
Qed.

Lemma process_one C rs written idx t :
  Session.fits (Session.request t) ->
  Session.step C (Session.Process 0)
    {| Session.stream_in := rs; Session.stream_out := written;
       Session.reader := Session.AtRead;
       Session.g_activeImageSize := Session.size (Session.request t);
       Session.activeTasks := 1; Session.m_nextProcessorIndex := idx;
       Session.m_threadPool :=
         {| ThreadPool.m_tasks := []; ThreadPool.m_activeTasks := 1 |};
       Session.processing := [t]; Session.finishing := [] |}
  = Some
    {| Session.stream_in := rs; Session.stream_out := written;
       Session.reader := Session.AtRead; Session.g_activeImageSize := 0;
       Session.activeTasks := 0; Session.m_nextProcessorIndex := idx;
       Session.m_threadPool :=
         {| ThreadPool.m_tasks := []; ThreadPool.m_activeTasks := 1 |};
       Session.processing := [];
       Session.finishing := [Session.run_task (Session.engine C) t] |}.
Proof.
  intros Hfit. unfold Session.step, Session.do_process.
  cbn [Session.reader Session.processing Session.pick
       Session.g_activeImageSize Session.activeTasks Session.stream_in
       Session.stream_out Session.m_nextProcessorIndex Session.m_threadPool
       Session.finishing app].
  rewrite Z.sub_diag. reflexivity.
Qed.

Lemma emit_one C rs written idx res ok :
  Session.step C (Session.Emit 0 ok)
    {| Session.stream_in := rs; Session.stream_out := written;
       Session.reader := Session.AtRead; Session.g_activeImageSize := 0;
       Session.activeTasks := 0; Session.m_nextProcessorIndex := idx;
       Session.m_threadPool :=
         {| ThreadPool.m_tasks := []; ThreadPool.m_activeTasks := 1 |};
       Session.processing := []; Session.finishing := [res] |}
  = Some (Live.resting rs (written ++ [(res, ok)]) 0 idx).
Proof. reflexivity. Qed.

Lemma serve_one_runs r rs written idx k :
  Session.fits r ->
  exists written' idx',
    Live.exec E numThreads (map (Live.Act 0) (Live.serve_one r))
      (Live.lone processors k idx (Live.resting (r :: rs) written 0 idx))
    = Live.Next
        (Live.lone processors k idx' (Live.resting rs written' 0 idx')).
Proof.
  intros Hfit.
  pose proof workers_available as Hpos.
  unfold Live.serve_one, Live.lone.
  set (s0 := Live.resting (r :: rs) written 0 idx).
  set (s1 := Session.with_reader (Session.Throttled r)
               (Live.resting rs written 0 idx)).
  destruct (Z.gtb_spec (Session.size r) Session.MAX_MEMORY_USAGE)
    as [Hbig|Hok].
  - cbn [map Live.exec].
    rewrite (@single_plain (Session.Read true) processors k 0 idx
               s0 [] [] [] _ I
               (@read_rejects _ r rs written idx true Hfit
                  ltac:(lia))).
    eexists. eexists. reflexivity.
  - assert (H1 : Live.step E numThreads (Live.Act 0 (Session.Read true))
                   (Live.single processors k 0 idx s0 [] [] [])
                 = Live.Next (Live.single processors k 0 idx s1 [] [] [])).
    { exact (@single_plain (Session.Read true) processors k 0 idx
               s0 [] [] [] _ I
               (@read_admits _ r rs written idx true Hfit Hok)). }
    destruct (is_empty (ImageRequest.image_data r)) eqn:Hemp.
    + cbn [map Live.exec]. rewrite H1.
      rewrite (@single_pass true processors k 0 idx s1 [] [] [] _
                 (@pass_answers_empty _ r rs written idx true Hemp)).
      eexists. eexists. reflexivity.
    + destruct (@pass_dispatches r rs written idx true Hemp Hfit) as [p Hp].
      set (t := {| Session.request := r; Session.processor := p |}) in *.
      set (s2 := {| Session.stream_in := rs; Session.stream_out := written;
                    Session.reader := Session.AtRead;
                    Session.g_activeImageSize := Session.size r;
                    Session.activeTasks := 1;
                    Session.m_nextProcessorIndex := int_wrap (idx + 1);
                    Session.m_threadPool :=
                      {| ThreadPool.m_tasks := [t];
                         ThreadPool.m_activeTasks := 1 |};
                    Session.processing := [];
                    Session.finishing := [] |}) in *.
      set (ptr := Live.selected (Live.single processors k 0 idx s1 [] [] [])).
      assert (H2 : Live.step E numThreads (Live.Act 0 (Session.Pass true))
                     (Live.single processors k 0 idx s1 [] [] [])
                   = Live.Next
                       (Live.single processors k (Session.size r)
                          (int_wrap (idx + 1)) s2 [ptr] [] [0%nat])).
      { exact (@single_pass true processors k 0 idx s1 [] [] [] s2 Hp). }
      set (s3 := {| Session.stream_in := rs;
                    Session.stream_out := written;
                    Session.reader := Session.AtRead;
                    Session.g_activeImageSize := Session.size r;
                    Session.activeTasks := 1;
                    Session.m_nextProcessorIndex := int_wrap (idx + 1);
                    Session.m_threadPool :=
                      {| ThreadPool.m_tasks := [];
                         ThreadPool.m_activeTasks := 1 |};
                    Session.processing := [t];
                    Session.finishing := [] |}).
      set (s4 := {| Session.stream_in := rs;
                    Session.stream_out := written;
                    Session.reader := Session.AtRead;
                    Session.g_activeImageSize := 0;
                    Session.activeTasks := 0;
                    Session.m_nextProcessorIndex := int_wrap (idx + 1);
                    Session.m_threadPool :=
                      {| ThreadPool.m_tasks := [];
                         ThreadPool.m_activeTasks := 1 |};
                    Session.processing := [];
                    Session.finishing := [Session.run_task E t] |}).
      assert (H3 : Live.step E numThreads (Live.Act 0 Session.Take)
                     (Live.single processors k (Session.size r)
                        (int_wrap (idx + 1)) s2 [ptr] [] [0%nat])
                   = Live.Next
                       (Live.single processors k (Session.size r)
                          (int_wrap (idx + 1)) s3 [] [ptr] [])).
      { refine (@single_take processors k (Session.size r)
                  (int_wrap (idx + 1)) s2 ptr [] [] [] s3 _ _ _ _).
        - cbn. exact Hpos.
        - apply Nat.ltb_irrefl.
        - reflexivity.
        - apply take_one. exact Hpos. }
      assert (H4 : Live.step E numThreads
                     (Live.Act 0 (Session.Process 0))
                     (Live.single processors k (Session.size r)
                        (int_wrap (idx + 1)) s3 [] [ptr] [])
                   = Live.Next
                       (Live.single processors k 0 (int_wrap (idx + 1))
                          s4 [] [] [])).
      { refine (@single_process 0 processors k (Session.size r)
                  (int_wrap (idx + 1)) s3 [] [ptr] ptr [] [] s4 eq_refl _).
        exact (@process_one
                 {| Session.engine := E; Session.numThreads := numThreads;
                    Session.m_processors := processors |}
                 rs written (int_wrap (idx + 1)) t Hfit). }
      assert (H5 : Live.step E numThreads
                     (Live.Act 0 (Session.Emit 0 true))
                     (Live.single processors k 0 (int_wrap (idx + 1))
                        s4 [] [] [])
                   = Live.Next
                       (Live.single processors k 0 (int_wrap (idx + 1))
                          (Live.resting rs
                             (written ++ [(Session.run_task E t, true)])
                             0 (int_wrap (idx + 1))) [] [] [])).
      { exact (@single_plain (Session.Emit 0 true) processors k 0
                 (int_wrap (idx + 1)) s4 [] [] [] _ I
                 (@emit_one
                    {| Session.engine := E;
                       Session.numThreads := numThreads;
                       Session.m_processors := processors |}
                    rs written (int_wrap (idx + 1))
                    (Session.run_task E t) true)). }
      cbn [map Live.exec]. rewrite H1, H2, H3, H4, H5.
      eexists. eexists. reflexivity.
Qed.

Lemma serve_runs rs : forall written idx k,
  Forall Session.fits rs ->
  exists written' idx',
    Live.exec E numThreads (Live.serve rs)
      (Live.lone processors k idx (Live.resting rs written 0 idx))
    = Live.Next
        (Live.lone processors k idx'
           (Session.with_reader Session.Returned
              (Live.resting [] written' 0 idx'))).
Proof.
  unfold Live.serve.
  induction rs as [|r rs IH]; intros written idx k Hfits.
  - cbn [flat_map app map Live.exec]. unfold Live.lone.
    assert (H1 : Live.step E numThreads (Live.Act 0 (Session.Read true))
                   (Live.single processors k 0 idx
                      (Live.resting [] written 0 idx) [] [] [])
                 = Live.Next
                     (Live.single processors k 0 idx
                        (Session.with_reader Session.Draining
                           (Live.resting [] written 0 idx)) [] [] [])).
    { exact (@single_plain (Session.Read true) processors k 0 idx
               (Live.resting [] written 0 idx) [] [] []
               (Session.with_reader Session.Draining
                  (Live.resting [] written 0 idx)) I eq_refl). }
    assert (H2 : Live.step E numThreads (Live.Act 0 Session.Finish)
                   (Live.single processors k 0 idx
                      (Session.with_reader Session.Draining
                         (Live.resting [] written 0 idx)) [] [] [])
                 = Live.Next
                     (Live.single processors k 0 idx
                        (Session.with_reader Session.Returned
                           (Live.resting [] written 0 idx)) [] [] [])).
    { exact (@single_finish processors k 0 idx
               (Session.with_reader Session.Draining
                  (Live.resting [] written 0 idx)) [] [] []
               (Session.with_reader Session.Returned
                  (Live.resting [] written 0 idx)) eq_refl eq_refl). }
    rewrite H1, H2. eexists. eexists. reflexivity.
  - inversion Hfits as [|? ? Hfit Hfits']; subst.
    destruct (@serve_one_runs r rs written idx k Hfit)
      as (written1 & idx1 & H1).
    destruct (IH written1 idx1 k Hfits') as (written' & idx' & H2).
    exists written', idx'.
    cbn [flat_map]. rewrite <- app_assoc, map_app.
    rewrite (@live_exec_app _ _ _ _ H1). exact H2.
Qed.

End ServeFacts.


(** ** The service as a whole *)

Section WholeServiceFacts.
Import MachineInt CString.
Open Scope Z_scope.

Lemma in_flight_nonneg G : 0 <= Live.in_flight G.
Proof.
  unfold Live.in_flight. induction (Live.calls G) as [|c cs IH];
    cbn [fold_right]; [lia|].
  pose proof (payload_nonneg (Session.unreleased (Live.view c))). lia.
Qed.

Lemma in_flight_settled G :
  Forall (fun c => Session.unreleased (Live.view c) = []) (Live.calls G) ->
  Live.in_flight G = 0.
Proof.
  unfold Live.in_flight. induction 1 as [|c cs Hc _ IH];
    cbn [fold_right]; [reflexivity|].
  rewrite Hc, IH. reflexivity.
Qed.

End WholeServiceFacts.

(** C1. The claim is what a server owes its clients, and the code of
    [ProcessImages] by itself keeps it; the rest of the service does not
    let it. [Live] runs the calls of all clients, the workers and the
    thread of [memoryCleanupTask] together, and gives a run no result where
    C++ gives the program no meaning.
    - One image is dispatched and a clean-up round replaces the processors
      while the task waits in the queue: the worker that takes the task
      calls [processImage] through a pointer to a deleted processor.
    - One image is inside [processImage] when the clean-up round comes: its
      processor is deleted under it.
    - Three images of one client on a server with two processors: the third
      is bound to the processor of the first and starts on the free worker
      while the first is still inside [processImage].
    In none of the three is there a result for the request at hand, let
    alone exactly one.
    In every run that meets no such fault, whatever the number of clients
    and clean-up rounds, a call that has returned has called [Write] exactly
    once for each request it read: the results written are, up to order, the
    answers [respond] to the requests read, each with the [image_id] of its
    request; the answer to a rejected request (memory limit or empty
    payload) has [success = false] and a non-empty [error_message]; with
    distinct ids exactly one written result carries the id of a given
    request. And such runs exist: a client that is alone, served one request
    after the other with no clean-up round in between, is served to the
    return of its call with nothing left unread. A [Write] counts whatever
    it returns. *)
Theorem one_answer_per_request_unless_fault :
  Runs.run Runs.stale_pointer [[Samples.hello]]
    = Live.Undefined Live.UseAfterFree /\
  Runs.run Runs.deleted_in_use [[Samples.hello]]
    = Live.Undefined Live.DeletedInUse /\
  Runs.run Runs.shared_processor
      [[Samples.hello; Samples.noise; Samples.silent]]
    = Live.Undefined Live.SharedProcessor /\
  (forall (E : Adapter.Engine) (numThreads : nat)
          (processors : list Session.OCRProcessor),
      processors <> [] ->
      (length processors <= numThreads)%nat ->
      (Z.of_nat numThreads
         <= MachineInt.INT_MAX - Session.MAX_CONCURRENT_TASKS)%Z ->
      (forall requests sched G,
          Live.exec E numThreads sched (Live.initial processors requests)
            = Live.Next G ->
          forall i rs c,
            nth_error requests i = Some rs ->
            nth_error (Live.calls G) i = Some c ->
            Session.reader (Live.view c) = Session.Returned ->
            exists served : list (ImageRequest.t * Session.handling),
              rs = map fst served ++ Session.stream_in (Live.view c) /\
              Permutation (map fst (Session.stream_out (Live.view c)))
                          (map (Session.respond E) served) /\
              (forall h, In h served ->
                 OCRResult.image_id (Session.respond E h)
                   = ImageRequest.image_id (fst h) /\
                 (Session.rejected (snd h) = true ->
                  OCRResult.success (Session.respond E h) = false /\
                  OCRResult.error_message (Session.respond E h)
                    <> ""%string)) /\
              (NoDup (map ImageRequest.image_id rs) ->
               forall r, In r (map fst served) ->
                 count_occ string_dec
                   (map (fun w => OCRResult.image_id (fst w))
                        (Session.stream_out (Live.view c)))
                   (ImageRequest.image_id r) = 1%nat)) /\
      (forall rs,
          Forall Session.fits rs ->
          exists G c,
            Live.exec E numThreads (Live.serve rs)
              (Live.initial processors [rs]) = Live.Next G /\
            Live.calls G = [c] /\
            Session.reader (Live.view c) = Session.Returned /\
            Session.stream_in (Live.view c) = [])).
Proof.
  split; [vm_compute; reflexivity|]. split; [vm_compute; reflexivity|].
  split; [vm_compute; reflexivity|].
  intros E numThreads processors Hne Hle Hnt. split.
  - intros requests sched G Hexec i rs c Hrs Hc Hret.
    pose proof (@live_exec_invariant E numThreads Hnt requests sched _ _
                  (@live_initial_invariant E numThreads requests processors
                     Hne Hle) Hexec) as Hinv.
    destruct (@Forall2_nth _ _ _ i requests (Live.calls G) c
                (Live.inv_calls Hinv) Hc) as (rs' & Hrs' & Hcall).
    rewrite Hrs in Hrs'. inversion Hrs'; subst rs'.
    destruct (Live.inv_history Hcall) as (served & Hreq & Hperm).
    destruct (Live.inv_returned Hcall Hret) as [Hu Hf].
    rewrite Hu, Hf, Hret in *. cbn [Session.held app map] in Hreq, Hperm.
    rewrite app_nil_r in Hperm.
    exists served. split; [exact Hreq|]. split; [exact Hperm|]. split.
    + intros h _. split; [apply respond_echo | apply respond_rejected].
    + intros Hnd r Hr.
      pose proof (@written_ids _ _ _ Hperm) as Hids.
      rewrite (proj1 (Permutation_count_occ string_dec _ _) Hids).
      rewrite Hreq, map_app in Hnd. apply NoDup_app_remove_r in Hnd.
      apply NoDup_count_occ'; [exact Hnd|]. apply in_map. exact Hr.
  - intros rs Hfits.
    destruct (@serve_runs E numThreads Hnt processors Hne Hle rs [] 0 0%nat
                Hfits) as (written & idx & Hrun).
    eexists. eexists. split; [exact Hrun|].
    split; [reflexivity|]. split; reflexivity.
Qed.

Lemma one_answer_per_request_unless_fault_witness :
  exists G c served,
    Runs.run (Live.serve [Samples.hello; Samples.blank; Samples.noise])
             [[Samples.hello; Samples.blank; Samples.noise]] = Live.Next G /\
    Live.calls G = [c] /\
    Session.reader (Live.view c) = Session.Returned /\
    Session.stream_in (Live.view c) = [] /\
    [Samples.hello; Samples.blank; Samples.noise]
      = map fst served ++ Session.stream_in (Live.view c) /\
    Permutation (map fst (Session.stream_out (Live.view c)))
                (map (Session.respond Samples.toy_engine) served).
Proof.
  assert (Hne : Session.m_processors Samples.two_workers <> [])
    by discriminate.
  assert (Hle : (length (Session.m_processors Samples.two_workers) <= 2)%nat)
    by (simpl; lia).
  assert (Hnt : (Z.of_nat 2
                 <= MachineInt.INT_MAX - Session.MAX_CONCURRENT_TASKS)%Z)
    by (vm_compute; discriminate).
  assert (Hfits : Forall Session.fits
                    [Samples.hello; Samples.blank; Samples.noise])
    by (repeat constructor; vm_compute; reflexivity).
  destruct (proj2 (proj2 (proj2 one_answer_per_request_unless_fault))
              Samples.toy_engine 2%nat _ Hne Hle Hnt) as [Hsafe Hlive].
  destruct (Hlive _ Hfits) as (G & c & Hrun & Hcalls & Hret & Hin).
  assert (Hc : nth_error (Live.calls G) 0 = Some c)
    by (rewrite Hcalls; reflexivity).
  destruct (Hsafe _ _ _ Hrun 0%nat _ c eq_refl Hc Hret)
    as (served & Hreq & Hperm & _).
  exists G, c, served. repeat split; assumption.
Defined.

(** C2. The governor is one counter for the whole server: the file-scope
    [g_activeImageSize], with [MAX_MEMORY_USAGE] = 500 MiB and the size of a
    request the number of bytes of its [image_data]. For every value [c] of
    the counter and every size [n] whose sum a [size_t] holds:
    - the memory check rejects when [c + n > MAX_MEMORY_USAGE], writes the
      rejection and leaves the counter at [c]; otherwise it lets the request
      through, still without touching the counter;
    - the dispatch adds [n] to the counter as it is then;
    - a task subtracts its [n] when [processImage] is over, before its write
      and whatever that write returns.
    In every state the service reaches, whatever the number of clients and
    clean-up rounds, the counter is the number of bytes (modulo 2^64, as a
    [size_t] counts) of the dispatched tasks of all calls that have not
    released them yet; so it is 0 when no call has such a task left. *)
Theorem byte_counter_is_server_wide :
  (forall r : ImageRequest.t,
      Session.size r = Z.of_nat (length (ImageRequest.image_data r))) /\
  Session.MAX_MEMORY_USAGE = (500 * 1024 * 1024)%Z /\
  (forall C : Session.Config,
    (forall s r rest ok,
        Session.stream_in s = r :: rest ->
        (0 <= Session.g_activeImageSize s)%Z ->
        (Session.g_activeImageSize s + Session.size r < 2 ^ 64)%Z ->
        let c := Session.g_activeImageSize s in
        let s' := Session.do_read ok s in
        Session.g_activeImageSize s' = c /\
        ((c + Session.size r > Session.MAX_MEMORY_USAGE)%Z ->
         Session.reader s' = Session.AtRead /\
         Session.stream_out s'
           = Session.stream_out s ++ [(Session.memory_rejection r, ok)] /\
         Session.unreleased s' = Session.unreleased s) /\
        ((c + Session.size r <= Session.MAX_MEMORY_USAGE)%Z ->
         Session.reader s' = Session.Throttled r /\
         Session.stream_out s' = Session.stream_out s)) /\
    (forall s r ok s',
        Session.do_pass C ok r s = Some s' ->
        (0 <= Session.g_activeImageSize s)%Z ->
        (Session.g_activeImageSize s + Session.size r < 2 ^ 64)%Z ->
        Session.g_activeImageSize s'
          = (Session.g_activeImageSize s + Session.size r)%Z) /\
    (forall s k t rest,
        Session.pick k (Session.processing s) = Some (t, rest) ->
        (Session.size (Session.request t) <= Session.g_activeImageSize s
           < 2 ^ 64)%Z ->
        exists s',
          Session.do_process C k s = Some s' /\
          Session.g_activeImageSize s'
            = (Session.g_activeImageSize s
               - Session.size (Session.request t))%Z /\
          forall j ok s'', Session.do_emit j ok s' = Some s'' ->
            Session.g_activeImageSize s'' = Session.g_activeImageSize s')) /\
  (forall (E : Adapter.Engine) (numThreads : nat)
          (processors : list Session.OCRProcessor)
          (requests : list (list ImageRequest.t)) sched G,
      processors <> [] ->
      (length processors <= numThreads)%nat ->
      (Z.of_nat numThreads
         <= MachineInt.INT_MAX - Session.MAX_CONCURRENT_TASKS)%Z ->
      Live.exec E numThreads sched (Live.initial processors requests)
        = Live.Next G ->
      Live.g_activeImageSize G = MachineInt.size_t_wrap (Live.in_flight G) /\
      ((Live.in_flight G < 2 ^ 64)%Z ->
       Live.g_activeImageSize G = Live.in_flight G) /\
      (Forall (fun c => Session.unreleased (Live.view c) = [])
              (Live.calls G) ->
       Live.g_activeImageSize G = 0%Z)).
Proof.
  split; [reflexivity|]. split; [reflexivity|]. split; [exact counter_steps|].
  intros E numThreads processors requests sched G Hne Hle Hnt Hexec.
  pose proof (@live_exec_invariant E numThreads Hnt requests sched _ _
                (@live_initial_invariant E numThreads requests processors
                   Hne Hle) Hexec) as Hinv.
  pose proof (Live.inv_counter Hinv) as Hg.
  pose proof (in_flight_nonneg G) as Hnn.
  split; [exact Hg|]. split.
  - intros Hlt. rewrite Hg. apply size_t_wrap_id. lia.
  - intros Hall. rewrite Hg, (@in_flight_settled G Hall). reflexivity.
Qed.

Lemma byte_counter_is_server_wide_witness :
  exists G,
    Runs.run Runs.dispatched [[Samples.hello]] = Live.Next G /\
    Live.g_activeImageSize G = MachineInt.size_t_wrap (Live.in_flight G) /\
    Live.in_flight G = 8%Z /\
    Live.g_activeImageSize G = 8%Z.
Proof.
  assert (Hne : Session.m_processors Samples.two_workers <> [])
    by discriminate.
  assert (Hle : (length (Session.m_processors Samples.two_workers) <= 2)%nat)
    by (simpl; lia).
  assert (Hnt : (Z.of_nat 2
                 <= MachineInt.INT_MAX - Session.MAX_CONCURRENT_TASKS)%Z)
    by (vm_compute; discriminate).
  eexists. split; [reflexivity|].
  split; [|split; reflexivity].
  refine (proj1 (proj2 (proj2 (proj2 byte_counter_is_server_wide))
                   Samples.toy_engine 2%nat _ [[Samples.hello]]
                   Runs.dispatched _ Hne Hle Hnt _)).
  reflexivity.
Defined.

(** C2 as stated fails: the counter is the server's, not a session's. Two
    clients send one image of 8 bytes each. The task of the first is
    processed and written and its call has read the end of its stream, so
    every task of that session is settled; the image of the second has been
    dispatched: the counter is at 8. *)
Lemma byte_counter_shared_counterexample :
  exists G c0,
    Runs.run Runs.second_client_pending [[Samples.hello]; [Samples.hello]]
      = Live.Next G /\
    nth_error (Live.calls G) 0 = Some c0 /\
    Session.reader (Live.view c0) = Session.Draining /\
    Session.unreleased (Live.view c0) = [] /\
    Session.finishing (Live.view c0) = [] /\
    length (Session.stream_out (Live.view c0)) = 1%nat /\
    Live.g_activeImageSize G = 8%Z /\
    Live.g_activeImageSize G <> 0%Z.
Proof.
  vm_compute. eexists. eexists. split; [reflexivity|].
  split; [reflexivity|]. repeat split; try reflexivity. discriminate.
Qed.
